(** * Globalytix speech pipeline: encoder, synthesis dispatcher, recognition
      route and session state machine.

    A shallow embedding of
      - client/src/components/enhanced-speech-interface.tsx
          (audioBufferToWav, startRecording, resetToIdle),
      - client/src/lib/api.ts (createLimiter, tts),
      - the server routes /api/stt, /api/tts, /api/tts-single and escapeXml,
    followed by the properties of the specification that concern them.

    Numbers.  A JavaScript number is the rational [Q] it denotes, and
    [Math.round x] is [floor (x + 1/2)].  The encoder is given twice:
    [Encoder] divides and multiplies exactly; [Encoder64] rounds every
    quotient and product to the nearest double ([Double.round64]), as the
    code does, and it is the one the statements on sample counts,
    durations and bytes are about.

    Strings.  A string is the sequence of its characters; [trim] and
    [toUpperCase] are those of the code on ASCII strings ([isAscii]).

    Objects.  A lookup [map[key]] in an object literal is the lookup in
    the list of its own properties, which it is for every key but the
    twelve names inherited from [Object.prototype]
    ([Recorder.inherited]). *)

From Stdlib Require Import ZArith QArith Qround Qabs Qpower Lia Lqa Ascii String.
From stdpp Require Import base option list gmap strings.

Local Open Scope Z_scope.
Set Warnings "-clear-no-such-hyp".

(** ** JavaScript numeric primitives *)

Module Js.

(** [Math.round]: nearest integer, ties towards +infinity. *)
Definition Math_round (x : Q) : Z := Qfloor (x + (1 # 2))%Q.

(** [Math.abs], [Math.max], [Math.min]. *)
Definition Math_abs (x : Q) : Q := Qabs x.
Definition Math_max (x y : Q) : Q := if Qlt_le_dec x y then y else x.
Definition Math_min (x y : Q) : Q := if Qlt_le_dec y x then y else x.

(** The integer part used by ToInt16/ToUint32 (truncation towards zero). *)
Definition trunc (x : Q) : Z := Z.quot (Qnum x) (Z.pos (Qden x)).

(** [x > y] on numbers. *)
Definition gt (x y : Q) : bool := negb (Qle_bool x y).

(** [x < y] on numbers. *)
Definition lt (x y : Q) : bool := negb (Qle_bool y x).

End Js.

(** ** ArrayBuffer / DataView *)

Module DataView.

(** A byte container: one [Z] in [0, 256) per byte. *)
Abbreviation t := (list Z).

Definition byteLength (view : t) : Z := Z.of_nat (length view).

(** [new ArrayBuffer(n)]: zero-filled; a negative size is a RangeError. *)
Definition alloc (n : Z) : option t :=
  if decide (0 <= n) then Some (replicate (Z.to_nat n) 0) else None.

(** [view.setUint8(off, v)]; out of bounds is a RangeError. *)
Definition setUint8 (off v : Z) (view : t) : option t :=
  if decide (0 <= off ∧ off + 1 <= byteLength view)
  then Some (<[Z.to_nat off := v `mod` 256]> view)
  else None.

(** [view.setUint16(off, v, true)]: little-endian. *)
Definition setUint16 (off v : Z) (view : t) : option t :=
  if decide (0 <= off ∧ off + 2 <= byteLength view)
  then Some (<[Z.to_nat (off + 1) := (v / 256) `mod` 256]>
             (<[Z.to_nat off := v `mod` 256]> view))
  else None.

(** [view.setUint32(off, v, true)]: little-endian. *)
Definition setUint32 (off v : Z) (view : t) : option t :=
  if decide (0 <= off ∧ off + 4 <= byteLength view)
  then Some (<[Z.to_nat (off + 3) := (v / 16777216) `mod` 256]>
             (<[Z.to_nat (off + 2) := (v / 65536) `mod` 256]>
             (<[Z.to_nat (off + 1) := (v / 256) `mod` 256]>
             (<[Z.to_nat off := v `mod` 256]> view))))
  else None.

(** [view.setInt16(off, x, true)]: [x] is truncated to an integer and
    reduced modulo 2^16; the two's complement bytes are those of
    [setUint16]. *)
Definition setInt16 (off : Z) (x : Q) (view : t) : option t :=
  setUint16 off (Js.trunc x) view.

Definition byte_at (view : t) (off : Z) : Z := default 0 (view !! Z.to_nat off).

(** [view.getUint32(off, true)] and [view.getUint16(off, true)]. *)
Definition getUint32 (off : Z) (view : t) : Z :=
  byte_at view off + 256 * byte_at view (off + 1)
  + 65536 * byte_at view (off + 2) + 16777216 * byte_at view (off + 3).

Definition getUint16 (off : Z) (view : t) : Z :=
  byte_at view off + 256 * byte_at view (off + 1).

End DataView.

(** ** SignalEncoder: [audioBufferToWav] *)

Module Encoder.
Import Js DataView.

(** The part of a Web Audio [AudioBuffer] the encoder reads: the native
    rate and channel 0.  [buffer.length] is the number of sample frames,
    that is the length of the channel data. *)
Record AudioBuffer := {
  sampleRate : Q;
  channelData : list Q
}.

Definition buffer_length (buffer : AudioBuffer) : Z :=
  Z.of_nat (length (channelData buffer)).

Definition targetSampleRate : Z := 16000.
Definition threshold : Q := 1 # 100.

Definition ratio (buffer : AudioBuffer) : Q :=
  (sampleRate buffer / inject_Z targetSampleRate)%Q.

Definition newLength (buffer : AudioBuffer) : Z :=
  Math_round (inject_Z (buffer_length buffer) / ratio buffer)%Q.

(** [writeString(offset, string)]: one [setUint8] per character code. *)
Fixpoint writeString (offset : Z) (s : string) (view : DataView.t)
  : option DataView.t :=
  match s with
  | EmptyString => Some view
  | String c s' =>
      view' ← setUint8 offset (Z.of_nat (Ascii.nat_of_ascii c)) view;
      writeString (offset + 1) s' view'
  end.

(** The 44-byte header, written before trimming is computed. *)
Definition writeHeader (newLength : Z) (view : DataView.t) : option DataView.t :=
  view ← writeString 0 "RIFF" view;
  view ← setUint32 4 (36 + newLength * 2) view;
  view ← writeString 8 "WAVE" view;
  view ← writeString 12 "fmt " view;
  view ← setUint32 16 16 view;
  view ← setUint16 20 1 view;
  view ← setUint16 22 1 view;
  view ← setUint32 24 targetSampleRate view;
  view ← setUint32 28 (targetSampleRate * 2) view;
  view ← setUint16 32 2 view;
  view ← setUint16 34 16 view;
  view ← writeString 36 "data" view;
  setUint32 40 (newLength * 2) view.

(** [channelData[sourceIndex] || 0] with
    [sourceIndex = Math.round(i * ratio)]: an index past the end reads
    [undefined], which [|| 0] turns into 0. *)
Definition sourceSample (buffer : AudioBuffer) (i : Z) : Q :=
  let sourceIndex := Math_round (inject_Z i * ratio buffer)%Q in
  if decide (0 <= sourceIndex)
  then default 0%Q (channelData buffer !! Z.to_nat sourceIndex)
  else 0%Q.

(** [Math.abs(channelData[sourceIndex] || 0) > threshold]. *)
Definition loud (buffer : AudioBuffer) (i : Z) : bool :=
  Js.gt (Math_abs (sourceSample buffer i)) threshold.

(** [for (i = from; ...; i++) if (loud i) { start = i; break; }] over
    [n] iterations: the index at which the loop breaks, if it does. *)
Fixpoint scanForward (buffer : AudioBuffer) (i : Z) (n : nat) : option Z :=
  match n with
  | O => None
  | S n' => if loud buffer i then Some i else scanForward buffer (i + 1) n'
  end.

(** [for (i = from; ...; i--) if (loud i) { end = i; break; }]. *)
Fixpoint scanBackward (buffer : AudioBuffer) (i : Z) (n : nat) : option Z :=
  match n with
  | O => None
  | S n' => if loud buffer i then Some i else scanBackward buffer (i - 1) n'
  end.

(** [let start = 0, end = newLength - 1] and the two scans. *)
Definition trimStart (buffer : AudioBuffer) : Z :=
  default 0 (scanForward buffer 0 (Z.to_nat (newLength buffer))).

Definition trimEnd (buffer : AudioBuffer) : Z :=
  default (newLength buffer - 1)
    (scanBackward buffer (newLength buffer - 1) (Z.to_nat (newLength buffer))).

(** Clip to [-1, 1] and scale: negative by 0x8000, others by 0x7FFF. *)
Definition quantize (x : Q) : Q :=
  let sample := Math_max (-1) (Math_min 1 x) in
  if Js.lt sample 0 then (sample * 32768)%Q else (sample * 32767)%Q.

(** [for (i = start; i <= end; i++) { setInt16(offset, ...); offset += 2 }]
    for [n] iterations; returns the view and the final [offset]. *)
Fixpoint writeSamples (buffer : AudioBuffer) (n : nat) (i offset : Z)
    (view : DataView.t) : option (DataView.t * Z) :=
  match n with
  | O => Some (view, offset)
  | S n' =>
      view' ← setInt16 offset (quantize (sourceSample buffer i)) view;
      writeSamples buffer n' (i + 1) (offset + 2) view'
  end.

(** The number of iterations of the sample loop. *)
Definition retained (buffer : AudioBuffer) : Z :=
  Z.max 0 (trimEnd buffer - trimStart buffer + 1).

(** The body of [audioBufferToWav]; the second component is the value of
    the local [offset] when the function returns, i.e. 44 plus the number
    of sample bytes written. *)
Definition encode (buffer : AudioBuffer) : option (DataView.t * Z) :=
  let newLength := newLength buffer in
  view ← alloc (44 + newLength * 2);
  view ← writeHeader newLength view;
  writeSamples buffer (Z.to_nat (retained buffer)) (trimStart buffer) 44 view.

Definition audioBufferToWav (buffer : AudioBuffer) : option DataView.t :=
  fst <$> encode buffer.

(** Header fields of an encoded utterance. *)
Definition declaredSampleRate (wav : DataView.t) : Z := getUint32 24 wav.
Definition declaredDataLength (wav : DataView.t) : Z := getUint32 40 wav.
Definition declaredChannels (wav : DataView.t) : Z := getUint16 22 wav.
Definition declaredBitsPerSample (wav : DataView.t) : Z := getUint16 34 wav.

(** One loud sample between two silent ones, at the canonical rate
    (so that [ratio] is 1 and resampling is the identity). *)
Definition paddedClick : AudioBuffer :=
  {| sampleRate := 16000; channelData := [0; 1 # 2; 0]%Q |}.

(** The container the encoder returns for [paddedClick]: the header, the
    retained sample 0x3FFF and four bytes that are never written. *)
Definition paddedClickWav : DataView.t :=
  [82; 73; 70; 70; 42; 0; 0; 0; 87; 65; 86; 69; 102; 109; 116; 32;
   16; 0; 0; 0; 1; 0; 1; 0; 128; 62; 0; 0; 0; 125; 0; 0; 2; 0; 16; 0;
   100; 97; 116; 97; 6; 0; 0; 0; 255; 63; 0; 0; 0; 0].

(** One sample at 32 kHz: half an output period. *)
Definition halfPeriod : AudioBuffer :=
  {| sampleRate := 32000; channelData := [0%Q] |}.

(** Three silent samples at 48 kHz (one output sample). *)
Definition silence : AudioBuffer :=
  {| sampleRate := 48000; channelData := [0; 1 # 200; - (1 # 100)]%Q |}.

End Encoder.

(** ** Double-precision arithmetic *)

Module Double.

(** [2^e] for an integer [e] of either sign. *)
Definition pow2 (e : Z) : Q := (2 ^ e)%Q.

(** The integer nearest to [x]; of two equally near, the even one. *)
Definition nearestEven (x : Q) : Z :=
  let f := Qfloor x in
  match (x - inject_Z f ?= 1 # 2)%Q with
  | Lt => f
  | Eq => if Z.even f then f else f + 1
  | Gt => f + 1
  end.

(** The binary exponent of [x ≠ 0]: the [e] with [2^e <= |x| < 2^(e+1)]. *)
Definition exponent (x : Q) : Z :=
  let e := Z.log2 (Z.abs (Qnum x)) - Z.log2 (Z.pos (Qden x)) in
  if Qle_bool (pow2 e) (Qabs x) then e else e - 1.

(** The double nearest to [x] (IEEE 754 binary64, round to nearest, ties to
    even): [x] is scaled so that 53 bits stand before the point, rounded
    to an integer and scaled back.  The exponent is not bounded: the
    function is the rounding of the code where no result overflows (2^1024
    and beyond) or is subnormal (below 2^-1022). *)
Definition round64 (x : Q) : Q :=
  if Qeq_bool x 0 then 0%Q
  else let ulp := pow2 (exponent x - 52) in
       (inject_Z (nearestEven (x / ulp)) * ulp)%Q.

(** [x / y] and [x * y] of two doubles: the exact result, rounded. *)
Definition div64 (x y : Q) : Q := round64 (x / y).
Definition mul64 (x y : Q) : Q := round64 (x * y).

(** [x] is the value of a double. *)
Definition isDouble (x : Q) : Prop := (round64 x == x)%Q.

End Double.

(** ** SignalEncoder in the arithmetic of the code: [audioBufferToWav] with
       its division and its multiplication in double precision *)

Module Encoder64.
Import Js DataView Double Encoder.

(** A decoded buffer: its rate is a double among the rates the Web Audio
    implementations support (3000 Hz to 768000 Hz), it holds fewer than
    2^32 sample frames (the length of a typed array), and its samples are
    doubles (the elements of a [Float32Array] are). *)
Definition decoded (buffer : AudioBuffer) : Prop :=
  isDouble (sampleRate buffer)
  ∧ (3000 <= sampleRate buffer)%Q
  ∧ (sampleRate buffer <= 768000)%Q
  ∧ buffer_length buffer < 4294967296
  ∧ Forall isDouble (channelData buffer).

(** The literal [0.01]: the double nearest to 1/100. *)
Definition threshold : Q := round64 (1 # 100).

(** [buffer.sampleRate / targetSampleRate]. *)
Definition ratio (buffer : AudioBuffer) : Q :=
  div64 (sampleRate buffer) (inject_Z targetSampleRate).

(** [Math.round(buffer.length / ratio)]. *)
Definition newLength (buffer : AudioBuffer) : Z :=
  Math_round (div64 (inject_Z (buffer_length buffer)) (ratio buffer)).

(** [channelData[sourceIndex] || 0] with
    [sourceIndex = Math.round(i * ratio)]: an index past the end reads
    [undefined], which [|| 0] turns into 0. *)
Definition sourceSample (buffer : AudioBuffer) (i : Z) : Q :=
  let sourceIndex := Math_round (mul64 (inject_Z i) (ratio buffer)) in
  if decide (0 <= sourceIndex)
  then default 0%Q (channelData buffer !! Z.to_nat sourceIndex)
  else 0%Q.

(** [Math.abs(channelData[sourceIndex] || 0) > threshold]. *)
Definition loud (buffer : AudioBuffer) (i : Z) : bool :=
  Js.gt (Math_abs (sourceSample buffer i)) threshold.

(** [for (i = from; ...; i++) if (loud i) { start = i; break; }] over
    [n] iterations: the index at which the loop breaks, if it does. *)
Fixpoint scanForward (buffer : AudioBuffer) (i : Z) (n : nat) : option Z :=
  match n with
  | O => None
  | S n' => if loud buffer i then Some i else scanForward buffer (i + 1) n'
  end.

(** [for (i = from; ...; i--) if (loud i) { end = i; break; }]. *)
Fixpoint scanBackward (buffer : AudioBuffer) (i : Z) (n : nat) : option Z :=
  match n with
  | O => None
  | S n' => if loud buffer i then Some i else scanBackward buffer (i - 1) n'
  end.

(** [let start = 0, end = newLength - 1] and the two scans. *)
Definition trimStart (buffer : AudioBuffer) : Z :=
  default 0 (scanForward buffer 0 (Z.to_nat (newLength buffer))).

Definition trimEnd (buffer : AudioBuffer) : Z :=
  default (newLength buffer - 1)
    (scanBackward buffer (newLength buffer - 1) (Z.to_nat (newLength buffer))).

(** Clip to [-1, 1] and scale: negative by 0x8000, others by 0x7FFF. *)
Definition quantize (x : Q) : Q :=
  let sample := Math_max (-1) (Math_min 1 x) in
  if Js.lt sample 0 then mul64 sample 32768 else mul64 sample 32767.

(** [for (i = start; i <= end; i++) { setInt16(offset, ...); offset += 2 }]
    for [n] iterations; returns the view and the final [offset]. *)
Fixpoint writeSamples (buffer : AudioBuffer) (n : nat) (i offset : Z)
    (view : DataView.t) : option (DataView.t * Z) :=
  match n with
  | O => Some (view, offset)
  | S n' =>
      view' ← setInt16 offset (quantize (sourceSample buffer i)) view;
      writeSamples buffer n' (i + 1) (offset + 2) view'
  end.

(** The number of iterations of the sample loop. *)
Definition retained (buffer : AudioBuffer) : Z :=
  Z.max 0 (trimEnd buffer - trimStart buffer + 1).

(** The body of [audioBufferToWav]; the second component is the value of
    the local [offset] when the function returns. *)
Definition encode (buffer : AudioBuffer) : option (DataView.t * Z) :=
  let newLength := newLength buffer in
  view ← alloc (44 + newLength * 2);
  view ← writeHeader newLength view;
  writeSamples buffer (Z.to_nat (retained buffer)) (trimStart buffer) 44 view.

Definition audioBufferToWav (buffer : AudioBuffer) : option DataView.t :=
  fst <$> encode buffer.

(** Seven samples at 8960 Hz: [7 / 0.56] is 12.499999999999998 in double
    precision, and 12.5 exactly. *)
Definition sevenSamples : AudioBuffer :=
  {| sampleRate := 8960;
     channelData := [0; 1 # 2; 0; - (1 # 4); 0; 1 # 8; 0]%Q |}.

(** One silent sample at 48 kHz: a third of an output period. *)
Definition oneSilentSample : AudioBuffer :=
  {| sampleRate := 48000; channelData := [0%Q] |}.

(** Six samples at 48 kHz, none above the threshold (two output
    samples). *)
Definition quiet : AudioBuffer :=
  {| sampleRate := 48000;
     channelData := [0; 1 # 256; - (1 # 128); 0; 1 # 512; - (1 # 256)]%Q |}.

End Encoder64.

(** ** SynthesisDispatcher: [createLimiter], [runLimited], [audioCache], [tts] *)

Module Dispatcher.

(** The arguments of one [tts(text, voice, locale)] call. *)
Record request := Request {
  text : string;
  voice : string;
  locale : string
}.

(** [const key = `${locale}:${voice}:${text}`]. *)
Definition key (r : request) : string :=
  locale r +:+ ":" +:+ voice r +:+ ":" +:+ text r.

(** A response body is modelled by its bytes: [response.blob()] wraps
    them, [response.text()] decodes them. *)
Definition Blob : Type := string.

(** The settlement of the promise returned by one [tts] call. *)
Inductive outcome :=
| Resolved (blob : Blob)
| Rejected (error : string).

(** A call of [tts] is identified by its rank among all calls; a task is
    the [exec] closure the limiter builds for a call (it captures the
    call's fetch thunk and the promise callbacks). *)
Abbreviation task := (nat * request)%type.

(** Module-level state of api.ts together with the continuations that are
    suspended at an [await].  [fetchLog] is a ghost log of the provider
    calls issued so far, in the order [fn()] was invoked. *)
Record state := State {
  audioCache : gmap string Blob;
  active : nat;
  queue : list task;
  fetching : list task;
  reading : list (nat * (request * bool));
  settled : gmap nat outcome;
  fetchLog : list task;
  nextId : nat
}.

(** [createLimiter(3)]. *)
Definition limit : nat := 3.

Definition init : state :=
  State ∅ 0 [] [] [] ∅ [] 0.

(** The synchronous prefix of [exec]: [active++] and [fn()], which issues
    the fetch; the closure then suspends at [await fn()]. *)
Definition exec (t : task) (s : state) : state :=
  State (audioCache s) (S (active s)) (queue s) (fetching s ++ [t])
        (reading s) (settled s) (fetchLog s ++ [t]) (nextId s).

(** [active < limit ? exec() : queue.push(exec)]. *)
Definition runLimited (t : task) (s : state) : state :=
  if decide (active s < limit)%nat then exec t s
  else State (audioCache s) (active s) (queue s ++ [t]) (fetching s)
             (reading s) (settled s) (fetchLog s) (nextId s).

(** The [finally] block of [exec]:
    [active--; if (queue.length) queue.shift()!();]. *)
Definition release (s : state) : state :=
  let s' := State (audioCache s) (pred (active s)) (queue s) (fetching s)
                  (reading s) (settled s) (fetchLog s) (nextId s) in
  match queue s' with
  | [] => s'
  | t :: q =>
      exec t (State (audioCache s') (active s') q (fetching s')
                    (reading s') (settled s') (fetchLog s') (nextId s'))
  end.

Definition settle (id : nat) (o : outcome) (s : state) : state :=
  State (audioCache s) (active s) (queue s) (fetching s)
        (reading s) (<[id := o]> (settled s)) (fetchLog s) (nextId s).

(** Removes the first entry of a call from a list of suspended
    continuations. *)
Fixpoint take {A} (id : nat) (l : list (nat * A)) : option (A * list (nat * A)) :=
  match l with
  | [] => None
  | (i, a) :: l' =>
      if decide (i = id) then Some (a, l')
      else '(b, rest) ← take id l'; Some (b, (i, a) :: rest)
  end.

(** How the provider call of a request ends: the fetch promise rejects,
    or resolves with a response whose [ok] flag is given. *)
Inductive fetch_result :=
| FetchError (e : string)
| FetchResponse (ok : bool).

(** How reading the body ([response.text()] or [response.blob()]) ends. *)
Inductive body_result :=
| BodyError (e : string)
| Body (bytes : string).

(** The events of the (single-threaded) event loop that concern the
    dispatcher. *)
Inductive event :=
| Call (r : request)
| FetchSettles (id : nat) (res : fetch_result)
| BodySettles (id : nat) (res : body_result).

(** [tts(text, voice, locale)] up to its first suspension, as the call of
    rank [nextId]: a cache hit returns the cached blob, a miss enters the
    limiter. *)
Definition tts (r : request) (s : state) : state :=
  let id := nextId s in
  let s := State (audioCache s) (active s) (queue s) (fetching s)
                 (reading s) (settled s) (fetchLog s) (S (nextId s)) in
  match audioCache s !! key r with
  | Some blob => settle id (Resolved blob) s
  | None => runLimited (id, r) s
  end.

(** The fetch of call [id] settles: [exec] resumes, resolves or rejects
    the limiter's promise and runs its [finally] block; on a response the
    continuation of [tts] goes on to read the body. *)
Definition fetchSettles (id : nat) (res : fetch_result) (s : state) : option state :=
  '(r, rest) ← take id (fetching s);
  let s := State (audioCache s) (active s) (queue s) rest
                 (reading s) (settled s) (fetchLog s) (nextId s) in
  let s := release s in
  Some match res with
       | FetchError e => settle id (Rejected e) s
       | FetchResponse ok =>
           State (audioCache s) (active s) (queue s) (fetching s)
                 (reading s ++ [(id, (r, ok))]) (settled s) (fetchLog s) (nextId s)
       end.

(** The body of call [id] has been read: a non-ok response throws its
    text, an ok response is cached under the key and returned. *)
Definition bodySettles (id : nat) (res : body_result) (s : state) : option state :=
  '(rok, rest) ← take id (reading s);
  let s := State (audioCache s) (active s) (queue s) (fetching s)
                 rest (settled s) (fetchLog s) (nextId s) in
  Some match res with
       | BodyError e => settle id (Rejected e) s
       | Body bytes =>
           if rok.2 : bool then
             settle id (Resolved bytes)
               (State (<[key rok.1 := bytes]> (audioCache s)) (active s) (queue s)
                      (fetching s) (reading s) (settled s) (fetchLog s) (nextId s))
           else settle id (Rejected bytes) s
       end.

Definition step (e : event) (s : state) : option state :=
  match e with
  | Call r => Some (tts r s)
  | FetchSettles id res => fetchSettles id res s
  | BodySettles id res => bodySettles id res s
  end.

(** Runs a sequence of events; [None] when an event is not enabled (a
    settlement for a call that is not waiting for it). *)
Fixpoint runEvents (evs : list event) (s : state) : option state :=
  match evs with
  | [] => Some s
  | e :: evs' => s' ← step e s; runEvents evs' s'
  end.

Definition reachable (s : state) : Prop := ∃ evs, runEvents evs init = Some s.

(** The tasks of [rs] called back to back from a state whose next call
    has rank [n]. *)
Fixpoint tasksFrom (n : nat) (rs : list request) : list task :=
  match rs with
  | [] => []
  | r :: rs' => (n, r) :: tasksFrom (S n) rs'
  end.

Definition isFetchSettles (e : event) : bool :=
  match e with FetchSettles _ _ => true | _ => false end.

Definition isCall (e : event) : bool :=
  match e with Call _ => true | _ => false end.

(** The number of provider calls that settle in a sequence of events. *)
Fixpoint fetchesSettled (evs : list event) : nat :=
  match evs with
  | [] => 0
  | e :: evs' => (if isFetchSettles e then 1 else 0) + fetchesSettled evs'
  end.

(** The calls that have not settled yet: queued in the limiter, waiting
    for the provider, or reading a response body. *)
Definition pending (s : state) : list nat :=
  (queue s).*1 ++ (fetching s).*1 ++ (reading s).*1.

Record Inv (s : state) : Prop := {
  inv_active : active s = length (fetching s);
  inv_limit : (active s <= limit)%nat;
  inv_queue : queue s ≠ [] → active s = limit;
  inv_nodup : NoDup (pending s);
  inv_pending : ∀ id, id ∈ pending s →
                      (id < nextId s)%nat ∧ settled s !! id = None;
  inv_settled : ∀ id, is_Some (settled s !! id) → (id < nextId s)%nat;
  inv_cover : ∀ id, (id < nextId s)%nat →
                    id ∈ pending s ∨ is_Some (settled s !! id)
}.

(** Sample requests and runs. *)
Definition goodWork : request :=
  Request "Good work!" "en-US-JennyNeural" "en-US".

Definition phrase (n : nat) : request :=
  Request (String (Ascii.ascii_of_nat (48 + n)) "") "en-US-JennyNeural" "en-US".

(** Four requests back to back: three in flight, one queued. *)
Definition fourCalls : state :=
  tts (phrase 4) (tts (phrase 3) (tts (phrase 2) (tts (phrase 1) init))).

(** Five requests back to back; then four provider calls settle, two of
    them with a failure, and one body is read. *)
Definition fiveRequests : list request :=
  [phrase 1; phrase 2; phrase 3; phrase 4; phrase 5].

Definition someSettlements : list event :=
  [FetchSettles 1 (FetchError "Failed to fetch");
   FetchSettles 0 (FetchResponse true);
   BodySettles 0 (Body "ID3");
   FetchSettles 3 (FetchResponse false);
   FetchSettles 2 (FetchResponse true)].

End Dispatcher.

(** ** JavaScript string primitives used by the server routes *)

Module JsString.

Definition nl : string := String (Ascii.ascii_of_nat 10) "".

(** [s.replace(/c/g, by)] for a single-character pattern. *)
Fixpoint replaceAll (c : ascii) (by_ : string) (s : string) : string :=
  match s with
  | EmptyString => EmptyString
  | String a s' =>
      if decide (a = c) then by_ +:+ replaceAll c by_ s'
      else String a (replaceAll c by_ s')
  end.

(** White space removed by [String.prototype.trim] (ASCII range). *)
Definition isSpace (a : ascii) : bool :=
  let n := Ascii.nat_of_ascii a in
  bool_decide (n = 32 ∨ (9 <= n ∧ n <= 13))%nat.

Fixpoint trimLeft (s : string) : string :=
  match s with
  | EmptyString => EmptyString
  | String a s' => if isSpace a then trimLeft s' else s
  end.

Definition trim (s : string) : string :=
  String.rev (trimLeft (String.rev (trimLeft s))).

(** [s.toUpperCase()] on the ASCII letters. *)
Definition upper (a : ascii) : ascii :=
  let n := Ascii.nat_of_ascii a in
  if bool_decide (97 <= n ∧ n <= 122)%nat then Ascii.ascii_of_nat (n - 32) else a.

Fixpoint toUpperCase (s : string) : string :=
  match s with
  | EmptyString => EmptyString
  | String a s' => String (upper a) (toUpperCase s')
  end.

(** The strings of ASCII characters. *)
Fixpoint isAscii (s : string) : bool :=
  match s with
  | EmptyString => true
  | String a s' => bool_decide (Ascii.nat_of_ascii a < 128)%nat && isAscii s'
  end.

(** [a || b] on possibly-undefined strings: [undefined] and [''] are
    falsy. *)
Definition truthy (s : option string) : option string :=
  match s with
  | Some EmptyString => None
  | _ => s
  end.

Definition or_ (a : option string) (b : string) : string :=
  default b (truthy a).

(** Does [sub] occur in [s]? *)
Fixpoint includes (sub s : string) : bool :=
  String.prefix sub s ||
  match s with
  | EmptyString => false
  | String _ s' => includes sub s'
  end.

End JsString.

(** ** The synthesis routes of the server: [escapeXml], /api/tts-single and
       /api/tts *)

Module Ssml.
Import JsString.

(** [escapeXml] of the routes file. *)
Definition escapeXml (s : string) : string :=
  replaceAll ">" "&gt;" (replaceAll "<" "&lt;" (replaceAll "&" "&amp;" s)).

(** The speech-markup document of /api/tts-single (the route behind the
    client's [tts]). *)
Definition ssmlSingle (text voice locale : string) : string :=
  trim (nl +:+ "<speak version='1.0' xml:lang='" +:+ locale +:+ "'>" +:+ nl
        +:+ "  <voice name='" +:+ voice +:+ "'>" +:+ nl
        +:+ "    <prosody rate='-10%'>" +:+ escapeXml text +:+ "</prosody>" +:+ nl
        +:+ "  </voice>" +:+ nl
        +:+ "</speak>").

(** An item of the batch route /api/tts. *)
Record item := Item { code : string; itemText : string }.

Definition voiceMap : list (string * string) :=
  [ ("en", "en-US-JennyNeural"); ("es", "es-ES-ElviraNeural");
    ("fr", "fr-FR-DeniseNeural"); ("de", "de-DE-KatjaNeural");
    ("it", "it-IT-ElsaNeural"); ("pt", "pt-PT-RaquelNeural");
    ("ru", "ru-RU-SvetlanaNeural"); ("zh-Hans", "zh-CN-XiaoxiaoNeural");
    ("ja", "ja-JP-NanamiNeural"); ("ko", "ko-KR-SunHiNeural");
    ("ar", "ar-SA-ZariyahNeural"); ("tr", "tr-TR-EmelNeural");
    ("nl", "nl-NL-ColetteNeural"); ("da", "da-DK-ChristelNeural");
    ("fa", "fa-IR-DilaraNeural"); ("lv", "lv-LV-EveritaNeural") ].

Definition lookup (k : string) (m : list (string * string)) : option string :=
  (list_to_map m : gmap string string) !! k.

(** [voiceMap[item.code] || voiceMap['en']]. *)
Definition pickVoice (code : string) : string :=
  or_ (lookup code voiceMap) (or_ (lookup "en" voiceMap) "").

(** The speech-markup document of the batch route /api/tts: the item's
    text is interpolated as it is. *)
Definition ssmlBatch (it : item) : string :=
  "<speak version='1.0' xml:lang='"
  +:+ (if decide (code it = "zh-Hans") then "zh-CN" else code it) +:+ "'>" +:+ nl
  +:+ "              <voice name='" +:+ pickVoice (code it) +:+ "'>"
  +:+ itemText it +:+ "</voice>" +:+ nl
  +:+ "            </speak>".

(** Character data of a well-formed XML document: no [<], and every [&]
    opens one of the entity references the routes produce. *)
Fixpoint charData (s : string) : bool :=
  match s with
  | EmptyString => true
  | String a s' =>
      (if decide (a = "<"%char) then false
       else if decide (a = "&"%char)
            then String.prefix "amp;" s' || String.prefix "lt;" s'
                 || String.prefix "gt;" s'
            else true)
      && charData s'
  end.

(** What [escapeXml] makes of one character. *)
Definition escapeChar (a : ascii) : string :=
  if decide (a = "&"%char) then "&amp;"
  else if decide (a = "<"%char) then "&lt;"
  else if decide (a = ">"%char) then "&gt;"
  else String a "".

(** A text with markup-significant characters. *)
Definition markupText : string := "a<b & c".

End Ssml.

(** ** RecognitionClient: the /api/stt route *)

Module Stt.
Import JsString.

(** The recognizer's JSON payload, as far as the route reads it. *)
Record SttData := {
  RecognitionStatus : string;
  DisplayText : option string;
  NBest0Display : option string;
  Confidence : option Q;
  NBest0Confidence : option Q
}.

(** The recognizer's reply: the fetch throws, or answers with a status. *)
Inductive stt_reply :=
| SttThrows (message : string)
| SttNotOk (status : Z) (errorText : string)
| SttOk (data : SttData).

(** The language-identification reply: the call (or reading its JSON)
    throws, the status is not ok, or the payload carries
    [translatorData[0]?.language]. *)
Inductive detect_reply :=
| DetectThrows
| DetectNotOk (errorText : string)
| DetectOk (language : option string).

(** Outbound provider calls, in order. *)
Inductive provider_call :=
| Recognize (languageParam : option string)
| Detect (text : string).

(** What the route sends back. *)
Inductive response :=
| BadRequest (error : string)
| Mock (text : string) (language : string)
| ServerError (error : string)
| RecognitionFailed (status : Z) (details : string)
| Recognized (text : string) (language : string) (confidence : Q)
             (detectedLanguage : option string)
| NoSpeech (language : string).

Definition langMap : list (string * string) :=
  [ ("es", "es-ES"); ("fr", "fr-FR"); ("ar", "ar-SA"); ("fa", "fa-IR");
    ("ru", "ru-RU"); ("zh", "zh-CN"); ("it", "it-IT"); ("pt", "pt-PT");
    ("nl", "nl-NL"); ("tr", "tr-TR"); ("da", "da-DK"); ("lv", "lv-LV");
    ("en", "en-US") ].

(** [langMap[detectedCode] || `${detectedCode}-${detectedCode.toUpperCase()}`]. *)
Definition expand (detectedCode : string) : string :=
  or_ ((list_to_map langMap : gmap string string) !! detectedCode)
      (detectedCode +:+ "-" +:+ toUpperCase detectedCode).

(** [a || b || 1.0] on numbers: [undefined] and [0] are falsy. *)
Definition numOr (a : option Q) (b : Q) : Q :=
  match a with
  | Some x => if Qeq_bool x 0 then b else x
  | None => b
  end.

Definition substring (n : nat) (s : string) : string := String.substring 0 n s.

(** [Buffer.from(audioData.split(',')[1], 'base64')] throws a TypeError
    when a data URL has no comma (the second piece is [undefined]); every
    other string decodes. *)
Definition undecodable (audioData : string) : bool :=
  includes "data:audio/" audioData && negb (includes "," audioData).

Definition decodeError : string :=
  "The first argument must be of type string or an instance of Buffer, ArrayBuffer, or Array or an Array-like Object. Received undefined".

(** The handler.  [speechKey] is [process.env.AZURE_SPEECH_KEY]; the
    replies of the two providers are given as arguments, the second as a
    function of the text it is asked about. *)
Definition handle (speechKey : option string) (audioData language : option string)
    (stt : stt_reply) (detect : string → detect_reply)
  : list provider_call * response :=
  match truthy audioData with
  | None => ([], BadRequest "Missing audio data")
  | Some _ =>
  match truthy speechKey with
  | None => ([], Mock "[Mock] Recognized speech from audio" (or_ language "en"))
  | Some _ =>
    if undecodable (default "" audioData)
    then ([], ServerError decodeError)
    else
      let finalLanguage :=
        if decide (language = Some "auto") then Some "en-US" else language in
      let calls := [Recognize finalLanguage] in
      match stt with
      | SttThrows message => (calls, ServerError message)
      | SttNotOk status errorText =>
          (calls, RecognitionFailed status (substring 100 errorText))
      | SttOk sttData =>
          let isSuccess :=
            bool_decide (RecognitionStatus sttData = "Success"
                         ∨ RecognitionStatus sttData = "success") in
          let displayText :=
            or_ (DisplayText sttData) (or_ (NBest0Display sttData) "") in
          if isSuccess && bool_decide (displayText ≠ "")
             && bool_decide (trim displayText ≠ "")
          then
            let '(calls, actualDetectedLang) :=
              if decide (language = Some "auto") then
                (calls ++ [Detect displayText],
                 match detect displayText with
                 | DetectOk lang =>
                     match truthy lang with
                     | Some detectedCode => Some (expand detectedCode)
                     | None => finalLanguage
                     end
                 | DetectNotOk _ => finalLanguage
                 | DetectThrows => finalLanguage
                 end)
              else (calls, finalLanguage) in
            (calls,
             Recognized displayText (or_ language "auto")
               (numOr (Confidence sttData) (numOr (NBest0Confidence sttData) 1))
               actualDetectedLang)
          else (calls, NoSpeech (or_ language "auto"))
      end
  end
  end.

Definition detectedLanguageOf (r : response) : option string :=
  match r with
  | Recognized _ _ _ d => d
  | _ => None
  end.

(** The detected language of an "auto" request, given the identification
    reply. *)
Definition autoDetected (reply : detect_reply) : string :=
  match reply with
  | DetectOk language =>
      match truthy language with
      | Some detectedCode => expand detectedCode
      | None => "en-US"
      end
  | _ => "en-US"
  end.

(** A recognizer payload with the transcript hola. *)
Definition hola : SttData :=
  {| RecognitionStatus := "Success"; DisplayText := Some "hola";
     NBest0Display := None; Confidence := None; NBest0Confidence := None |}.

End Stt.

(** ** SessionStateMachine: [recordingState] in enhanced-speech-interface.tsx *)

Module Session.

Inductive RecordingState := idle | listening | translating | done | error.

#[global] Instance RecordingState_eq_dec : EqDecision RecordingState.
Proof. solve_decision. Defined.

(** The outcome of [navigator.mediaDevices.getUserMedia]. *)
Inductive media := Granted | Denied.

(** [startRecording]: guarded on the idle state; otherwise the recorder
    starts (listening) or microphone access fails (error). *)
Definition startRecording (recordingState : RecordingState) (m : media)
  : RecordingState :=
  if decide (recordingState ≠ idle) then recordingState
  else match m with
       | Granted => listening
       | Denied => error
       end.

(** [resetToIdle] (the "New Recording" button). *)
Definition resetToIdle (recordingState : RecordingState) : RecordingState := idle.

(** The timer armed by [scheduleRetry] fires. *)
Definition retryTimer (recordingState : RecordingState) : RecordingState := idle.

(** [recorder.onstop] runs [processRecordedAudio], which first sets
    translating. *)
Definition captureEnds (recordingState : RecordingState) : RecordingState :=
  translating.

(** How [processRecordedAudio] ends: a non-empty transcript translated and
    synthesized, an empty transcript, or an exception of some stage. *)
Inductive pipeline := Succeeded | EmptyTranscript | Failed.

Definition processed (p : pipeline) (recordingState : RecordingState)
  : RecordingState :=
  match p with
  | Succeeded => done
  | EmptyTranscript => error
  | Failed => error
  end.

(** The main button: [onClick = listening ? stopRecording : startRecording],
    disabled while translating. *)
Definition clickRecord (recordingState : RecordingState) (m : media)
  : RecordingState :=
  match recordingState with
  | listening => captureEnds recordingState
  | translating => recordingState
  | _ => startRecording recordingState m
  end.

End Session.

(** ** The bytes of an encoded utterance *)

Module Wav.
Import Js DataView Encoder.

(** Little-endian bytes of a 16-bit and of a 32-bit field. *)
Definition le16 (v : Z) : list Z := [v `mod` 256; (v / 256) `mod` 256].

Definition le32 (v : Z) : list Z :=
  [v `mod` 256; (v / 256) `mod` 256; (v / 65536) `mod` 256;
   (v / 16777216) `mod` 256].

(** The 44 header bytes for [n] samples: RIFF, chunk size, WAVE, fmt, 16,
    PCM, mono, 16000 Hz, 32000 bytes per second, 2 bytes per frame, 16 bits,
    data, data size. *)
Definition headerBytes (n : Z) : list Z :=
  [82; 73; 70; 70] ++ le32 (36 + n * 2) ++ [87; 65; 86; 69]
  ++ [102; 109; 116; 32] ++ le32 16 ++ le16 1 ++ le16 1
  ++ le32 targetSampleRate ++ le32 (targetSampleRate * 2) ++ le16 2 ++ le16 16
  ++ [100; 97; 116; 97] ++ le32 (n * 2).

(** The two bytes [setInt16] stores for output index [i]. *)
Definition sampleBytes (buffer : AudioBuffer) (i : Z) : list Z :=
  le16 (trunc (quantize (sourceSample buffer i))).

(** The bytes of [n] consecutive output samples from index [i]. *)
Fixpoint pcm (buffer : AudioBuffer) (n : nat) (i : Z) : list Z :=
  match n with
  | O => []
  | S n' => sampleBytes buffer i ++ pcm buffer n' (i + 1)
  end.


(** A two-byte little-endian word read as a signed 16-bit integer
    ([view.getInt16(off, true)]). *)
Definition getInt16 (off : Z) (wav : DataView.t) : Z :=
  let u := getUint16 off wav in
  if decide (u < 32768) then u else u - 65536.

End Wav.

(** ** The bytes of an encoded utterance, in the arithmetic of the code *)

Module Wav64.
Import Js DataView Encoder Wav Encoder64.

(** The two bytes [setInt16] stores for output index [i]. *)
Definition sampleBytes (buffer : AudioBuffer) (i : Z) : list Z :=
  le16 (trunc (quantize (sourceSample buffer i))).

(** The bytes of [n] consecutive output samples from index [i]. *)
Fixpoint pcm (buffer : AudioBuffer) (n : nat) (i : Z) : list Z :=
  match n with
  | O => []
  | S n' => sampleBytes buffer i ++ pcm buffer n' (i + 1)
  end.

End Wav64.

(** ** The encoder of the full translator page: [audioBufferToWav] without
       trimming *)

Module PlainEncoder.
Import Js DataView Encoder Encoder64.

(** The same header; then
    [for (let i = 0; i < newLength; i++) { setInt16(offset, ...); offset += 2 }]. *)
Definition encode (buffer : AudioBuffer) : option (DataView.t * Z) :=
  let newLength := newLength buffer in
  view ← alloc (44 + newLength * 2);
  view ← writeHeader newLength view;
  writeSamples buffer (Z.to_nat newLength) 0 44 view.

Definition audioBufferToWav (buffer : AudioBuffer) : option DataView.t :=
  fst <$> encode buffer.

End PlainEncoder.

(** ** The recorder's pipeline: what [processRecordedAudio] sends to
       /api/stt and what it does with the answer *)

Module Recorder.
Import JsString Stt.

(** The body posted to /stt: the encoded recording as a data URL, and the
    sentinel auto. *)
Definition audioData (base64Audio : string) : string :=
  "data:audio/wav;base64," +:+ base64Audio.

Definition requestedLanguage : string := "auto".

(** [s.split('-')[0]]: the part of [s] before its first hyphen. *)
Fixpoint splitHead (s : string) : string :=
  match s with
  | EmptyString => EmptyString
  | String a s' => if decide (a = "-"%char) then EmptyString
                   else String a (splitHead s')
  end.

(** What follows the answer of /stt. *)
Inductive next :=
| TranslateRequest (text : string) (from : option string)
| SessionError.

(** The answer as [postJsonStrict] hands it over: the statuses 400 and 500
    make it throw (the [catch] block sets the error state); a 200 answer
    is tested with [sttResponse.text && sttResponse.text.trim()], and the
    translation is requested with
    [from: sttResponse.detectedLanguage?.split('-')[0]]. *)
Definition afterStt (reply : response) : next :=
  let proceed (text : string) (detectedLanguage : option string) :=
    if bool_decide (text ≠ "") && bool_decide (trim text ≠ "")
    then TranslateRequest text (splitHead <$> detectedLanguage)
    else SessionError in
  match reply with
  | BadRequest _ => SessionError
  | ServerError _ => SessionError
  | RecognitionFailed _ _ => SessionError
  | Mock text _ => proceed text None
  | Recognized text _ _ detectedLanguage => proceed text detectedLanguage
  | NoSpeech _ => proceed "" None
  end.

(** The property names every object literal inherits from
    [Object.prototype]: for these keys [langMap[key]] is not [undefined],
    and the maps of this development, which hold the own properties only,
    do not describe the lookup. *)
Definition inherited : list string :=
  [ "constructor"; "__proto__"; "hasOwnProperty"; "isPrototypeOf";
    "propertyIsEnumerable"; "toLocaleString"; "toString"; "valueOf";
    "__defineGetter__"; "__defineSetter__"; "__lookupGetter__";
    "__lookupSetter__" ].

End Recorder.

(** ** The synthesis routes of the routes file, as handlers: /api/tts-single
       and /api/tts *)

Module Synthesis.
Import JsString Ssml.

(** [speechRegionRaw?.replace(/-/g, '') || 'uaenorth']. *)
Definition speechRegion (speechRegionRaw : option string) : string :=
  or_ (replaceAll "-" "" <$> speechRegionRaw) "uaenorth".

Definition endpoint (speechRegion : string) : string :=
  "https://" +:+ speechRegion +:+ ".tts.speech.microsoft.com/cognitiveservices/v1".

(** The region of /api/stt: [process.env.AZURE_SPEECH_REGION || 'uae-north'],
    put as it is before [.stt.speech.microsoft.com]. *)
Definition sttRegion (speechRegionRaw : option string) : string :=
  or_ speechRegionRaw "uae-north".

(** An outbound synthesis call: where it is posted, and the document. *)
Record post := Post { url : string; body : string }.

(** The provider's reply to a synthesis call: the fetch, or reading the
    body, throws; the status is not ok; or the audio. *)
Inductive tts_reply :=
| TtsThrows (message : string)
| TtsNotOk (status : Z) (errorText : string)
| TtsOk (audio : string).

(** What /api/tts-single sends back. *)
Inductive single_response :=
| Required
| EmptyMp3
| TtsFailed (detail : string)
| TtsException (error : string)
| Mp3 (audio : string).

(** The handler of /api/tts-single. *)
Definition ttsSingle (speechKey speechRegionRaw text voice locale : option string)
    (reply : post → tts_reply) : list post * single_response :=
  match truthy text, truthy voice, truthy locale with
  | Some text, Some voice, Some locale =>
      let speechRegion := speechRegion speechRegionRaw in
      match truthy speechKey, truthy (Some speechRegion) with
      | Some _, Some _ =>
          let p := Post (endpoint speechRegion) (ssmlSingle text voice locale) in
          ([p],
           match reply p with
           | TtsThrows message => TtsException message
           | TtsNotOk _ errorText => TtsFailed errorText
           | TtsOk audio => Mp3 audio
           end)
      | _, _ => ([], EmptyMp3)
      end
  | _, _, _ => ([], Required)
  end.

(** An entry of the answer of /api/tts: the item, with a (mock) empty data
    URL, the data URL of the audio, or no URL and an error. *)
Inductive entry :=
| MockEntry (it : item)
| AudioEntry (it : item) (audio : string)
| FailedEntry (it : item) (status : Z) (providerSnippet : string)
| ErrorEntry (it : item).

Definition entryItem (e : entry) : item :=
  match e with
  | MockEntry it | AudioEntry it _ | FailedEntry it _ _ | ErrorEntry it => it
  end.

Definition hasAudio (e : entry) : bool :=
  match e with
  | AudioEntry _ _ => true
  | _ => false
  end.

Inductive batch_response :=
| MissingItems
| Items (results : list entry).

Definition batchPost (speechRegion : string) (it : item) : post :=
  Post (endpoint speechRegion) (ssmlBatch it).

(** The body of [items.map(async (item) => ...)] for the item at position
    [i]: its own [try] and [catch]. *)
Definition batchEntry (speechRegion : string) (reply : nat → post → tts_reply)
    (i : nat) (it : item) : entry :=
  match reply i (batchPost speechRegion it) with
  | TtsThrows _ => ErrorEntry it
  | TtsNotOk status errorText => FailedEntry it status (Stt.substring 100 errorText)
  | TtsOk audio => AudioEntry it audio
  end.

(** The handler of /api/tts; [items] is [None] when the body carries no
    array.  The provider calls are issued in the order of the items, each
    by its own asynchronous function, and [Promise.all] collects the
    entries in that order. *)
Definition ttsBatch (speechKey speechRegionRaw : option string)
    (items : option (list item)) (reply : nat → post → tts_reply)
  : list post * batch_response :=
  match items with
  | None => ([], MissingItems)
  | Some items =>
      let speechRegion := speechRegion speechRegionRaw in
      match truthy speechKey, truthy (Some speechRegion) with
      | Some _, Some _ =>
          (batchPost speechRegion <$> items,
           Items (imap (batchEntry speechRegion reply) items))
      | _, _ => ([], Items (MockEntry <$> items))
      end
  end.

End Synthesis.

(** ** The stand-alone server (server.js): [escapeXml], [langToBcp47],
       [pickVoiceForLang] and its sequential /api/tts *)

Module Server.
Import JsString Ssml Synthesis.

(** The double quote. *)
Definition quot : ascii := Eval cbv in Ascii.ascii_of_nat 34.

Definition escapeXml (text : string) : string :=
  replaceAll "'" "&#39;"
    (replaceAll quot "&quot;"
       (replaceAll ">" "&gt;" (replaceAll "<" "&lt;" (replaceAll "&" "&amp;" text)))).

(** What [escapeXml] makes of one character. *)
Definition escapeChar (a : ascii) : string :=
  if decide (a = "&"%char) then "&amp;"
  else if decide (a = "<"%char) then "&lt;"
  else if decide (a = ">"%char) then "&gt;"
  else if decide (a = quot) then "&quot;"
  else if decide (a = "'"%char) then "&#39;"
  else String a "".

(** No character that ends character data or an attribute value. *)
Fixpoint markupFree (s : string) : bool :=
  match s with
  | EmptyString => true
  | String a s' =>
      negb (bool_decide (a = "<"%char ∨ a = ">"%char ∨ a = quot ∨ a = "'"%char))
      && markupFree s'
  end.

Definition bcp47 : list (string * string) :=
  [ ("fa", "fa-IR"); ("es", "es-ES"); ("ar", "ar-EG"); ("lv", "lv-LV");
    ("ru", "ru-RU"); ("fr", "fr-FR"); ("nl", "nl-NL"); ("pt", "pt-PT");
    ("tr", "tr-TR"); ("zh-Hans", "zh-CN"); ("da", "da-DK"); ("it", "it-IT") ].

(** [map[code] || 'en-US']. *)
Definition langToBcp47 (code : string) : string :=
  or_ (lookup code bcp47) "en-US".

Definition voices : list (string * string) :=
  [ ("fa", "fa-IR-DilaraNeural"); ("es", "es-ES-ElviraNeural");
    ("ar", "ar-EG-SalmaNeural"); ("lv", "lv-LV-EveritaNeural");
    ("ru", "ru-RU-DmitryNeural"); ("fr", "fr-FR-DeniseNeural");
    ("nl", "nl-NL-ColetteNeural"); ("pt", "pt-PT-FernandaNeural");
    ("tr", "tr-TR-AhmetNeural"); ("zh-Hans", "zh-CN-XiaoxiaoNeural");
    ("da", "da-DK-ChristelNeural"); ("it", "it-IT-ElsaNeural");
    ("en", "en-US-JennyNeural") ].

(** [voices[code] || 'en-US-JennyNeural']. *)
Definition pickVoiceForLang (code : string) : string :=
  or_ (lookup code voices) "en-US-JennyNeural".

(** The document posted for an item. *)
Definition ssml (it : item) : string :=
  "<speak version='1.0' xml:lang='" +:+ langToBcp47 (code it) +:+ "'><voice name='"
  +:+ pickVoiceForLang (code it) +:+ "'>" +:+ escapeXml (itemText it)
  +:+ "</voice></speak>".

(** [`https://${process.env.AZURE_SPEECH_REGION}.tts...`]: the variable as
    it is, the text undefined when it is not set. *)
Definition serverPost (region : option string) (it : item) : post :=
  Post (endpoint (default "undefined" region)) (ssml it).

(** What the server's /api/tts sends back: the status 400, the provider's
    status with the first 200 characters of its answer, the status 500, or
    the items with their audio. *)
Inductive response :=
| BadInput
| ProviderError (status : Z) (providerSnippet : string)
| Exception (detail : string)
| Out (items : list (item * string)).

(** [for (const it of items) { ... }]: one provider call after the other;
    the first reply that is not ok, or an exception, ends the request.
    [i] is the position of the next item, [out] the array filled so far,
    [calls] the provider calls made so far. *)
Fixpoint synthesize (region : option string) (reply : nat → post → tts_reply)
    (i : nat) (items : list item) (out : list (item * string)) (calls : list post)
  : list post * response :=
  match items with
  | [] => (calls, Out out)
  | it :: rest =>
      let p := serverPost region it in
      match reply i p with
      | TtsThrows detail => (calls ++ [p], Exception detail)
      | TtsNotOk status errText =>
          (calls ++ [p], ProviderError status (String.substring 0 200 errText))
      | TtsOk audio =>
          synthesize region reply (S i) rest (out ++ [(it, audio)]) (calls ++ [p])
      end
  end.

(** The handler; [items] is [None] when the body carries no array. *)
Definition tts (region : option string) (items : option (list item))
    (reply : nat → post → tts_reply) : list post * response :=
  match items with
  | None | Some [] => ([], BadInput)
  | Some items => synthesize region reply 0 items [] []
  end.

End Server.

(** ** The strict JSON helpers of api.ts: [getJsonStrict], [postJsonStrict] *)

From stdpp Require Import pretty.

Local Open Scope Z_scope.

Module Api.
Import JsString.

(** A thrown error: whether it is a [TypeError], and its message. *)
Record JsError := Thrown { isTypeError : bool; message : string }.

(** [new Error(message)]. *)
Definition Error (message : string) : JsError := Thrown false message.

(** How an awaited promise ends. *)
Inductive result (A : Type) :=
| Throws (e : JsError)
| Returns (a : A).
Arguments Throws {A} e.
Arguments Returns {A} a.

(** The values of [JSON.parse]. *)
#[local] Unset Elimination Schemes.
Inductive json :=
| JNull
| JBool (b : bool)
| JNumber (n : Q)
| JString (s : string)
| JArray (elements : list json)
| JObject (members : list (string * json)).
#[local] Set Elimination Schemes.

(** [value[k]] for a value that is not [null]; [None] is [undefined].
    Only an object has members (the later of two with one name counts);
    no prototype has a property error or message. *)
Definition member (k : string) (value : json) : option json :=
  match value with
  | JObject members => snd <$> last (filter (λ m, m.1 = k) members)
  | _ => None
  end.

(** Truthiness of [value[k]]. *)
Definition truthyValue (value : option json) : bool :=
  match value with
  | None | Some JNull => false
  | Some (JBool b) => b
  | Some (JNumber n) => negb (Qeq_bool n 0)
  | Some (JString s) => bool_decide (s ≠ "")
  | Some (JArray _) | Some (JObject _) => true
  end.

(** A response, as far as the helpers read it: [json()] and [text()] are
    given by how they end. *)
Record Response := {
  ok : bool;
  status : N;
  contentType : option string;
  jsonBody : result json;
  textBody : result string
}.

Section Strict.
(** [String(value)], the message of [new Error(value)] for a value that
    is no string. *)
Variable toText : json → string.

Definition messageOf (value : json) : string :=
  match value with
  | JString s => s
  | _ => toText value
  end.

(** [contentType && contentType.includes('application/json')]. *)
Definition applicationJson (contentType : option string) : bool :=
  match truthy contentType with
  | Some contentType => includes "application/json" contentType
  | None => false
  end.

(** The branch [if (!response.ok) { ... throw new Error(errorMessage) }]. *)
Definition failure (response : Response) : JsError :=
  let errorMessage := "HTTP " +:+ pretty (status response) in
  let fromText :=
    match textBody response with
    | Throws e => e
    | Returns text => Error (or_ (Some (String.substring 0 120 text)) errorMessage)
    end in
  if applicationJson (contentType response) then
    match jsonBody response with
    | Throws _ => fromText
    | Returns JNull => fromText
    | Returns errorData =>
        if truthyValue (member "error" errorData)
        then Error (messageOf (default JNull (member "error" errorData)))
        else if truthyValue (member "message" errorData)
        then Error (messageOf (default JNull (member "message" errorData)))
        else Error errorMessage
    end
  else
    match textBody response with
    | Throws e => e
    | Returns text =>
        Error ("Non-JSON response: " +:+ String.substring 0 120 text)
    end.

(** The [try] block, from the response on. *)
Definition strict (fetched : result Response) : result json :=
  match fetched with
  | Throws e => Throws e
  | Returns response =>
      if negb (ok response) then Throws (failure response)
      else if negb (applicationJson (contentType response)) then
        match textBody response with
        | Throws e => Throws e
        | Returns text =>
            Throws (Error ("Expected JSON response, got: "
                           +:+ String.substring 0 120 text))
        end
      else jsonBody response
  end.

(** The [catch] block. *)
Definition networkError (r : result json) : result json :=
  match r with
  | Throws e =>
      if isTypeError e && includes "fetch" (message e)
      then Throws (Error "Network error: Unable to connect to the server")
      else Throws e
  | Returns _ => r
  end.

(** [fetched] is how the [fetch] ends. *)
Definition getJsonStrict (fetched : result Response) : result json :=
  networkError (strict fetched).

(** [stringify] is the error [JSON.stringify(body)] throws, if it does:
    the request is not sent then. *)
Definition postJsonStrict (stringify : option JsError)
    (fetched : result Response) : result json :=
  networkError
    match stringify with
    | Some e => Throws e
    | None => strict fetched
    end.

End Strict.

End Api.

(** ** The translator page: [toggleLanguage] and [handleGenerateAll] *)

Module Translator.

Record SelectedLang := {
  code : string;
  ttsLocale : string;
  voice : string;
  uiLabel : string;
  englishName : string
}.

Definition maxLanguages : nat := 12.

(** The updater passed to [setSelected]. *)
Definition toggleLanguage (lang : SelectedLang) (prev : list SelectedLang)
  : list SelectedLang :=
  if existsb (λ p, bool_decide (code p = code lang)) prev
  then filter (λ p, code p ≠ code lang) prev
  else if decide (maxLanguages <= length prev)%nat then prev
  else prev ++ [lang].

(** An element of the answer of [translateMany]. *)
Record Translation := { to : string; text : string }.

(** An element of [generatedItems] (without the object URL made for the
    blob). *)
Record GeneratedItem := {
  lang : SelectedLang;
  translatedText : string;
  audioBlob : Dispatcher.Blob
}.

(** The request [tts(translation.text, lang.voice, lang.ttsLocale)]. *)
Definition ttsRequest (translation : Translation) (lang : SelectedLang)
  : Dispatcher.request :=
  Dispatcher.Request (text translation) (voice lang) (ttsLocale lang).

(** The request whose audio an item carries. *)
Definition itemRequest (it : GeneratedItem) : Dispatcher.request :=
  Dispatcher.Request (translatedText it) (voice (lang it)) (ttsLocale (lang it)).

(** [await tts(...)] when no other call is pending: the call, and then the
    events of its own provider call, if it makes one; [provider] tells how
    the provider call of a given rank ends.  The result is [None] when the
    call would have to wait for another one. *)
Definition awaitTts (provider : nat → Dispatcher.fetch_result * Dispatcher.body_result)
    (r : Dispatcher.request) (s : Dispatcher.state)
  : option (Dispatcher.outcome * Dispatcher.state) :=
  let id := Dispatcher.nextId s in
  let s := Dispatcher.tts r s in
  match Dispatcher.settled s !! id with
  | Some o => Some (o, s)
  | None =>
      s ← Dispatcher.fetchSettles id (provider id).1 s;
      s ← match (provider id).1 with
          | Dispatcher.FetchError _ => Some s
          | Dispatcher.FetchResponse _ =>
              Dispatcher.bodySettles id (provider id).2 s
          end;
      o ← Dispatcher.settled s !! id;
      Some (o, s)
  end.

(** The loop [for (const translation of translations) { ... }] of
    [handleGenerateAll], with the array and the counter it fills. *)
Fixpoint generate (provider : nat → Dispatcher.fetch_result * Dispatcher.body_result)
    (selected : list SelectedLang) (translations : list Translation)
    (s : Dispatcher.state) (generatedItems : list GeneratedItem) (done : nat)
  : option (Dispatcher.state * list GeneratedItem * nat) :=
  match translations with
  | [] => Some (s, generatedItems, done)
  | translation :: rest =>
      match find (λ l, bool_decide (code l = to translation)) selected with
      | Some lang =>
          '(o, s) ← awaitTts provider (ttsRequest translation lang) s;
          match o with
          | Dispatcher.Resolved audioBlob =>
              generate provider selected rest s
                (generatedItems ++ [Build_GeneratedItem lang (text translation) audioBlob])
                (S done)
          | Dispatcher.Rejected _ =>
              generate provider selected rest s generatedItems (S done)
          end
      | None => generate provider selected rest s generatedItems done
      end
  end.

End Translator.

(** ** The audio player: [formatTime] *)

Module AudioPlayer.
Import Js Double.

(** [x % y] on numbers: the remainder has the sign of [x]. *)
Definition remainder (x y : Q) : Q := (x - y * inject_Z (trunc (x / y)))%Q.

(** [s.padStart(2, '0')]. *)
Definition padStart2 (s : string) : string :=
  match String.length s with
  | 0%nat => "00"
  | 1%nat => "0" +:+ s
  | _ => s
  end.

(** [formatTime] on a finite number of seconds: the quotient is the one
    of double precision, the remainder is exact ([%] does not round); the
    two integers are printed in decimal, as [toString] prints an integer
    below 2^53. *)
Definition formatTime (seconds : Q) : string :=
  let mins := Qfloor (div64 seconds 60) in
  let secs := Qfloor (remainder seconds 60) in
  pretty mins +:+ ":" +:+ padStart2 (pretty secs).

(** The times the player shows: the doubles from 0 up to 2^53. *)
Definition shownTime (seconds : Q) : Prop :=
  isDouble seconds ∧ (0 <= seconds)%Q ∧ (seconds < 9007199254740992)%Q.

End AudioPlayer.

(** * Properties *)

(** ** Encoder: arithmetic *)

Section EncoderArith.
Import Js Encoder.

Lemma Math_round_le (x : Q) : (inject_Z (Math_round x) <= x + (1 # 2))%Q.
Proof. apply Qfloor_le. Qed.

Lemma Math_round_gt (x : Q) : (x - (1 # 2) < inject_Z (Math_round x))%Q.
Proof.
  unfold Math_round.
  pose proof (Qlt_floor (x + (1 # 2))) as H.
  rewrite inject_Z_plus in H.
  apply Qplus_lt_l with (z := 1%Q).
  eapply Qle_lt_trans; [|exact H].
  ring_simplify. apply Qle_refl.
Qed.

Lemma Math_round_nonneg (x : Q) : (0 <= x)%Q → 0 <= Math_round x.
Proof.
  intros Hx. unfold Math_round.
  change 0 with (Qfloor 0). apply Qfloor_resp_le.
  apply Qle_trans with x; [done|].
  rewrite <- (Qplus_0_r x) at 1. apply Qplus_le_r. done.
Qed.

Lemma ratio_pos (b : AudioBuffer) : (0 < sampleRate b)%Q → (0 < ratio b)%Q.
Proof.
  intros H. unfold ratio, Qdiv.
  apply Qmult_lt_0_compat; [done|]. apply Qinv_lt_0_compat. done.
Qed.

Lemma newLength_nonneg (b : AudioBuffer) :
  (0 < sampleRate b)%Q → 0 <= newLength b.
Proof.
  intros H. apply Math_round_nonneg.
  unfold Qdiv. apply Qmult_le_0_compat.
  - change 0%Q with (inject_Z 0). rewrite <- Zle_Qle. unfold buffer_length. lia.
  - apply Qlt_le_weak, Qinv_lt_0_compat, ratio_pos, H.
Qed.

End EncoderArith.

(** ** Double precision: the error of one rounding *)

Section DoubleFacts.
Import Double.

Lemma pow2_pos (e : Z) : (0 < pow2 e)%Q.
Proof. apply Qpower_0_lt. reflexivity. Qed.

Lemma pow2_plus (a b : Z) : (pow2 (a + b) == pow2 a * pow2 b)%Q.
Proof. apply Qpower_plus. discriminate. Qed.

Lemma pow2_nonneg (n : Z) : 0 <= n → (pow2 n == inject_Z (2 ^ n))%Q.
Proof. intros Hn. unfold pow2. by rewrite Zpower_Qpower. Qed.

(** The binary exponent is not above the number. *)
Lemma exponent_le (x : Q) : ¬ (x == 0)%Q → (pow2 (exponent x) <= Qabs x)%Q.
Proof.
  intros Hx. unfold exponent.
  set (p := Z.abs (Qnum x)). set (q := Z.pos (Qden x)).
  destruct (Qle_bool _ _) eqn:E; [by apply Qle_bool_iff|].
  assert (Hp : 0 < p).
  { subst p. destruct x as [[|n|n] d]; cbn; [|lia..]. by destruct Hx. }
  assert (Hq : 0 < q) by (subst q; lia).
  pose proof (Z.log2_spec p Hp) as [Hp1 _].
  pose proof (Z.log2_spec q Hq) as [_ Hq2].
  pose proof (Z.log2_nonneg p) as Hlp. pose proof (Z.log2_nonneg q) as Hlq.
  assert (Habs : (Qabs x == inject_Z p / inject_Z q)%Q).
  { subst p q. destruct x as [n d].
    unfold Qabs, Qeq, Qdiv, Qmult, Qinv, inject_Z. cbn. lia. }
  rewrite Habs.
  assert (Hpow : (pow2 (Z.log2 p - Z.log2 q - 1)
                  * inject_Z (2 ^ Z.succ (Z.log2 q))
                  == inject_Z (2 ^ Z.log2 p))%Q).
  { rewrite <- !pow2_nonneg by lia. rewrite <- pow2_plus. f_equiv. lia. }
  assert (Hq0 : (0 < inject_Z q)%Q) by (by rewrite <- (Zlt_Qlt 0)).
  apply Qle_shift_div_l; [done|].
  apply Qle_trans with (inject_Z (2 ^ Z.log2 p)); [|by rewrite <- Zle_Qle].
  rewrite <- Hpow. apply Qmult_le_l; [apply pow2_pos|].
  rewrite <- Zle_Qle. lia.
Qed.

Lemma nearestEven_error (y : Q) :
  (y - (1 # 2) <= inject_Z (nearestEven y) <= y + (1 # 2))%Q.
Proof.
  unfold nearestEven.
  pose proof (Qfloor_le y) as H1. pose proof (Qlt_floor y) as H2.
  rewrite inject_Z_plus in H2. change (inject_Z 1) with 1%Q in H2.
  destruct (Qcompare_spec (y - inject_Z (Qfloor y)) (1 # 2)) as [E|E|E].
  - destruct (Z.even _); [lra|].
    rewrite inject_Z_plus. change (inject_Z 1) with 1%Q. lra.
  - lra.
  - rewrite inject_Z_plus. change (inject_Z 1) with 1%Q. lra.
Qed.

(** Rounding to a double changes a number by at most 2^-53 of it. *)
Lemma round64_error (x : Q) :
  (Qabs (round64 x - x) <= Qabs x * (1 # 9007199254740992))%Q.
Proof.
  unfold round64. destruct (Qeq_bool x 0) eqn:E.
  - apply Qeq_bool_eq in E. rewrite E. done.
  - apply Qeq_bool_neq in E. cbn zeta.
    set (u := pow2 (exponent x - 52)).
    pose proof (pow2_pos (exponent x - 52)) as Hu. fold u in Hu.
    pose proof (nearestEven_error (x / u)) as [Hlo Hhi].
    pose proof (exponent_le x E) as Hex.
    assert (Hpow : (pow2 (exponent x) == u * 4503599627370496)%Q).
    { unfold u. replace (exponent x) with ((exponent x - 52) + 52) at 1 by lia.
      rewrite pow2_plus. apply Qmult_comp; [reflexivity|].
      vm_compute. reflexivity. }
    rewrite Hpow in Hex.
    assert (Hxu : (x == (x / u) * u)%Q) by (field; lra).
    set (y := (x / u)%Q) in *.
    set (n := inject_Z (nearestEven y)) in *.
    assert (Hd : (Qabs (n * u - x) <= u * (1 # 2))%Q).
    { apply Qabs_Qle_condition. rewrite Hxu at 1 2. split; nra. }
    eapply Qle_trans; [exact Hd|]. lra.
Qed.

Lemma round64_bounds (x : Q) :
  (0 <= x)%Q →
  (x * (1 - (1 # 9007199254740992)) <= round64 x
   <= x * (1 + (1 # 9007199254740992)))%Q.
Proof.
  intros Hx. pose proof (round64_error x) as H.
  rewrite (Qabs_pos x Hx) in H. apply Qabs_Qle_condition in H. lra.
Qed.

Lemma round64_nonneg (x : Q) : (0 <= x)%Q → (0 <= round64 x)%Q.
Proof. intros Hx. pose proof (round64_bounds x Hx). nra. Qed.

Lemma round64_pos (x : Q) : (0 < x)%Q → (0 < round64 x)%Q.
Proof. intros Hx. pose proof (round64_bounds x (Qlt_le_weak _ _ Hx)). nra. Qed.

(** The quotient of the resampler, computed with two roundings, is within
    2^-51 of the exact one. *)
Lemma resample_error (L R : Q) :
  (0 <= L)%Q → (0 < R)%Q →
  ((L * 16000 / R) * (1 - (1 # 2251799813685248))
    <= div64 L (div64 R 16000)
    <= (L * 16000 / R) * (1 + (1 # 2251799813685248)))%Q.
Proof.
  intros HL HR. unfold div64.
  set (u := (1 # 9007199254740992)%Q).
  assert (Hr : (0 < R / 16000)%Q).
  { apply Qlt_shift_div_l; [reflexivity|]. lra. }
  pose proof (round64_bounds (R / 16000) (Qlt_le_weak _ _ Hr)) as [Hr1 Hr2].
  fold u in Hr1, Hr2.
  set (r := (R / 16000)%Q) in *. set (rd := round64 r) in *.
  assert (Hrd : (0 < rd)%Q) by (unfold u in *; nra).
  assert (Ha : (0 <= L / rd)%Q).
  { apply Qle_shift_div_l; [done|]. lra. }
  pose proof (round64_bounds (L / rd) Ha) as [Hq1 Hq2]. fold u in Hq1, Hq2.
  set (a := (L / rd)%Q) in *. set (q := round64 a) in *.
  assert (Hard : (a * rd == L)%Q) by (unfold a; field; lra).
  assert (HE : ((L * 16000 / R) * r == L)%Q) by (unfold r; field; lra).
  set (E := (L * 16000 / R)%Q) in *.
  assert (HE0 : (0 <= E)%Q).
  { unfold E. apply Qle_shift_div_l; [done|]. lra. }
  assert (H1 : (a * (1 - u) * r <= E * r)%Q).
  { rewrite HE, <- Hard. unfold u in *. nra. }
  assert (H2 : (E * r <= a * (1 + u) * r)%Q).
  { rewrite HE, <- Hard. unfold u in *. nra. }
  assert (H1' : (a * (1 - u) <= E)%Q).
  { apply (Qmult_le_r _ _ r); done. }
  assert (H2' : (E <= a * (1 + u))%Q).
  { apply (Qmult_le_r _ _ r); done. }
  unfold u in *. split.
  - apply (Qmult_le_r _ _ (1 + (1 # 9007199254740992))); [reflexivity|].
    nra.
  - apply (Qmult_le_r _ _ (1 - (1 # 9007199254740992))); [reflexivity|].
    nra.
Qed.

Lemma pow2_le_mono (a b : Z) : a <= b → (pow2 a <= pow2 b)%Q.
Proof.
  intros H. replace b with (a + (b - a)) by lia. rewrite pow2_plus.
  rewrite (pow2_nonneg (b - a)) by lia.
  assert (0 < 2 ^ (b - a)) by (apply Z.pow_pos_nonneg; lia).
  assert (H1 : (1 <= inject_Z (2 ^ (b - a)))%Q) by (rewrite <- (Zle_Qle 1); lia).
  pose proof (pow2_pos a). nra.
Qed.

Lemma pow2_lt_inv (a b : Z) : (pow2 a < pow2 b)%Q → a < b.
Proof.
  intros H. destruct (decide (a < b)) as [|Hn]; [done|].
  pose proof (pow2_le_mono b a ltac:(lia)). lra.
Qed.

(** The binary exponent: the number is below the next power of two. *)
Lemma exponent_lt (x : Q) : ¬ (x == 0)%Q → (Qabs x < pow2 (exponent x + 1))%Q.
Proof.
  intros Hx. unfold exponent.
  set (p := Z.abs (Qnum x)). set (q := Z.pos (Qden x)).
  assert (Hp : 0 < p).
  { subst p. destruct x as [[|n|n] d]; cbn; [|lia..]. by destruct Hx. }
  assert (Hq : 0 < q) by (subst q; lia).
  destruct (Qle_bool _ _) eqn:E.
  - pose proof (Z.log2_spec p Hp) as [_ Hp2].
    pose proof (Z.log2_spec q Hq) as [Hq1 _].
    pose proof (Z.log2_nonneg p) as Hlp. pose proof (Z.log2_nonneg q) as Hlq.
    assert (Habs : (Qabs x == inject_Z p / inject_Z q)%Q).
    { subst p q. destruct x as [n d].
      unfold Qabs, Qeq, Qdiv, Qmult, Qinv, inject_Z. cbn. lia. }
    rewrite Habs.
    assert (Hpow : (pow2 (Z.log2 p - Z.log2 q + 1) * inject_Z (2 ^ Z.log2 q)
                    == inject_Z (2 ^ Z.succ (Z.log2 p)))%Q).
    { rewrite <- !pow2_nonneg by lia. rewrite <- pow2_plus. f_equiv. lia. }
    assert (Hq0 : (0 < inject_Z q)%Q) by (by rewrite <- (Zlt_Qlt 0)).
    apply Qlt_shift_div_r; [done|].
    apply Qlt_le_trans with (inject_Z (2 ^ Z.succ (Z.log2 p)));
      [by rewrite <- Zlt_Qlt|].
    rewrite <- Hpow. apply Qmult_le_l; [apply pow2_pos|].
    by rewrite <- Zle_Qle.
  - replace (Z.log2 p - Z.log2 q - 1 + 1) with (Z.log2 p - Z.log2 q) by lia.
    apply Qnot_le_lt. intros Hle. apply Qle_bool_iff in Hle. congruence.
Qed.

Lemma round64_nonzero (x : Q) :
  ¬ (x == 0)%Q →
  round64 x
  = (inject_Z (nearestEven (x / pow2 (exponent x - 52)))
     * pow2 (exponent x - 52))%Q.
Proof.
  intros Hx. unfold round64. destruct (Qeq_bool x 0) eqn:E; [|done].
  by apply Qeq_bool_eq in E.
Qed.

Lemma Qfloor_unique (x : Q) (z : Z) :
  (inject_Z z <= x)%Q → (x < inject_Z (z + 1))%Q → Qfloor x = z.
Proof.
  intros Hlo Hhi.
  pose proof (Qfloor_le x) as H1. pose proof (Qlt_floor x) as H2.
  assert (z < Qfloor x + 1).
  { rewrite Zlt_Qlt. eapply Qle_lt_trans; [exact Hlo|exact H2]. }
  assert (Qfloor x < z + 1).
  { rewrite Zlt_Qlt. eapply Qle_lt_trans; [exact H1|exact Hhi]. }
  lia.
Qed.

Lemma nearestEven_floor (y : Q) : Qfloor y <= nearestEven y.
Proof.
  unfold nearestEven. destruct (_ ?= _)%Q; [destruct (Z.even _)|..]; lia.
Qed.

(** The whole minutes: dividing a double below 2^53 by 60 in double
    precision and rounding down gives the exact number of whole
    minutes. *)
Lemma floor_div64_60 (s : Q) :
  isDouble s → (0 <= s)%Q → (s < 9007199254740992)%Q →
  Qfloor (div64 s 60) = Qfloor (s / 60).
Proof.
  intros Hd H0 Hlt. unfold div64.
  destruct (Qeq_dec s 0) as [Hz|Hnz].
  { assert (Hq : (s / 60 == 0)%Q) by (rewrite Hz; reflexivity).
    unfold round64. rewrite (proj2 (Qeq_bool_iff _ _) Hq). by rewrite Hq. }
  assert (Hs : (0 < s)%Q) by (destruct (Qlt_le_dec 0 s); [done|]; exfalso; apply Hnz; lra).
  set (q := (s / 60)%Q).
  assert (Hq : (0 < q)%Q) by (apply Qlt_shift_div_l; [reflexivity|lra]).
  assert (Hqs : (s == 60 * q)%Q) by (unfold q; field).
  assert (Hqnz : ¬ (q == 0)%Q) by lra.
  set (m := Qfloor q).
  pose proof (Qfloor_le q) as Hm1. pose proof (Qlt_floor q) as Hm2.
  fold m in Hm1, Hm2. rewrite inject_Z_plus in Hm2.
  change (inject_Z 1) with 1%Q in Hm2.
  (* the two exponents *)
  pose proof (exponent_le q Hqnz) as Heq1. pose proof (exponent_lt q Hqnz) as Heq2.
  pose proof (exponent_le s Hnz) as Hes1. pose proof (exponent_lt s Hnz) as Hes2.
  rewrite (Qabs_pos q) in Heq1, Heq2 by lra.
  rewrite (Qabs_pos s) in Hes1, Hes2 by lra.
  set (e := exponent q) in *. set (es := exponent s) in *.
  assert (He52 : e <= 52).
  { assert (pow2 e < pow2 53)%Q; [|apply pow2_lt_inv in H; lia].
    change (pow2 53) with (2 ^ 53)%Q.
    assert ((2 ^ 53)%Q == 9007199254740992)%Q by (by vm_compute). lra. }
  assert (Hes52 : es <= 52).
  { assert (pow2 es < pow2 53)%Q; [|apply pow2_lt_inv in H; lia].
    assert (pow2 53 == 9007199254740992)%Q by (by vm_compute). lra. }
  assert (Hees : e + 5 <= es).
  { assert (pow2 (e + 5) < pow2 (es + 1))%Q; [|apply pow2_lt_inv in H; lia].
    rewrite pow2_plus. assert (pow2 5 == 32)%Q as -> by (by vm_compute). lra. }
  (* s on its grid *)
  assert (Hgrid : ∃ n : Z, (s == inject_Z n * pow2 (es - 52))%Q).
  { unfold isDouble in Hd. rewrite (round64_nonzero s Hnz) in Hd.
    eexists. symmetry. exact Hd. }
  destruct Hgrid as [n Hn].
  (* the rounding of q *)
  rewrite (round64_nonzero q Hqnz).
  fold e. set (u := pow2 (e - 52)).
  pose proof (pow2_pos (e - 52)) as Hu. fold u in Hu.
  assert (Hinv : (u * inject_Z (2 ^ (52 - e)) == 1)%Q).
  { rewrite <- pow2_nonneg by lia. unfold u. rewrite <- pow2_plus.
    replace (e - 52 + (52 - e)) with 0 by lia. reflexivity. }
  set (P := 2 ^ (52 - e)) in *.
  assert (HP : 0 < P) by (apply Z.pow_pos_nonneg; lia).
  assert (Hy : (q / u == q * inject_Z P)%Q).
  { apply Qmult_inj_r with u; [lra|]. 
    transitivity q; [field; lra|]. 
    rewrite <- Qmult_assoc, (Qmult_comm (inject_Z P)), Hinv. ring. }
  set (y := (q / u)%Q) in *.
  set (r := nearestEven y).
  (* below: at least m *)
  assert (Hlow : m * P <= r).
  { etrans; [|apply nearestEven_floor].
    assert (Hle : (inject_Z (m * P) <= y)%Q).
    { rewrite Hy, inject_Z_mult. apply Qmult_le_compat_r; [done|].
      by rewrite <- (Zle_Qle 0); lia. }
    apply Qfloor_resp_le in Hle. by rewrite Qfloor_Z in Hle. }
  (* above: below m + 1 *)
  assert (Hgap : (32 * u <= 60 * (inject_Z m + 1) - s)%Q).
  { set (Ps := 2 ^ (52 - es)).
    assert (HPs : 0 < Ps) by (apply Z.pow_pos_nonneg; lia).
    assert (Hinvs : (pow2 (es - 52) * inject_Z Ps == 1)%Q).
    { unfold Ps. rewrite <- pow2_nonneg by lia. rewrite <- pow2_plus.
      replace (es - 52 + (52 - es)) with 0 by lia. reflexivity. }
    pose proof (pow2_pos (es - 52)) as Hus.
    set (us := pow2 (es - 52)) in *.
    assert (HK : (60 * (inject_Z m + 1) - s
                  == inject_Z (60 * (m + 1) * Ps - n) * us)%Q).
    { unfold Zminus. rewrite inject_Z_plus, inject_Z_opp, !inject_Z_mult, inject_Z_plus.
      change (inject_Z 60) with 60%Q. change (inject_Z 1) with 1%Q.
      rewrite Hn.
      transitivity (60 * (inject_Z m + 1) * (us * inject_Z Ps) - inject_Z n * us)%Q;
        [rewrite Hinvs; ring|ring]. }
    assert (HKpos : 0 < 60 * (m + 1) * Ps - n).
    { rewrite Zlt_Qlt. change (inject_Z 0) with 0%Q.
      apply (Qmult_lt_r _ _ us); [done|]. rewrite <- HK. lra. }
    assert (HK1 : (1 <= inject_Z (60 * (m + 1) * Ps - n))%Q).
    { rewrite <- (Zle_Qle 1). lia. }
    assert (Hus32 : (32 * u <= us)%Q).
    { unfold us, u. replace (es - 52) with ((e - 52) + 5 + (es - e - 5)) by lia.
      rewrite !pow2_plus. 
      assert (pow2 5 == 32)%Q as -> by (by vm_compute).
      pose proof (pow2_le_mono 0 (es - e - 5) ltac:(lia)) as H1.
      change (pow2 0) with 1%Q in H1.
      pose proof (pow2_pos (e - 52)). nra. }
    rewrite HK. nra. }
  assert (Hhigh : r <= (m + 1) * P - 1).
  { assert (r < (m + 1) * P); [|lia].
    rewrite Zlt_Qlt. pose proof (nearestEven_error y) as [_ Hr]. fold r in Hr.
    eapply Qle_lt_trans; [exact Hr|].
    rewrite Hy, inject_Z_mult, inject_Z_plus. change (inject_Z 1) with 1%Q.
    assert (HPq : (0 < inject_Z P)%Q) by (by rewrite <- (Zlt_Qlt 0)).
    assert (Hg : (32 * u * inject_Z P <= (60 * (inject_Z m + 1) - s) * inject_Z P)%Q)
      by (apply Qmult_le_compat_r; lra).
    assert (H32 : (32 * u * inject_Z P == 32)%Q) by (rewrite <- Qmult_assoc, Hinv; ring).
    rewrite H32, Hqs in Hg. lra. }
  (* conclusion *)
  assert (HPq : (0 < inject_Z P)%Q) by (by rewrite <- (Zlt_Qlt 0)).
  assert (Hone : ∀ k : Z, (inject_Z k == inject_Z (k * P) * u)%Q).
  { intros k. rewrite inject_Z_mult, <- Qmult_assoc, (Qmult_comm (inject_Z P)), Hinv.
    ring. }
  apply Qfloor_unique.
  - rewrite (Hone m). apply Qmult_le_compat_r; [|lra]. by rewrite <- Zle_Qle.
  - rewrite (Hone (m + 1)). apply Qmult_lt_compat_r; [done|].
    rewrite <- Zlt_Qlt. lia.
Qed.

End DoubleFacts.

(** ** DataView: writes inside the buffer succeed and are local *)

Section DataViewFacts.
Import Js DataView.

Lemma alloc_Some (n : Z) :
  0 <= n → ∃ view, alloc n = Some view ∧ byteLength view = n.
Proof.
  intros H. unfold alloc. rewrite decide_True by done.
  eexists; split; [done|]. unfold byteLength. rewrite length_replicate. lia.
Qed.

Lemma setUint8_Some (off v : Z) (view : t) :
  0 <= off → off + 1 <= byteLength view →
  setUint8 off v view = Some (<[Z.to_nat off := v `mod` 256]> view).
Proof. intros. unfold setUint8. by rewrite decide_True. Qed.

Lemma setUint16_Some (off v : Z) (view : t) :
  0 <= off → off + 2 <= byteLength view →
  setUint16 off v view
  = Some (<[Z.to_nat (off + 1) := (v / 256) `mod` 256]>
          (<[Z.to_nat off := v `mod` 256]> view)).
Proof. intros. unfold setUint16. by rewrite decide_True. Qed.

Lemma setUint32_Some (off v : Z) (view : t) :
  0 <= off → off + 4 <= byteLength view →
  setUint32 off v view
  = Some (<[Z.to_nat (off + 3) := (v / 16777216) `mod` 256]>
          (<[Z.to_nat (off + 2) := (v / 65536) `mod` 256]>
          (<[Z.to_nat (off + 1) := (v / 256) `mod` 256]>
          (<[Z.to_nat off := v `mod` 256]> view)))).
Proof. intros. unfold setUint32. by rewrite decide_True. Qed.

Lemma byteLength_insert (view : t) (i : nat) (v : Z) :
  byteLength (<[i := v]> view) = byteLength view.
Proof. unfold byteLength. by rewrite length_insert. Qed.

Lemma byte_at_insert_ne (view : t) (i : nat) (v off : Z) :
  i ≠ Z.to_nat off → byte_at (<[i := v]> view) off = byte_at view off.
Proof. intros. unfold byte_at. by rewrite list_lookup_insert_ne. Qed.

Lemma byte_at_insert_eq (view : t) (i : nat) (v off : Z) :
  i = Z.to_nat off → 0 <= off → off + 1 <= byteLength view →
  byte_at (<[i := v]> view) off = v.
Proof.
  intros -> H0 H. unfold byte_at, byteLength in *.
  rewrite list_lookup_insert_eq; [done|lia].
Qed.

(** The four little-endian bytes of a value recompose to it modulo 2^32,
    the two bytes modulo 2^16. *)
Lemma le32_value (v : Z) :
  v `mod` 256 + 256 * ((v / 256) `mod` 256)
  + 65536 * ((v / 65536) `mod` 256) + 16777216 * ((v / 16777216) `mod` 256)
  = v `mod` 4294967296.
Proof.
  replace (v / 65536) with (v / 256 / 256)
    by (rewrite Z.div_div by lia; done).
  replace (v / 16777216) with (v / 256 / 256 / 256)
    by (rewrite !Z.div_div by lia; done).
  apply Z.mod_unique_pos with (q := v / 256 / 256 / 256 / 256).
  - pose proof (Z.mod_pos_bound v 256).
    pose proof (Z.mod_pos_bound (v / 256) 256).
    pose proof (Z.mod_pos_bound (v / 256 / 256) 256).
    pose proof (Z.mod_pos_bound (v / 256 / 256 / 256) 256). lia.
  - pose proof (Z.div_mod v 256).
    pose proof (Z.div_mod (v / 256) 256).
    pose proof (Z.div_mod (v / 256 / 256) 256).
    pose proof (Z.div_mod (v / 256 / 256 / 256) 256). lia.
Qed.

Lemma le16_value (v : Z) :
  v `mod` 256 + 256 * ((v / 256) `mod` 256) = v `mod` 65536.
Proof.
  apply Z.mod_unique_pos with (q := v / 256 / 256).
  - pose proof (Z.mod_pos_bound v 256).
    pose proof (Z.mod_pos_bound (v / 256) 256). lia.
  - pose proof (Z.div_mod v 256).
    pose proof (Z.div_mod (v / 256) 256). lia.
Qed.

End DataViewFacts.

(** ** Encoder: the header and the sample loop *)

Section EncoderFacts.
Import Js DataView Encoder.

Local Ltac in_bounds :=
  rewrite ?byteLength_insert; lia.

Local Ltac write_step :=
  first [ rewrite setUint8_Some by in_bounds
        | rewrite setUint16_Some by in_bounds
        | rewrite setUint32_Some by in_bounds ];
  cbn [mbind option_bind].

Local Ltac read_byte :=
  repeat (rewrite byte_at_insert_ne by lia);
  rewrite byte_at_insert_eq by (first [lia | in_bounds]).

(** The header is written in full whenever the buffer has room for it,
    and declares the canonical rate, mono, 16 bits and [newLength * 2]
    data bytes. *)
Lemma writeHeader_Some (n : Z) (view : DataView.t) :
  44 <= byteLength view →
  ∃ view', writeHeader n view = Some view'
    ∧ byteLength view' = byteLength view
    ∧ declaredSampleRate view' = 16000
    ∧ declaredChannels view' = 1
    ∧ declaredBitsPerSample view' = 16
    ∧ declaredDataLength view' = (n * 2) `mod` 4294967296.
Proof.
  intros Hlen. unfold writeHeader. cbn [writeString].
  repeat write_step.
  eexists. split; [reflexivity|].
  split; [in_bounds|].
  unfold declaredSampleRate, declaredChannels, declaredBitsPerSample,
    declaredDataLength, getUint32, getUint16.
  repeat split.
  - do 4 read_byte. reflexivity.
  - do 2 read_byte. reflexivity.
  - do 2 read_byte. reflexivity.
  - do 4 read_byte. apply le32_value.
Qed.

(** The sample loop stays inside the buffer when it has room for [n]
    samples after [offset], advances [offset] by two bytes per sample and
    leaves the header alone. *)
Lemma writeSamples_Some (b : AudioBuffer) (n : nat) :
  ∀ (i offset : Z) (view : DataView.t),
    44 <= offset → offset + 2 * Z.of_nat n <= byteLength view →
    ∃ view', writeSamples b n i offset view = Some (view', offset + 2 * Z.of_nat n)
      ∧ byteLength view' = byteLength view
      ∧ ∀ k, 0 <= k < 44 → byte_at view' k = byte_at view k.
Proof.
  induction n as [|n IH]; intros i offset view Hoff Hlen.
  - exists view. cbn [writeSamples]. split; [f_equal; f_equal; lia|done].
  - cbn [writeSamples]. unfold setInt16.
    rewrite setUint16_Some by lia. cbn [mbind option_bind].
    edestruct (IH (i + 1) (offset + 2)) as (view' & Hw & Hl & Hk);
      [lia| |rewrite Hw].
    + rewrite !byteLength_insert. lia.
    + exists view'. split; [f_equal; f_equal; lia|].
      split; [by rewrite Hl, !byteLength_insert|].
      intros k Hk44. rewrite Hk by done.
      rewrite !byte_at_insert_ne by lia. done.
Qed.

Lemma scanForward_Some (b : AudioBuffer) (n : nat) :
  ∀ i j, scanForward b i n = Some j →
         i <= j < i + Z.of_nat n ∧ loud b j = true.
Proof.
  induction n as [|n IH]; intros i j; cbn [scanForward]; [done|].
  destruct (loud b i) eqn:Hl.
  - intros [= <-]. split; [lia|done].
  - intros H. apply IH in H. split; [lia|tauto].
Qed.

Lemma scanBackward_Some (b : AudioBuffer) (n : nat) :
  ∀ i j, scanBackward b i n = Some j →
         i - Z.of_nat n < j <= i ∧ loud b j = true.
Proof.
  induction n as [|n IH]; intros i j; cbn [scanBackward]; [done|].
  destruct (loud b i) eqn:Hl.
  - intros [= <-]. split; [lia|done].
  - intros H. apply IH in H. split; [lia|tauto].
Qed.

Lemma trimStart_bounds (b : AudioBuffer) : 0 <= trimStart b.
Proof.
  unfold trimStart.
  destruct (scanForward b 0 _) as [j|] eqn:E; cbn [default from_option id]; [|done].
  apply scanForward_Some in E. lia.
Qed.

Lemma trimEnd_bounds (b : AudioBuffer) : trimEnd b <= newLength b - 1.
Proof.
  unfold trimEnd.
  destruct (scanBackward b _ _) as [j|] eqn:E; cbn [default from_option id]; [|done].
  apply scanBackward_Some in E. lia.
Qed.

Lemma retained_bounds (b : AudioBuffer) :
  0 <= newLength b → 0 <= retained b <= newLength b.
Proof.
  intros H. unfold retained.
  pose proof (trimStart_bounds b). pose proof (trimEnd_bounds b). lia.
Qed.

(** On a decoded buffer (positive native rate) the encoder returns: it
    yields [44 + newLength * 2] bytes whose header declares 16 kHz, mono,
    16 bits and [newLength * 2] data bytes, after having written
    [retained] samples. *)
Lemma encode_Some (b : AudioBuffer) :
  (0 < sampleRate b)%Q →
  ∃ wav, encode b = Some (wav, 44 + 2 * retained b)
    ∧ byteLength wav = 44 + newLength b * 2
    ∧ declaredSampleRate wav = 16000
    ∧ declaredChannels wav = 1
    ∧ declaredBitsPerSample wav = 16
    ∧ declaredDataLength wav = (newLength b * 2) `mod` 4294967296.
Proof.
  intros Hr. pose proof (newLength_nonneg b Hr) as Hn.
  pose proof (retained_bounds b Hn) as Hret.
  unfold encode.
  destruct (alloc_Some (44 + newLength b * 2)) as (v0 & -> & Hl0); [lia|].
  cbn [mbind option_bind].
  destruct (writeHeader_Some (newLength b) v0) as (v1 & -> & Hl1 & Hf); [lia|].
  cbn [mbind option_bind].
  destruct (writeSamples_Some b (Z.to_nat (retained b)) (trimStart b) 44 v1)
    as (wav & Hw & Hl2 & Hk); [lia|lia|].
  exists wav. rewrite Hw. split; [f_equal; f_equal; lia|].
  split; [lia|].
  unfold declaredSampleRate, declaredChannels, declaredBitsPerSample,
    declaredDataLength, getUint32, getUint16 in *.
  rewrite !Hk by lia. exact Hf.
Qed.

End EncoderFacts.

(** ** The layout of the header and of one sample *)

Section WavLayout.
Import Js DataView Encoder Wav.

Local Ltac fits :=
  rewrite ?byteLength_insert; lia.

Local Ltac write_next :=
  first [ rewrite setUint8_Some by fits
        | rewrite setUint16_Some by fits
        | rewrite setUint32_Some by fits ];
  cbn [mbind option_bind].

(** [writeHeader] overwrites the first 44 bytes with [headerBytes] and
    nothing else. *)
Lemma writeHeader_layout (n : Z) (view : DataView.t) :
  44 <= byteLength view →
  writeHeader n view = Some (headerBytes n ++ drop 44 view).
Proof.
  intros Hlen. unfold writeHeader. cbn [writeString].
  repeat write_next. f_equal.
  unfold byteLength in Hlen.
  do 44 (destruct view as [|? view]; [cbn [length] in Hlen; lia|]).
  reflexivity.
Qed.

Lemma alloc_zeros (n : Z) :
  0 <= n → alloc n = Some (replicate (Z.to_nat n) 0).
Proof. intros H. unfold alloc. by rewrite decide_True. Qed.

Lemma setInt16_app (pre rest : list Z) (x : Q) (a0 a1 : Z) :
  setInt16 (Z.of_nat (length pre)) x (pre ++ a0 :: a1 :: rest)
  = Some (pre ++ le16 (trunc x) ++ rest).
Proof.
  unfold setInt16. rewrite setUint16_Some.
  - f_equal.
    replace (Z.to_nat (Z.of_nat (length pre))) with (length pre + 0)%nat by lia.
    replace (Z.to_nat (Z.of_nat (length pre) + 1)) with (length pre + 1)%nat by lia.
    rewrite insert_app_r. cbn [insert list_insert].
    rewrite insert_app_r. reflexivity.
  - lia.
  - unfold byteLength. rewrite length_app. cbn [length]. lia.
Qed.

Lemma length_headerBytes (n : Z) : length (headerBytes n) = 44%nat.
Proof. reflexivity. Qed.

(** The header declares the canonical rate, whatever follows it. *)
Lemma headerBytes_rate (n : Z) (tail : list Z) :
  declaredSampleRate (headerBytes n ++ tail) = 16000.
Proof. reflexivity. Qed.

End WavLayout.

(** ** The encoder in the arithmetic of the code: the loops *)

Section Encoder64Facts.
Import Js DataView Encoder Wav Double Encoder64 Wav64.

Lemma decoded_rate (b : AudioBuffer) : decoded b → (0 < sampleRate b)%Q.
Proof. intros (_ & H & _). lra. Qed.

Lemma ratio64_pos (b : AudioBuffer) : (0 < sampleRate b)%Q → (0 < ratio b)%Q.
Proof.
  intros H. unfold ratio, div64. apply round64_pos.
  apply Qlt_shift_div_l; [reflexivity|]. by rewrite Qmult_0_l.
Qed.

Lemma newLength64_nonneg (b : AudioBuffer) :
  (0 < sampleRate b)%Q → 0 <= newLength b.
Proof.
  intros H. apply Math_round_nonneg. unfold div64. apply round64_nonneg.
  apply Qle_shift_div_l; [by apply ratio64_pos|]. rewrite Qmult_0_l.
  change 0%Q with (inject_Z 0). rewrite <- Zle_Qle. unfold buffer_length. lia.
Qed.

Lemma scanForward64_Some (b : AudioBuffer) (n : nat) :
  ∀ i j, scanForward b i n = Some j →
         i <= j < i + Z.of_nat n ∧ loud b j = true.
Proof.
  induction n as [|n IH]; intros i j; cbn [scanForward]; [done|].
  destruct (loud b i) eqn:Hl.
  - intros [= <-]. split; [lia|done].
  - intros H. apply IH in H. split; [lia|tauto].
Qed.

Lemma scanBackward64_Some (b : AudioBuffer) (n : nat) :
  ∀ i j, scanBackward b i n = Some j →
         i - Z.of_nat n < j <= i ∧ loud b j = true.
Proof.
  induction n as [|n IH]; intros i j; cbn [scanBackward]; [done|].
  destruct (loud b i) eqn:Hl.
  - intros [= <-]. split; [lia|done].
  - intros H. apply IH in H. split; [lia|tauto].
Qed.

Lemma scanForward64_quiet (b : AudioBuffer) (n : nat) :
  (∀ k, loud b k = false) → ∀ i, scanForward b i n = None.
Proof.
  intros Hq. induction n as [|n IH]; intros i; cbn [scanForward]; [done|].
  by rewrite Hq.
Qed.

Lemma scanBackward64_quiet (b : AudioBuffer) (n : nat) :
  (∀ k, loud b k = false) → ∀ i, scanBackward b i n = None.
Proof.
  intros Hq. induction n as [|n IH]; intros i; cbn [scanBackward]; [done|].
  by rewrite Hq.
Qed.

Lemma trimStart64_bounds (b : AudioBuffer) :
  0 <= newLength b → 0 <= trimStart b <= newLength b.
Proof.
  intros Hn. unfold trimStart.
  destruct (scanForward b 0 _) as [j|] eqn:E; cbn [default from_option id]; [|lia].
  apply scanForward64_Some in E. lia.
Qed.

Lemma trimEnd64_bounds (b : AudioBuffer) : trimEnd b <= newLength b - 1.
Proof.
  unfold trimEnd.
  destruct (scanBackward b _ _) as [j|] eqn:E; cbn [default from_option id]; [|done].
  apply scanBackward64_Some in E. lia.
Qed.

Lemma retained64_bounds (b : AudioBuffer) :
  0 <= newLength b → 0 <= retained b <= newLength b.
Proof.
  intros H. unfold retained.
  pose proof (trimStart64_bounds b H). pose proof (trimEnd64_bounds b). lia.
Qed.

(** A buffer without a sample above the threshold is quiet at every
    output index. *)
Lemma silent64_quiet (b : AudioBuffer) :
  Forall (λ x, (Qabs x <= threshold)%Q) (channelData b) →
  ∀ k, loud b k = false.
Proof.
  intros Hs k. unfold loud, Js.gt, Math_abs.
  apply negb_false_iff, Qle_bool_iff.
  unfold sourceSample. case_decide; [|by vm_compute].
  destruct (channelData b !! _) as [x|] eqn:E; cbn [default from_option id];
    [|by vm_compute].
  eapply (proj1 (Forall_forall _ _) Hs), list_elem_of_lookup_2, E.
Qed.

Lemma length_pcm64 (b : AudioBuffer) (n : nat) :
  ∀ i, length (pcm b n i) = (2 * n)%nat.
Proof.
  induction n as [|n IH]; intros i; cbn [pcm]; [done|].
  rewrite length_app, IH. cbn. lia.
Qed.

(** The sample loop writes [pcm] over the bytes that follow the ones
    already written. *)
Lemma writeSamples64_bytes (b : AudioBuffer) (n : nat) :
  ∀ (i : Z) (pre rest : list Z),
    (2 * n <= length rest)%nat →
    writeSamples b n i (Z.of_nat (length pre)) (pre ++ rest)
    = Some (pre ++ pcm b n i ++ drop (2 * n) rest,
            Z.of_nat (length pre) + 2 * Z.of_nat n).
Proof.
  induction n as [|n IH]; intros i pre rest Hlen.
  - cbn [writeSamples pcm]. rewrite drop_0. do 2 f_equal. lia.
  - destruct rest as [|a0 [|a1 rest]]; [cbn in Hlen; lia..|].
    cbn [writeSamples]. rewrite setInt16_app. cbn [mbind option_bind].
    replace (Z.of_nat (length pre) + 2)
      with (Z.of_nat (length (pre ++ sampleBytes b i)))
      by (rewrite length_app; cbn [length sampleBytes le16]; lia).
    change (pre ++ le16 (trunc (quantize (sourceSample b i))) ++ rest)
      with (pre ++ sampleBytes b i ++ rest).
    rewrite (assoc_L (++)), IH by (cbn [length] in Hlen; lia).
    rewrite length_app. cbn [length sampleBytes le16 pcm].
    rewrite <- !(assoc_L (++)).
    replace (2 * S n)%nat with (S (S (2 * n))) by lia. cbn [drop].
    do 2 f_equal. lia.
Qed.

(** What both encoders do after the header: [count] samples from index
    [from] over a zero-filled buffer. *)
Lemma header_then_samples64 (b : AudioBuffer) (count : nat) (from : Z) :
  0 <= newLength b → (Z.of_nat count <= newLength b) →
  (view ← alloc (44 + newLength b * 2);
   view ← writeHeader (newLength b) view;
   writeSamples b count from 44 view)
  = Some (headerBytes (newLength b) ++ pcm b count from
          ++ replicate (Z.to_nat (2 * (newLength b - Z.of_nat count))) 0,
          44 + 2 * Z.of_nat count).
Proof.
  intros Hn Hc. rewrite alloc_zeros by lia. cbn [mbind option_bind].
  rewrite writeHeader_layout
    by (unfold byteLength; rewrite length_replicate; lia).
  cbn [mbind option_bind]. rewrite drop_replicate.
  pose proof (writeSamples64_bytes b count from (headerBytes (newLength b))
                (replicate (Z.to_nat (44 + newLength b * 2) - 44) 0)) as H.
  rewrite length_headerBytes in H. change (Z.of_nat 44) with 44 in H.
  rewrite H by (rewrite length_replicate; lia).
  rewrite drop_replicate.
  replace (Z.to_nat (44 + newLength b * 2) - 44 - 2 * count)%nat
    with (Z.to_nat (2 * (newLength b - Z.of_nat count))) by lia.
  reflexivity.
Qed.

(** The container the encoder returns, byte by byte. *)
Lemma encode64_bytes (b : AudioBuffer) :
  (0 < sampleRate b)%Q →
  encode b
  = Some (headerBytes (newLength b)
          ++ pcm b (Z.to_nat (retained b)) (trimStart b)
          ++ replicate (Z.to_nat (2 * (newLength b - retained b))) 0,
          44 + 2 * retained b).
Proof.
  intros Hr. pose proof (newLength64_nonneg b Hr) as Hn.
  pose proof (retained64_bounds b Hn) as Hret.
  unfold encode. rewrite header_then_samples64 by lia.
  by rewrite Z2Nat.id by lia.
Qed.

Lemma audioBufferToWav64_bytes (b : AudioBuffer) :
  (0 < sampleRate b)%Q →
  audioBufferToWav b
  = Some (headerBytes (newLength b)
          ++ pcm b (Z.to_nat (retained b)) (trimStart b)
          ++ replicate (Z.to_nat (2 * (newLength b - retained b))) 0).
Proof.
  intros Hr. unfold audioBufferToWav. by rewrite (encode64_bytes b Hr).
Qed.

(** Where the two arithmetics part: at 16080 Hz the product [100 * 1.005]
    is 100.49999999999999 in double precision and 100.5 exactly, so that
    output sample 100 reads input sample 100 and not 101; seven samples at
    8960 Hz make twelve output samples and not thirteen. *)
Lemma double_rounding_matters :
  Math_round (mul64 100 (div64 16080 16000)) = 100
  ∧ Math_round (100 * (16080 / 16000))%Q = 101
  ∧ newLength sevenSamples = 12
  ∧ Encoder.newLength sevenSamples = 13.
Proof. repeat split; vm_compute; reflexivity. Qed.

(** The output sample count against the exact quotient. *)
Lemma newLength64_bounds (b : AudioBuffer) :
  (0 < sampleRate b)%Q →
  (inject_Z (newLength b)
   <= inject_Z (buffer_length b) * 16000 / sampleRate b
      * (1 + (1 # 2251799813685248)) + (1 # 2))%Q
  ∧ (inject_Z (buffer_length b) * 16000 / sampleRate b
     * (1 - (1 # 2251799813685248)) - (1 # 2)
     < inject_Z (newLength b))%Q.
Proof.
  intros Hr.
  assert (HL : (0 <= inject_Z (buffer_length b))%Q).
  { change 0%Q with (inject_Z 0). rewrite <- Zle_Qle. unfold buffer_length. lia. }
  pose proof (resample_error _ _ HL Hr) as [Hlo Hhi].
  unfold newLength, ratio. change (inject_Z targetSampleRate) with 16000%Q.
  pose proof (Math_round_le
    (div64 (inject_Z (buffer_length b)) (div64 (sampleRate b) 16000))) as H1.
  pose proof (Math_round_gt
    (div64 (inject_Z (buffer_length b)) (div64 (sampleRate b) 16000))) as H2.
  split; lra.
Qed.

End Encoder64Facts.

(** ** Dispatcher: suspended continuations *)

Section TakeFacts.
Import Dispatcher.
Context {A : Type}.
Implicit Types (l rest : list (nat * A)) (a : A) (id : nat).

Lemma take_perm id l a rest :
  take id l = Some (a, rest) → l ≡ₚ (id, a) :: rest.
Proof.
  revert a rest. induction l as [|[i x] l IH]; intros a rest; cbn [take]; [done|].
  case_decide as E.
  - intros [= -> ->]. by subst.
  - destruct (take id l) as [[b r']|] eqn:Ht; cbn; [|done].
    intros [= -> <-]. rewrite (IH _ _ eq_refl). apply Permutation_swap.
Qed.

Lemma take_length id l a rest :
  take id l = Some (a, rest) → length l = S (length rest).
Proof. intros H. by rewrite (take_perm _ _ _ _ H). Qed.

Lemma take_ids id l a rest :
  take id l = Some (a, rest) → l.*1 ≡ₚ id :: rest.*1.
Proof. intros H. by rewrite (take_perm _ _ _ _ H). Qed.

(** The continuation most recently suspended is found behind older ones
    of other calls. *)
Lemma take_app_fresh id l a :
  id ∉ l.*1 → take id (l ++ [(id, a)]) = Some (a, l).
Proof.
  induction l as [|[i x] l IH]; intros Hn; cbn [take app].
  - by rewrite decide_True.
  - rewrite decide_False by set_solver.
    rewrite IH by set_solver. done.
Qed.

Lemma take_elem id l a :
  NoDup l.*1 → (id, a) ∈ l → ∃ rest, take id l = Some (a, rest).
Proof.
  induction l as [|[i x] l IH]; intros Hnd Hin; [by apply elem_of_nil in Hin|].
  cbn [take]. apply NoDup_cons in Hnd as [Hi Hnd].
  apply elem_of_cons in Hin as [[= <- <-]|Hin].
  - rewrite decide_True by done. eauto.
  - rewrite decide_False.
    + destruct (IH Hnd Hin) as [rest ->]. cbn. eauto.
    + intros ->. apply Hi. apply list_elem_of_fmap. by exists (id, a).
Qed.

Lemma take_is_Some id l : id ∈ l.*1 → is_Some (take id l).
Proof.
  induction l as [|[i x] l IH]; intros Hin; [by apply elem_of_nil in Hin|].
  cbn [take]. case_decide; [eauto|].
  destruct IH as [[b r] ->]; [set_solver|]. cbn. eauto.
Qed.

End TakeFacts.

(** ** Dispatcher: invariants of the limiter and of the pending calls *)

Section DispatcherInvariant.
Import Dispatcher.

Lemma Inv_init : Inv init.
Proof.
  split; cbn; try done.
  - unfold limit. lia.
  - apply NoDup_nil_2.
  - intros id H. by apply elem_of_nil in H.
  - intros id [x H]. by rewrite lookup_empty in H.
  - lia.
Qed.

Lemma Inv_tts (r : request) (s : state) : Inv s → Inv (tts r s).
Proof.
  intros [Ha Hl Hq Hn Hp Hs Hc]. unfold tts. cbn [audioCache].
  assert (Hfresh : nextId s ∉ pending s).
  { intros H. apply Hp in H. lia. }
  destruct (audioCache s !! key r) as [blob|].
  - split; cbn; try done.
    + intros id H. destruct (Hp id H) as [Hlt Hnone]. split; [lia|].
      rewrite lookup_insert_ne by lia. done.
    + intros id H. destruct (decide (id = nextId s)) as [->|Hne]; [lia|].
      rewrite lookup_insert_ne in H by done. apply Hs in H. lia.
    + intros id H. destruct (decide (id = nextId s)) as [->|Hne].
      * right. rewrite lookup_insert_eq. eauto.
      * rewrite lookup_insert_ne by done. apply Hc. lia.
  - unfold runLimited. cbn [active]. case_decide as Hlt.
    + assert (Hq0 : queue s = []).
      { destruct (queue s); [done|]. rewrite Hq in Hlt by done. lia. }
      split; unfold pending in *; cbn; rewrite ?Hq0 in *; cbn.
      * rewrite length_app. cbn. lia.
      * lia.
      * done.
      * rewrite fmap_app. cbn.
        cbn in Hn. eapply NoDup_Permutation_proper; [|apply NoDup_cons_2, Hn].
        -- rewrite <- (assoc_L (++)). cbn. by rewrite <- Permutation_middle.
        -- exact Hfresh.
      * intros id H. rewrite fmap_app in H. cbn in H, Hp.
        destruct (decide (id = nextId s)) as [->|Hne].
        -- split; [lia|]. destruct (settled s !! nextId s) eqn:E; [|done].
           assert (is_Some (settled s !! nextId s)) as H' by eauto.
           apply Hs in H'. lia.
        -- destruct (Hp id) as [? ?]; [set_solver|]. split; [lia|done].
      * intros id H. apply Hs in H. lia.
      * intros id H. rewrite fmap_app. cbn. cbn in Hc.
        destruct (decide (id = nextId s)) as [->|Hne]; [left; set_solver|].
        destruct (Hc id) as [?|?]; [lia|left; set_solver|by right].
    + split; unfold pending in *; cbn.
      * done.
      * done.
      * intros _. lia.
      * rewrite fmap_app. cbn. rewrite <- (assoc_L (++)). cbn.
        eapply NoDup_Permutation_proper; [|apply NoDup_cons_2, Hn].
        -- by rewrite <- Permutation_middle.
        -- exact Hfresh.
      * intros id H. rewrite fmap_app in H. cbn in H.
        destruct (decide (id = nextId s)) as [->|Hne].
        -- split; [lia|]. destruct (settled s !! nextId s) eqn:E; [|done].
           assert (is_Some (settled s !! nextId s)) as H' by eauto.
           apply Hs in H'. lia.
        -- destruct (Hp id) as [? ?]; [set_solver|]. split; [lia|done].
      * intros id H. apply Hs in H. lia.
      * intros id H. rewrite fmap_app. cbn.
        destruct (decide (id = nextId s)) as [->|Hne]; [left; set_solver|].
        destruct (Hc id) as [?|?]; [lia|left; set_solver|by right].
Qed.

(** The [finally] block keeps the queued and in-flight calls together:
    it only moves the head of the queue into flight. *)
Lemma release_queue_fetching (s : state) :
  (queue (release s)).*1 ++ (fetching (release s)).*1
  ≡ₚ (queue s).*1 ++ (fetching s).*1.
Proof.
  unfold release. cbn. destruct (queue s) as [|t q]; cbn; [done|].
  rewrite fmap_app. cbn. rewrite Permutation_middle.
  by rewrite (assoc_L (++)), <- Permutation_cons_append, <- Permutation_middle.
Qed.

Lemma release_frame (s : state) :
  audioCache (release s) = audioCache s
  ∧ reading (release s) = reading s
  ∧ settled (release s) = settled s
  ∧ nextId (release s) = nextId s.
Proof. unfold release. cbn. by destruct (queue s). Qed.

Lemma release_limiter (s : state) :
  active s = S (length (fetching s)) → (active s <= limit)%nat →
  (queue s ≠ [] → active s = limit) →
  active (release s) = length (fetching (release s))
  ∧ (active (release s) <= limit)%nat
  ∧ (queue (release s) ≠ [] → active (release s) = limit).
Proof.
  intros Ha Hl Hq. unfold release. cbn. destruct (queue s) as [|t q]; cbn.
  - split; [lia|]. split; [lia|done].
  - rewrite length_app. cbn. split; [lia|]. split; [lia|].
    intros _. rewrite <- Hq by done. lia.
Qed.

Lemma Inv_fetchSettles (id : nat) (res : fetch_result) (s s' : state) :
  Inv s → fetchSettles id res s = Some s' → Inv s'.
Proof.
  intros [Ha Hl Hq Hn Hp Hs Hc]. unfold fetchSettles.
  destruct (take id (fetching s)) as [[r rest]|] eqn:Ht; cbn; [|done].
  set (s1 := State _ _ _ rest _ _ _ _).
  pose proof (take_length _ _ _ _ Ht) as Hlen.
  pose proof (take_ids _ _ _ _ Ht) as Hids.
  destruct (release_limiter s1) as (Ha' & Hl' & Hq');
    [unfold s1; cbn; lia|done|done|].
  destruct (release_frame s1) as (Hcache & Hread & Hset & Hnext).
  pose proof (release_queue_fetching s1) as Hperm.
  assert (Hpend : pending s ≡ₚ id :: pending (release s1)).
  { unfold pending. rewrite Hread. change (reading s1) with (reading s).
    transitivity (id :: (((queue (release s1)).*1 ++ (fetching (release s1)).*1)
                         ++ (reading s).*1));
      [|by rewrite <- (assoc_L (++))].
    rewrite Hperm. change (queue s1) with (queue s).
    change (fetching s1) with rest. rewrite Hids.
    rewrite <- (assoc_L (++)), <- app_comm_cons.
    by rewrite <- Permutation_middle. }
  assert (Hnd : NoDup (id :: pending (release s1))) by by rewrite <- Hpend.
  apply NoDup_cons in Hnd as [Hid Hnd].
  destruct res as [e|ok]; intros [= <-].
  - split; cbn; try done.
    + intros i Hi. rewrite Hnext, Hset. cbn.
      destruct (Hp i) as [? ?]; [rewrite Hpend; set_solver|].
      split; [done|]. rewrite lookup_insert_ne; [done|]. by intros ->.
    + intros i Hi. rewrite Hnext. cbn. rewrite Hset in Hi. cbn in Hi.
      destruct (decide (i = id)) as [->|Hne].
      * apply Hp. rewrite Hpend. set_solver.
      * rewrite lookup_insert_ne in Hi by done. by apply Hs.
    + intros i Hi. rewrite Hnext in Hi. cbn in Hi. rewrite Hset. cbn.
      destruct (decide (i = id)) as [->|Hne].
      * right. rewrite lookup_insert_eq. eauto.
      * rewrite lookup_insert_ne by done.
        destruct (Hc i Hi) as [H|H]; [|by right].
        rewrite Hpend in H. left. set_solver.
  - assert (Hpend' : pending (State (audioCache (release s1)) (active (release s1))
              (queue (release s1)) (fetching (release s1))
              (reading (release s1) ++ [(id, (r, ok))]) (settled (release s1))
              (fetchLog (release s1)) (nextId (release s1))) ≡ₚ pending s).
    { rewrite Hpend. unfold pending. cbn. rewrite fmap_app. cbn.
      rewrite !(assoc_L (++)). by rewrite <- Permutation_cons_append. }
    split; cbn -[pending]; try done.
    + by rewrite Hpend'.
    + intros i Hi. rewrite Hpend' in Hi. rewrite Hnext, Hset. cbn. by apply Hp.
    + intros i Hi. rewrite Hnext. cbn. rewrite Hset in Hi. by apply Hs.
    + intros i Hi. rewrite Hpend', Hset. rewrite Hnext in Hi. by apply Hc.
Qed.

Lemma Inv_bodySettles (id : nat) (res : body_result) (s s' : state) :
  Inv s → bodySettles id res s = Some s' → Inv s'.
Proof.
  intros [Ha Hl Hq Hn Hp Hs Hc]. unfold bodySettles.
  destruct (take id (reading s)) as [[[r ok] rest]|] eqn:Ht; cbn; [|done].
  pose proof (take_ids _ _ _ _ Ht) as Hids.
  assert (Hpend : pending s
                  ≡ₚ id :: ((queue s).*1 ++ (fetching s).*1 ++ rest.*1)).
  { unfold pending. rewrite Hids. by rewrite <- !Permutation_middle. }
  assert (Hnd : NoDup (id :: ((queue s).*1 ++ (fetching s).*1 ++ rest.*1)))
    by by rewrite <- Hpend.
  apply NoDup_cons in Hnd as [Hid Hnd].
  assert (Hgoal : ∀ o cache,
    Inv (settle id o (State cache (active s) (queue s) (fetching s) rest
                            (settled s) (fetchLog s) (nextId s)))).
  { intros o cache. split; unfold pending; cbn; try done.
    + intros i Hi. destruct (Hp i) as [? ?]; [rewrite Hpend; set_solver|].
      split; [done|]. rewrite lookup_insert_ne; [done|]. by intros ->.
    + intros i Hi. destruct (decide (i = id)) as [->|Hne].
      * apply Hp. rewrite Hpend. set_solver.
      * rewrite lookup_insert_ne in Hi by done. by apply Hs.
    + intros i Hi. destruct (decide (i = id)) as [->|Hne].
      * right. rewrite lookup_insert_eq. eauto.
      * rewrite lookup_insert_ne by done.
        destruct (Hc i Hi) as [H|H]; [|by right].
        rewrite Hpend in H. left. set_solver. }
  destruct res as [e|bytes]; intros [= <-]; [apply Hgoal|].
  destruct ok; apply Hgoal.
Qed.

Lemma Inv_step (e : event) (s s' : state) :
  Inv s → step e s = Some s' → Inv s'.
Proof.
  intros HI. destruct e as [r|id res|id res]; cbn [step].
  - intros [= <-]. by apply Inv_tts.
  - by apply Inv_fetchSettles.
  - by apply Inv_bodySettles.
Qed.

Lemma Inv_run (evs : list event) :
  ∀ s s', Inv s → runEvents evs s = Some s' → Inv s'.
Proof.
  induction evs as [|e evs IH]; intros s s' HI; cbn [runEvents].
  - by intros [= <-].
  - destruct (step e s) as [s1|] eqn:E; cbn; [|done].
    apply IH. by eapply Inv_step.
Qed.

Lemma reachable_Inv (s : state) : reachable s → Inv s.
Proof. intros [evs H]. eapply Inv_run; [apply Inv_init|exact H]. Qed.

Lemma runEvents_app (evs1 evs2 : list event) (s : state) :
  runEvents (evs1 ++ evs2) s = s' ← runEvents evs1 s; runEvents evs2 s'.
Proof.
  revert s. induction evs1 as [|e evs1 IH]; intros s; cbn; [done|].
  destruct (step e s); cbn; [apply IH|done].
Qed.

Lemma reachable_run (evs : list event) (s s' : state) :
  reachable s → runEvents evs s = Some s' → reachable s'.
Proof.
  intros [evs0 H0] H. exists (evs0 ++ evs). rewrite runEvents_app, H0. exact H.
Qed.

End DispatcherInvariant.

(** ** Dispatcher: order of execution and progress *)

Section DispatcherOrder.
Import Dispatcher.

(** A settlement never reorders: the provider calls issued so far
    followed by the queue stay the same sequence, and the issued calls
    outnumber the active ones by the settlements seen. *)
Lemma settle_step_order (e : event) (s s' : state) :
  Inv s → isCall e = false → step e s = Some s' →
  fetchLog s' ++ queue s' = fetchLog s ++ queue s
  ∧ (length (fetchLog s') + active s
     = length (fetchLog s) + active s' + (if isFetchSettles e then 1 else 0))%nat
  ∧ nextId s' = nextId s.
Proof.
  intros HI Hc. destruct e as [r|id res|id res]; [done| |]; cbn [step isFetchSettles].
  - unfold fetchSettles.
    destruct (take id (fetching s)) as [[r rest]|] eqn:Ht; cbn; [|done].
    pose proof (take_length _ _ _ _ Ht) as Hlen.
    pose proof (inv_active _ HI) as Ha.
    intros [= <-]. unfold release. cbn.
    destruct (queue s) as [|t q] eqn:Hq; destruct res; cbn;
      rewrite ?length_app, <- ?(assoc_L (++)); cbn;
      (split; [done|split; [lia|done]]).
  - unfold bodySettles.
    destruct (take id (reading s)) as [[[r ok] rest]|]; cbn; [|done].
    intros [= <-]. destruct res as [|bytes]; [|destruct ok]; cbn;
      (split; [done|split; [lia|done]]).
Qed.

Lemma settle_run_order (evs : list event) :
  ∀ s s', Inv s → Forall (λ e, isCall e = false) evs → runEvents evs s = Some s' →
    fetchLog s' ++ queue s' = fetchLog s ++ queue s
    ∧ (length (fetchLog s') + active s
       = length (fetchLog s) + active s' + fetchesSettled evs)%nat
    ∧ nextId s' = nextId s.
Proof.
  induction evs as [|e evs IH]; intros s s' HI Hev; cbn [runEvents fetchesSettled].
  - intros [= <-]. split; [done|]. split; [lia|done].
  - apply Forall_cons in Hev as [He Hev].
    destruct (step e s) as [s1|] eqn:E; cbn; [|done]. intros Hrun.
    destruct (settle_step_order e s s1 HI He E) as (Ho & Hc & Hn).
    destruct (IH s1 s' (Inv_step _ _ _ HI E) Hev Hrun) as (Ho' & Hc' & Hn').
    split; [congruence|]. split; [lia|congruence].
Qed.

Lemma length_tasksFrom (rs : list request) :
  ∀ n, length (tasksFrom n rs) = length rs.
Proof. induction rs as [|r rs IH]; intros n; cbn; [done|]. by rewrite IH. Qed.

(** A call that misses the cache is appended to the sequence of issued and
    queued provider calls. *)
Lemma tts_miss_order (r : request) (s : state) :
  Inv s → audioCache s !! key r = None →
  fetchLog (tts r s) ++ queue (tts r s)
    = (fetchLog s ++ queue s) ++ [(nextId s, r)]
  ∧ (length (fetchLog (tts r s)) + active s
     = length (fetchLog s) + active (tts r s))%nat
  ∧ audioCache (tts r s) = audioCache s
  ∧ nextId (tts r s) = S (nextId s).
Proof.
  intros HI Hr. unfold tts. cbn. rewrite Hr. unfold runLimited. cbn.
  case_decide as Hlt; cbn.
  - assert (Hq0 : queue s = []).
    { destruct (queue s) eqn:E; [done|].
      rewrite (inv_queue _ HI) in Hlt by (rewrite E; done). lia. }
    rewrite Hq0, !app_nil_r, length_app. cbn. repeat split; lia.
  - rewrite (assoc_L (++)). repeat split; lia.
Qed.

(** Calls that miss the cache enter the limiter in call order. *)
Lemma calls_run_order (rs : list request) :
  ∀ s, Inv s → (∀ r, r ∈ rs → audioCache s !! key r = None) →
    ∃ s', runEvents (Call <$> rs) s = Some s'
      ∧ fetchLog s' ++ queue s' = (fetchLog s ++ queue s) ++ tasksFrom (nextId s) rs
      ∧ (length (fetchLog s') + active s = length (fetchLog s) + active s')%nat
      ∧ audioCache s' = audioCache s
      ∧ nextId s' = (nextId s + length rs)%nat.
Proof.
  induction rs as [|r rs IH]; intros s HI Hmiss; cbn [fmap list_fmap runEvents tasksFrom].
  - exists s. rewrite app_nil_r. cbn. repeat split; lia.
  - cbn [step mbind option_bind].
    assert (Hr : audioCache s !! key r = None) by (apply Hmiss; set_solver).
    destruct (tts_miss_order r s HI Hr) as (Ho1 & Hc1 & Hca1 & Hn1).
    destruct (IH (tts r s)) as (s' & Hrun & Ho & Hc & Hca & Hn).
    { by apply Inv_tts. }
    { intros r' Hr'. rewrite Hca1. apply Hmiss. set_solver. }
    exists s'. split; [exact Hrun|].
    rewrite Ho, Ho1, Hca, Hca1, Hn, Hn1. cbn [length].
    rewrite <- (assoc_L (++)). cbn. repeat split; lia.
Qed.

End DispatcherOrder.

(** ** Specified properties of the encoder *)

Section EncoderProperties.
Import Js DataView Encoder.

(** C1.  The specification: the header's data length is the number of retained
    samples times two, [(end - start + 1) * 2], the sample bytes written.
    On [paddedClick] trimming retains one sample ([start = end = 1]) and
    the loop writes two bytes (the final [offset] is 46), yet the header,
    written before trimming, declares [newLength * 2 = 6] data bytes and
    the container keeps its untrimmed size of 50 bytes, the last four of
    them zero. *)
Theorem C1_header_declares_untrimmed_length :
  encode paddedClick = Some (paddedClickWav, 46)
  ∧ audioBufferToWav paddedClick = Some paddedClickWav
  ∧ newLength paddedClick = 3
  ∧ trimStart paddedClick = 1
  ∧ trimEnd paddedClick = 1
  ∧ (trimEnd paddedClick - trimStart paddedClick + 1) * 2 = 2
  ∧ declaredDataLength paddedClickWav = 6
  ∧ byteLength paddedClickWav = 50
  ∧ drop 46 paddedClickWav = [0; 0; 0; 0].
Proof. repeat split; vm_compute; reflexivity. Qed.

End EncoderProperties.

(** ** Specified properties of the encoder, in the arithmetic of the code *)

Section Encoder64Properties.
Import Js DataView Encoder Wav Double Encoder64 Wav64.

(** [decoded] of a given buffer, by evaluation. *)
Local Ltac evaluate_decoded :=
  split; [by vm_compute|]; split; [by vm_compute|]; split; [by vm_compute|];
  split; [by vm_compute|];
  match goal with
  | |- Forall _ ?l => let l' := eval vm_compute in l in change l with l'
  end;
  repeat (apply Forall_cons_2; [by vm_compute|]); apply Forall_nil_2.

(** C2, as stated, fails: [Math.round] rounds the half period up to one
    output sample, 1/16000 s of output for 1/32000 s of input. *)
Lemma C2_duration_counterexample :
  decoded halfPeriod
  ∧ newLength halfPeriod = 1
  ∧ ¬ (inject_Z (newLength halfPeriod) / inject_Z targetSampleRate
       <= inject_Z (buffer_length halfPeriod) / sampleRate halfPeriod)%Q.
Proof.
  split; [evaluate_decoded|]. split; [by vm_compute|].
  vm_compute. intros H. by apply H.
Qed.

(** C2, amended.  For every decoded buffer the encoder returns a
    container whose header declares exactly 16000 Hz, for
    [newLength = round(length / (nativeRate / 16000))] samples, the
    quotients being those of double precision; and the output duration is
    within half an output sample period, and the 2^-51th part of the input
    duration that the two roundings can add, of the input duration.  It can
    exceed the input duration. *)
Theorem C2_rate_and_duration (b : AudioBuffer) :
  decoded b →
  (∃ wav, audioBufferToWav b = Some wav
     ∧ declaredSampleRate wav = 16000
     ∧ byteLength wav = 44 + newLength b * 2)
  ∧ newLength b
    = Math_round (div64 (inject_Z (buffer_length b))
                        (div64 (sampleRate b) 16000))
  ∧ (inject_Z (newLength b) / 16000
     <= inject_Z (buffer_length b) / sampleRate b
        * (1 + (1 # 2251799813685248)) + (1 # 32000))%Q
  ∧ (inject_Z (buffer_length b) / sampleRate b
     * (1 - (1 # 2251799813685248)) - (1 # 32000)
     < inject_Z (newLength b) / 16000)%Q.
Proof.
  intros Hd. pose proof (decoded_rate b Hd) as Hr.
  pose proof (newLength64_nonneg b Hr) as Hn.
  pose proof (retained64_bounds b Hn) as Hret.
  split.
  - eexists. unfold audioBufferToWav. rewrite (encode64_bytes b Hr).
    cbn [fmap option_fmap option_map fst]. split; [reflexivity|].
    split; [apply headerBytes_rate|].
    unfold byteLength.
    rewrite !length_app, length_headerBytes, length_pcm64, length_replicate. lia.
  - split; [reflexivity|].
    destruct (newLength64_bounds b Hr) as [Hhi Hlo].
    assert (Hx : (inject_Z (buffer_length b) * 16000 / sampleRate b
                  == 16000 * (inject_Z (buffer_length b) / sampleRate b))%Q)
      by (field; lra).
    rewrite Hx in Hhi, Hlo.
    set (x := (inject_Z (buffer_length b) / sampleRate b)%Q) in *.
    split.
    + apply Qle_shift_div_r; [reflexivity|]. lra.
    + apply Qlt_shift_div_l; [reflexivity|]. lra.
Qed.

(** The hypothesis of C2 holds of [sevenSamples]: of the quotient
    12.499999999999998 twelve samples are made, and the output is shorter
    than the input by half an output sample period. *)
Lemma C2_rate_and_duration_witness :
  decoded sevenSamples
  ∧ newLength sevenSamples = 12
  ∧ (inject_Z (buffer_length sevenSamples) / sampleRate sevenSamples
     * (1 - (1 # 2251799813685248)) - (1 # 32000)
     < inject_Z (newLength sevenSamples) / 16000)%Q
  ∧ (inject_Z (buffer_length sevenSamples) / sampleRate sevenSamples
     - (1 # 32000)
     == inject_Z (newLength sevenSamples) / 16000)%Q.
Proof.
  assert (Hd : decoded sevenSamples) by evaluate_decoded.
  split; [exact Hd|]. split; [by vm_compute|].
  split; [|by vm_compute].
  exact (proj2 (proj2 (proj2 (C2_rate_and_duration sevenSamples Hd)))).
Defined.

(** C3, as stated, fails: a buffer of one silent sample at 48 kHz is not
    empty, yet it is resampled to no sample at all ([newLength] is 0 and
    [end] is -1): the output is the bare header. *)
Lemma C3_nonempty_output_counterexample :
  decoded oneSilentSample
  ∧ channelData oneSilentSample ≠ []
  ∧ Forall (λ x, (Qabs x <= threshold)%Q) (channelData oneSilentSample)
  ∧ newLength oneSilentSample = 0
  ∧ trimEnd oneSilentSample = -1
  ∧ retained oneSilentSample = 0
  ∧ encode oneSilentSample = Some (headerBytes 0, 44)
  ∧ audioBufferToWav oneSilentSample = Some (headerBytes 0).
Proof.
  split; [evaluate_decoded|]. split; [done|].
  split; [repeat constructor; by vm_compute|].
  repeat split; vm_compute; reflexivity.
Qed.

(** C3, amended.  A decoded buffer without a sample above the threshold
    is not trimmed and the encoder returns (no exception): [start = 0],
    [end = newLength - 1], and the container is the header followed by all
    the [newLength] resampled samples and by nothing else.  The output
    holds at least one sample as soon as the input spans one output sample
    period (1/16000 s). *)
Theorem C3_silent_buffer_untrimmed (b : AudioBuffer) :
  decoded b →
  Forall (λ x, (Qabs x <= threshold)%Q) (channelData b) →
  trimStart b = 0
  ∧ trimEnd b = newLength b - 1
  ∧ retained b = newLength b
  ∧ encode b
    = Some (headerBytes (newLength b) ++ pcm b (Z.to_nat (newLength b)) 0,
            44 + 2 * newLength b)
  ∧ audioBufferToWav b
    = Some (headerBytes (newLength b) ++ pcm b (Z.to_nat (newLength b)) 0)
  ∧ (((1 # 16000) <= inject_Z (buffer_length b) / sampleRate b)%Q →
     1 <= newLength b
     ∧ ∃ wav, audioBufferToWav b = Some wav ∧ 46 <= byteLength wav).
Proof.
  intros Hd Hs. pose proof (decoded_rate b Hd) as Hr.
  pose proof (silent64_quiet b Hs) as Hq.
  pose proof (newLength64_nonneg b Hr) as Hn.
  assert (H0 : trimStart b = 0).
  { unfold trimStart. by rewrite scanForward64_quiet. }
  assert (H1 : trimEnd b = newLength b - 1).
  { unfold trimEnd. by rewrite scanBackward64_quiet. }
  assert (H2 : retained b = newLength b).
  { unfold retained. rewrite H0, H1. lia. }
  assert (He : encode b
    = Some (headerBytes (newLength b) ++ pcm b (Z.to_nat (newLength b)) 0,
            44 + 2 * newLength b)).
  { rewrite (encode64_bytes b Hr), H0, H2.
    replace (Z.to_nat (2 * (newLength b - newLength b))) with 0%nat by lia.
    by rewrite app_nil_r. }
  assert (Hw : audioBufferToWav b
    = Some (headerBytes (newLength b) ++ pcm b (Z.to_nat (newLength b)) 0)).
  { unfold audioBufferToWav. by rewrite He. }
  split; [done|]. split; [done|]. split; [done|]. split; [done|].
  split; [done|]. intros Hlong.
  assert (Hone : 1 <= newLength b).
  { destruct (newLength64_bounds b Hr) as [_ Hlo].
    assert (Hx : (inject_Z (buffer_length b) * 16000 / sampleRate b
                  == 16000 * (inject_Z (buffer_length b) / sampleRate b))%Q)
      by (field; lra).
    rewrite Hx in Hlo.
    set (x := (inject_Z (buffer_length b) / sampleRate b)%Q) in *.
    assert (0 < newLength b); [|lia].
    rewrite Zlt_Qlt. change (inject_Z 0) with 0%Q. lra. }
  split; [done|]. eexists. split; [exact Hw|].
  unfold byteLength. rewrite length_app, length_headerBytes, length_pcm64. lia.
Qed.

(** The hypotheses of C3 hold of [quiet], six samples at or below the
    threshold, of which two output samples are made. *)
Lemma C3_silent_buffer_untrimmed_witness :
  decoded quiet
  ∧ Forall (λ x, (Qabs x <= threshold)%Q) (channelData quiet)
  ∧ newLength quiet = 2
  ∧ trimStart quiet = 0 ∧ trimEnd quiet = 1
  ∧ audioBufferToWav quiet = Some (headerBytes 2 ++ [0; 0; 0; 0]).
Proof.
  assert (Hd : decoded quiet) by evaluate_decoded.
  assert (Hs : Forall (λ x, (Qabs x <= threshold)%Q) (channelData quiet)).
  { repeat constructor; by vm_compute. }
  assert (Hn : newLength quiet = 2) by (by vm_compute).
  split; [exact Hd|]. split; [exact Hs|]. split; [exact Hn|].
  destruct (C3_silent_buffer_untrimmed quiet Hd Hs) as (H0 & H1 & _ & _ & Hw & _).
  split; [exact H0|]. split; [by rewrite H1, Hn|].
  rewrite Hw, Hn. vm_compute. reflexivity.
Defined.

End Encoder64Properties.

(** ** Specified properties of the synthesis markup *)

Section SsmlProperties.
Import JsString Ssml.

Lemma append_assoc (s1 s2 s3 : string) :
  (s1 +:+ s2) +:+ s3 = s1 +:+ (s2 +:+ s3).
Proof.
  induction s1 as [|a s1 IH]; [done|].
  change (String a ((s1 +:+ s2) +:+ s3) = String a (s1 +:+ (s2 +:+ s3))).
  by rewrite IH.
Qed.

Lemma replaceAll_app (c : ascii) (by_ s1 s2 : string) :
  replaceAll c by_ (s1 +:+ s2) = replaceAll c by_ s1 +:+ replaceAll c by_ s2.
Proof.
  induction s1 as [|a s1 IH]; [done|].
  change (String a s1 +:+ s2) with (String a (s1 +:+ s2)).
  cbn [replaceAll]. case_decide; rewrite IH; [|done].
  by rewrite append_assoc.
Qed.

Lemma escapeXml_cons (a : ascii) (s : string) :
  escapeXml (String a s) = escapeChar a +:+ escapeXml s.
Proof.
  unfold escapeXml, escapeChar. cbn [replaceAll].
  destruct (decide (a = "&"%char)) as [->|Hamp].
  { rewrite !replaceAll_app. reflexivity. }
  cbn [replaceAll].
  destruct (decide (a = "<"%char)) as [->|Hlt].
  { rewrite !replaceAll_app. reflexivity. }
  cbn [replaceAll].
  destruct (decide (a = ">"%char)) as [->|Hgt]; reflexivity.
Qed.

Lemma prefix_append (p r : string) : String.prefix p (p +:+ r) = true.
Proof.
  induction p as [|a p IH]; [by destruct r|].
  change (String a p +:+ r) with (String a (p +:+ r)). cbn [String.prefix].
  by destruct (ascii_dec a a).
Qed.

Lemma charData_plain (a : ascii) (r : string) :
  a ≠ "<"%char → a ≠ "&"%char → charData (String a r) = charData r.
Proof. intros. cbn [charData]. by rewrite !decide_False. Qed.

Lemma charData_entity (name r : string) :
  name = "amp;" ∨ name = "lt;" ∨ name = "gt;" →
  charData ("&" +:+ name +:+ r) = charData r.
Proof.
  intros [-> | [-> | ->]].
  - change (charData (String "&" ("amp;" +:+ r)) = charData r).
    cbn [charData]. rewrite decide_False, decide_True by done.
    change (charData ("amp;" +:+ r))
      with (charData (String "a" (String "m" (String "p" (String ";" r))))).
    by rewrite prefix_append, !charData_plain.
  - change (charData (String "&" ("lt;" +:+ r)) = charData r).
    cbn [charData]. rewrite decide_False, decide_True by done.
    change (charData ("lt;" +:+ r))
      with (charData (String "l" (String "t" (String ";" r)))).
    by rewrite (prefix_append "lt;"), orb_true_r, !charData_plain.
  - change (charData (String "&" ("gt;" +:+ r)) = charData r).
    cbn [charData]. rewrite decide_False, decide_True by done.
    change (charData ("gt;" +:+ r))
      with (charData (String "g" (String "t" (String ";" r)))).
    by rewrite (prefix_append "gt;"), orb_true_r, !charData_plain.
Qed.

(** The escaped text is character data, whatever the text. *)
Lemma escapeXml_charData (s : string) : charData (escapeXml s) = true.
Proof.
  induction s as [|a s IH]; [done|].
  rewrite escapeXml_cons. unfold escapeChar.
  repeat case_decide; subst.
  - etrans; [apply (charData_entity "amp;" (escapeXml s)); auto|done].
  - etrans; [apply (charData_entity "lt;" (escapeXml s)); auto|done].
  - etrans; [apply (charData_entity "gt;" (escapeXml s)); auto|done].
  - change (String a "" +:+ escapeXml s) with (String a (escapeXml s)).
    by rewrite charData_plain.
Qed.

(** C7.  The specification: on every synthesis path that embeds caller text, the
    characters [&], [<] and [>] are escaped first.  /api/tts-single does
    so for every text, but the batch route /api/tts interpolates the
    item's text verbatim: for "a<b & c" the document it sends carries a
    raw [<] and a bare [&]. *)
Theorem C7_batch_route_embeds_raw_text :
  (∀ text, charData (escapeXml text) = true)
  ∧ ssmlSingle markupText "en-US-JennyNeural" "en-US"
    = "<speak version='1.0' xml:lang='en-US'>" +:+ nl
      +:+ "  <voice name='en-US-JennyNeural'>" +:+ nl
      +:+ "    <prosody rate='-10%'>a&lt;b &amp; c</prosody>" +:+ nl
      +:+ "  </voice>" +:+ nl +:+ "</speak>"
  ∧ (∀ it, ssmlBatch it
           = "<speak version='1.0' xml:lang='"
             +:+ (if decide (code it = "zh-Hans") then "zh-CN" else code it)
             +:+ "'>" +:+ nl
             +:+ "              <voice name='" +:+ pickVoice (code it) +:+ "'>"
             +:+ itemText it +:+ "</voice>" +:+ nl +:+ "            </speak>")
  ∧ ssmlBatch (Item "en" markupText)
    = "<speak version='1.0' xml:lang='en'>" +:+ nl
      +:+ "              <voice name='en-US-JennyNeural'>a<b & c</voice>" +:+ nl
      +:+ "            </speak>"
  ∧ charData markupText = false
  ∧ itemText (Item "en" markupText) ≠ escapeXml markupText.
Proof.
  split; [exact escapeXml_charData|].
  repeat split; try (vm_compute; reflexivity).
  vm_compute. discriminate.
Qed.

End SsmlProperties.

(** ** Specified properties of the recognition route *)

Section SttProperties.
Import JsString Stt.

(** C8, as stated, fails: when the identification call does not succeed
    (here a non-ok status, as without a translator credential) the
    bootstrap tag is what the response carries as detected language. *)
Lemma C8_bootstrap_surfaces_counterexample :
  handle (Some "key") (Some "UklGRg==") (Some "auto") (SttOk hola)
         (λ _, DetectNotOk "401")
  = ([Recognize (Some "en-US"); Detect "hola"],
     Recognized "hola" "auto" 1 (Some "en-US")).
Proof. vm_compute. reflexivity. Qed.

(** C8, amended.  With the sentinel "auto" (speech credential configured,
    decodable audio) the recognizer is called first, with the bootstrap
    tag en-US; a recognized non-empty transcript is then submitted to a
    separate language-identification call, and the response's detected
    language is the expansion of the identified code when that call
    succeeds with a code, and the bootstrap tag en-US otherwise.  The
    identified codes are ASCII strings other than the names every object
    inherits (for those [langMap[code]] is not a language tag). *)
Theorem C8_auto_detection (speechKey audioData : option string)
    (stt : stt_reply) (detect : string → detect_reply) :
  truthy speechKey ≠ None →
  truthy audioData ≠ None →
  undecodable (default "" audioData) = false →
  (∀ text code, detect text = DetectOk (Some code) →
     (code ∉ Recorder.inherited) ∧ isAscii code = true) →
  let '(calls, resp) := handle speechKey audioData (Some "auto") stt detect in
  head calls = Some (Recognize (Some "en-US"))
  ∧ ∀ text language confidence detected,
      resp = Recognized text language confidence detected →
      calls = [Recognize (Some "en-US"); Detect text]
      ∧ detected = Some (autoDetected (detect text)).
Proof.
  intros Hk Ha Hd _. unfold handle.
  destruct (truthy audioData); [|done].
  destruct (truthy speechKey); [|done].
  rewrite Hd. rewrite !decide_True by done.
  destruct stt as [m|st e|data]; cbn; [done..|].
  destruct (_ && _); cbn; [|done]. split; [done|].
  intros text language confidence detected [= <- _ _ <-].
  split; [done|]. unfold autoDetected.
  destruct (detect _) as [| |lang]; [done..|]. by destruct (truthy lang).
Qed.

(** The hypotheses of C8 hold of a configured route and a base64 payload;
    an identified code ca expands to ca-CA. *)
Lemma C8_auto_detection_witness :
  truthy (Some "key") ≠ None
  ∧ truthy (Some "UklGRg==") ≠ None
  ∧ (∀ (text code : string),
       (λ _ : string, DetectOk (Some "ca")) text = DetectOk (Some code) →
       (code ∉ Recorder.inherited) ∧ isAscii code = true)
  ∧ undecodable "UklGRg==" = false
  ∧ detectedLanguageOf
      (handle (Some "key") (Some "UklGRg==") (Some "auto") (SttOk hola)
              (λ _, DetectOk (Some "ca"))).2
    = Some "ca-CA".
Proof.
  assert (Hcode : ∀ (text code : string),
            (λ _ : string, DetectOk (Some "ca")) text = DetectOk (Some code) →
            (code ∉ Recorder.inherited) ∧ isAscii code = true).
  { intros _ code [= <-]. split; [|reflexivity].
    unfold Recorder.inherited. intros Hin. set_unfold in Hin.
    repeat (destruct Hin as [Hin|Hin]; [discriminate|]). done. }
  split; [discriminate|]. split; [discriminate|]. split; [exact Hcode|].
  split; [reflexivity|].
  pose proof (C8_auto_detection (Some "key") (Some "UklGRg==") (SttOk hola)
                (λ _, DetectOk (Some "ca"))) as H.
  destruct (handle _ _ _ _ _) as [calls resp] eqn:E.
  destruct H as [_ H]; [discriminate|discriminate|reflexivity|exact Hcode|].
  revert E. vm_compute. intros [= <- <-]. reflexivity.
Defined.

End SttProperties.

(** ** Specified properties of the session state machine *)

Section SessionProperties.
Import Session.

(** C9, as stated, fails: [startRecording] returns at once unless the
    state is idle, so from done a new capture does not start. *)
Lemma C9_done_start_counterexample :
  startRecording done Granted ≠ listening
  ∧ clickRecord done Granted = done.
Proof. split; [discriminate|reflexivity]. Qed.

(** C9, amended.  From done (as from every state but idle)
    [startRecording] leaves the state unchanged; a new capture begins
    from idle, which done reaches through [resetToIdle], and then moves
    to listening. *)
Theorem C9_new_capture_needs_idle :
  (∀ m, startRecording done m = done)
  ∧ (∀ st m, st ≠ idle → startRecording st m = st)
  ∧ startRecording (resetToIdle done) Granted = listening
  ∧ startRecording idle Granted = listening.
Proof.
  repeat split; try done.
  intros st m H. unfold startRecording. by rewrite decide_True.
Qed.

End SessionProperties.

(** ** Specified properties of the synthesis dispatcher *)

Section DispatcherProperties.
Import Dispatcher.

(** The provider call of a fresh call sits behind the older ones. *)
Lemma take_latest {A : Type} (s : state) (l : list (nat * A)) (a : A) :
  Inv s → l.*1 ⊆ pending s → take (nextId s) (l ++ [(nextId s, a)]) = Some (a, l).
Proof.
  intros HI Hsub. apply take_app_fresh. intros H. apply Hsub in H.
  apply (inv_pending _ HI) in H. lia.
Qed.

(** C4.  From a state where the key is not cached and a limiter slot is
    free, two calls of [tts] with the same arguments, the second made
    after the first has returned, issue exactly one provider call: the
    second call is answered from the cache without entering the limiter,
    and both return the same bytes. *)
Theorem C4_second_call_hits_cache (s : state) (r : request) (bytes : Blob) :
  reachable s →
  audioCache s !! key r = None →
  (active s < limit)%nat →
  ∃ s1 s2,
    runEvents [Call r; FetchSettles (nextId s) (FetchResponse true);
         BodySettles (nextId s) (Body bytes)] s = Some s1
    ∧ runEvents [Call r] s1 = Some s2
    ∧ settled s2 !! nextId s = Some (Resolved bytes)
    ∧ settled s2 !! S (nextId s) = Some (Resolved bytes)
    ∧ fetchLog s1 = fetchLog s ++ [(nextId s, r)]
    ∧ fetchLog s2 = fetchLog s1
    ∧ queue s2 = queue s1 ∧ fetching s2 = fetching s1 ∧ active s2 = active s1.
Proof.
  intros Hreach Hmiss Hfree. pose proof (reachable_Inv s Hreach) as HI.
  assert (Hq0 : queue s = []).
  { destruct (queue s) eqn:E; [done|].
    rewrite (inv_queue _ HI) in Hfree by (rewrite E; done). lia. }
  cbn [runEvents step mbind option_bind]. unfold tts at 1. cbn. rewrite Hmiss.
  unfold runLimited. cbn. rewrite decide_True by done.
  unfold fetchSettles. cbn.
  rewrite (take_latest s (fetching s) r HI) by (unfold pending; set_solver).
  cbn. unfold release. cbn. rewrite Hq0. cbn.
  unfold bodySettles. cbn.
  rewrite (take_latest s (reading s) (r, true) HI) by (unfold pending; set_solver).
  cbn. eexists _, _. split; [reflexivity|].
  unfold tts. cbn. rewrite lookup_insert_eq. cbn.
  split; [reflexivity|]. unfold settle. cbn.
  rewrite lookup_insert_ne by lia. rewrite !lookup_insert_eq. done.
Qed.

(** The hypotheses of C4 hold of the initial state of the module. *)
Lemma C4_second_call_hits_cache_witness :
  reachable init
  ∧ audioCache init !! key goodWork = None
  ∧ (active init < limit)%nat
  ∧ ∃ s1 s2,
      runEvents [Call goodWork; FetchSettles 0 (FetchResponse true);
           BodySettles 0 (Body "ID3")] init = Some s1
      ∧ runEvents [Call goodWork] s1 = Some s2
      ∧ settled s2 !! 0%nat = Some (Resolved "ID3")
      ∧ settled s2 !! 1%nat = Some (Resolved "ID3")
      ∧ fetchLog s2 = [(0%nat, goodWork)].
Proof.
  assert (Hr : reachable init) by (exists []; reflexivity).
  split; [exact Hr|]. split; [reflexivity|]. split; [unfold limit; cbn; lia|].
  destruct (C4_second_call_hits_cache init goodWork "ID3" Hr)
    as (s1 & s2 & H1 & H2 & H3 & H4 & H5 & H6 & _);
    [reflexivity|unfold limit; cbn; lia|].
  exists s1, s2. repeat (split; [assumption|]). by rewrite H6, H5.
Defined.

(** A call whose provider call is in flight is pending nowhere else, and
    the queued calls are not in flight. *)
Lemma inflight_unique (s : state) (id : nat) (r : request) (rest : list task) :
  Inv s → take id (fetching s) = Some (r, rest) →
  (id ∉ rest.*1) ∧ (id ∉ (reading s).*1) ∧ (id ∉ (queue s).*1)
  ∧ ∀ t, t ∈ queue s →
         t.1 ≠ id ∧ (t.1 ∉ rest.*1) ∧ (t.1 ∉ (reading s).*1).
Proof.
  intros HI Ht. pose proof (inv_nodup _ HI) as Hnd. unfold pending in Hnd.
  pose proof (take_ids _ _ _ _ Ht) as Hids. rewrite Hids in Hnd.
  apply NoDup_app in Hnd as (Hq & Hqf & Hf).
  rewrite <- app_comm_cons in Hf, Hqf.
  apply NoDup_cons in Hf as [Hid Hf].
  apply NoDup_app in Hf as (_ & Hrr & _).
  split; [set_solver|]. split; [set_solver|]. split.
  - intros H. apply Hqf in H. set_solver.
  - intros t Hin.
    assert (Hin' : t.1 ∈ (queue s).*1) by by apply list_elem_of_fmap_2.
    apply Hqf in Hin'. set_solver.
Qed.

(** C5.  When the provider call of a [tts] call fails, by a rejected
    fetch or by a non-ok response whose text is thrown, the cache is left
    as it was, only the promise of that call is rejected, and the limiter
    goes on: the slot is released and the head of the queue, if any, is
    started; when its own provider call then succeeds, that request is
    resolved and cached as usual. *)
Theorem C5_failure_isolated (s : state) (id : nat) (r : request)
    (rest : list task) (fail : list event) (err : string) :
  reachable s →
  take id (fetching s) = Some (r, rest) →
  fail = [FetchSettles id (FetchError err)]
  ∨ fail = [FetchSettles id (FetchResponse false); BodySettles id (Body err)] →
  ∃ s', runEvents fail s = Some s'
    ∧ audioCache s' = audioCache s
    ∧ settled s' = <[id := Rejected err]> (settled s)
    ∧ (active s' <= limit)%nat
    ∧ match queue s with
      | [] => queue s' = [] ∧ fetching s' = rest ∧ fetchLog s' = fetchLog s
      | t :: q =>
          queue s' = q ∧ fetching s' = rest ++ [t]
          ∧ fetchLog s' = fetchLog s ++ [t]
          ∧ ∀ bytes, ∃ s'',
              runEvents [FetchSettles t.1 (FetchResponse true);
                   BodySettles t.1 (Body bytes)] s' = Some s''
              ∧ settled s'' !! t.1 = Some (Resolved bytes)
              ∧ settled s'' !! id = Some (Rejected err)
              ∧ audioCache s'' = <[key t.2 := bytes]> (audioCache s)
      end.
Proof.
  intros Hreach Ht Hfail. pose proof (reachable_Inv s Hreach) as HI.
  destruct (inflight_unique s id r rest HI Ht) as (Hrest & Hread & Hqueue & Hq).
  pose proof (take_length _ _ _ _ Ht) as Hlen.
  pose proof (inv_active _ HI) as Ha. pose proof (inv_limit _ HI) as Hl.
  set (s1 := State (audioCache s) (active s) (queue s) rest (reading s)
                   (settled s) (fetchLog s) (nextId s)).
  exists (settle id (Rejected err) (release s1)).
  split.
  { destruct Hfail as [-> | ->]; cbn [runEvents step mbind option_bind];
      unfold fetchSettles; rewrite Ht; cbn [mbind option_bind]; fold s1.
    - reflexivity.
    - unfold bodySettles.
      destruct (release_frame s1) as (_ & Hrd & _). cbn [reading].
      rewrite Hrd. change (reading s1) with (reading s).
      rewrite take_app_fresh by done. cbn.
      unfold settle. cbn. change (reading s) with (reading s1).
      rewrite <- Hrd. by destruct (release s1). }
  unfold settle, release, s1. cbn.
  destruct (queue s) as [|[tid tr] q] eqn:Hqs; cbn.
  - repeat split; try done. lia.
  - repeat split; try done; [lia|].
    destruct (Hq (tid, tr)) as (Hne & Htrest & Htread); [set_solver|]. cbn in *.
    intros bytes. unfold fetchSettles. cbn.
    rewrite take_app_fresh by done. cbn.
    unfold bodySettles, release. cbn.
    destruct q as [|t' q']; cbn; rewrite take_app_fresh by done; cbn;
      (eexists; split; [reflexivity|]); unfold settle; cbn;
      rewrite lookup_insert_eq, lookup_insert_ne, lookup_insert_eq by done; done.
Qed.

(** The hypotheses of C5 hold of [fourCalls], where the fetch of the first
    request is rejected. *)
Lemma C5_failure_isolated_witness :
  reachable fourCalls
  ∧ take 0%nat (fetching fourCalls)
    = Some (phrase 1, [(1%nat, phrase 2); (2%nat, phrase 3)])
  ∧ ∃ s', runEvents [FetchSettles 0 (FetchError "Failed to fetch")] fourCalls = Some s'
      ∧ audioCache s' = audioCache fourCalls
      ∧ settled s' = <[0%nat := Rejected "Failed to fetch"]> (settled fourCalls)
      ∧ (active s' <= limit)%nat.
Proof.
  assert (Hr : reachable fourCalls).
  { exists (Call <$> [phrase 1; phrase 2; phrase 3; phrase 4]). reflexivity. }
  split; [exact Hr|]. split; [reflexivity|].
  destruct (C5_failure_isolated fourCalls 0 (phrase 1)
              [(1%nat, phrase 2); (2%nat, phrase 3)]
              [FetchSettles 0 (FetchError "Failed to fetch")]
              "Failed to fetch" Hr eq_refl (or_introl eq_refl))
    as (s' & H1 & H2 & H3 & H4 & _).
  exists s'. repeat (split; [assumption|]). assumption.
Defined.

(** C6.  K > 3 requests submitted back to back, followed by any
    settlements: at every point of the run at most 3 provider calls are
    in flight ([active] counts them); the calls issued so far followed by
    the queue are the requests in submission order, so queued requests
    start in that order; after [n] provider calls have settled exactly
    [min K (3 + n)] requests have started; while a request is queued some
    provider call is in flight and each in-flight call may settle; and
    once nothing is pending every one of the K requests has settled. *)
Theorem C6_limiter_bounded_fifo_complete (rs : list request)
    (evs : list event) (s : state) :
  (3 < length rs)%nat →
  Forall (λ e, isCall e = false) evs →
  runEvents ((Call <$> rs) ++ evs) init = Some s →
  (∀ pre post s', (Call <$> rs) ++ evs = pre ++ post →
                  runEvents pre init = Some s' →
                  (active s' <= 3)%nat ∧ active s' = length (fetching s'))
  ∧ fetchLog s ++ queue s = tasksFrom 0 rs
  ∧ length (fetchLog s) = Nat.min (length rs) (3 + fetchesSettled evs)
  ∧ (queue s ≠ [] → fetching s ≠ [])
  ∧ (∀ t res, t ∈ fetching s → is_Some (step (FetchSettles t.1 res) s))
  ∧ (queue s = [] → fetching s = [] → reading s = [] →
     ∀ id, (id < length rs)%nat → is_Some (settled s !! id)).
Proof.
  intros HK Hev Hrun.
  destruct (calls_run_order rs init Inv_init) as (s0 & Hrun0 & Ho0 & Hc0 & _ & Hn0).
  { intros r _. apply lookup_empty. }
  rewrite runEvents_app, Hrun0 in Hrun. cbn [mbind option_bind] in Hrun.
  assert (HI0 : Inv s0) by (eapply Inv_run; [apply Inv_init|exact Hrun0]).
  assert (HI : Inv s) by (eapply Inv_run; [exact HI0|exact Hrun]).
  destruct (settle_run_order evs s0 s HI0 Hev Hrun) as (Ho & Hc & Hn).
  pose proof (inv_active _ HI) as Ha. pose proof (inv_limit _ HI) as Hl.
  pose proof (inv_queue _ HI) as Hq. unfold limit in *.
  cbn in Ho0, Hc0, Hn0.
  assert (Htasks : fetchLog s ++ queue s = tasksFrom 0 rs) by congruence.
  assert (HlenK : (length (fetchLog s) + length (queue s) = length rs)%nat).
  { rewrite <- length_app, Htasks. apply length_tasksFrom. }
  split.
  { intros pre post s' _ Hpre.
    assert (HI' : Inv s') by (eapply Inv_run; [apply Inv_init|exact Hpre]).
    pose proof (inv_limit _ HI'). pose proof (inv_active _ HI').
    unfold limit in *. done. }
  split; [exact Htasks|]. split.
  { destruct (queue s) as [|t q] eqn:Hqs; cbn [length] in HlenK.
    - lia.
    - rewrite Hq in * by done. lia. }
  split.
  { intros Hne Hf. apply Hq in Hne. rewrite Hf in Ha. cbn in Ha. lia. }
  split.
  { intros t res Ht. cbn [step]. unfold fetchSettles.
    destruct (take_is_Some t.1 (fetching s)) as [[r rest] ->];
      [by apply list_elem_of_fmap_2|]. cbn. eauto. }
  intros Hq0 Hf0 Hr0 id Hid.
  destruct (inv_cover _ HI id) as [Hp|Hs]; [lia| |exact Hs].
  unfold pending in Hp. rewrite Hq0, Hf0, Hr0 in Hp. by apply elem_of_nil in Hp.
Qed.

(** The hypotheses of C6 hold of [fiveRequests] followed by
    [someSettlements]: all five requests have started, in order. *)
Lemma C6_limiter_bounded_fifo_complete_witness :
  ∃ s, (3 < length fiveRequests)%nat
    ∧ Forall (λ e, isCall e = false) someSettlements
    ∧ runEvents ((Call <$> fiveRequests) ++ someSettlements) init = Some s
    ∧ fetchLog s ++ queue s = tasksFrom 0 fiveRequests
    ∧ length (fetchLog s) = 5%nat
    ∧ (active s <= 3)%nat.
Proof.
  eexists. split; [cbn; lia|]. split; [repeat constructor|].
  split; [vm_compute; reflexivity|].
  match goal with |- context [fetchLog ?s ++ _] => set (final := s) end.
  destruct (C6_limiter_bounded_fifo_complete fiveRequests someSettlements final)
    as (Hb & Ho & Hc & _).
  - cbn. lia.
  - repeat constructor.
  - vm_compute. reflexivity.
  - split; [exact Ho|]. split; [exact Hc|].
    apply (Hb ((Call <$> fiveRequests) ++ someSettlements) [] final);
      [by rewrite app_nil_r|].
    vm_compute. reflexivity.
Defined.

(** C10.  The key [locale:voice:text] does not determine the triple: two
    different requests share the key "en:US:x:y", and after the first has
    been synthesized a call for the second is answered with the first
    one's audio, without a provider call. *)
Theorem C10_key_not_injective :
  ∃ r1 r2 : request,
    r1 ≠ r2
    ∧ key r1 = key r2
    ∧ ∀ bytes, ∃ s,
        runEvents [Call r1; FetchSettles 0 (FetchResponse true);
             BodySettles 0 (Body bytes); Call r2] init = Some s
        ∧ settled s !! 1%nat = Some (Resolved bytes)
        ∧ fetchLog s = [(0%nat, r1)]
        ∧ fetching s = [] ∧ queue s = [].
Proof.
  exists (Request "y" "US:x" "en"), (Request "y" "x" "en:US").
  split; [discriminate|]. split; [reflexivity|].
  intros bytes. eexists. split; [vm_compute; reflexivity|].
  vm_compute. done.
Qed.

End DispatcherProperties.

(** * Further properties of the code *)

From stdpp Require Import sorting.

Local Open Scope Z_scope.

(** ** The encoder's output, byte by byte *)

Section WavBytes.
Import Js DataView Encoder Wav.




End WavBytes.

Section Wav64Bytes.
Import Js DataView Encoder Wav Double Encoder64 Wav64.

(** X1.  For every decoded buffer the container returned by
    [audioBufferToWav] is the 44-byte header for [newLength] samples, then
    the retained samples [start .. end] as little-endian 16-bit words, then
    zero bytes up to [44 + newLength * 2]; the sample count, the source
    index of a sample and its scaling are those of double precision, as
    the code computes them. *)
Theorem X1_wav_bytes (b : AudioBuffer) :
  decoded b →
  audioBufferToWav b
  = Some (headerBytes (newLength b)
          ++ pcm b (Z.to_nat (retained b)) (trimStart b)
          ++ replicate (Z.to_nat (2 * (newLength b - retained b))) 0).
Proof. intros Hd. apply audioBufferToWav64_bytes, decoded_rate, Hd. Qed.

(** The hypothesis of X1 holds of [sevenSamples]: twelve output samples
    are declared (the quotient is 12.499999999999998), 68 bytes. *)
Lemma X1_wav_bytes_witness :
  decoded sevenSamples
  ∧ newLength sevenSamples = 12
  ∧ audioBufferToWav sevenSamples
    = Some (headerBytes 12
            ++ [255; 63; 255; 63; 0; 0; 0; 0; 0; 224; 0; 224; 0; 0; 0; 0;
                255; 15]
            ++ [0; 0; 0; 0; 0; 0]).
Proof.
  assert (Hd : decoded sevenSamples).
  { split; [by vm_compute|]. split; [by vm_compute|]. split; [by vm_compute|].
    split; [by vm_compute|].
    match goal with
    | |- Forall _ ?l => let l' := eval vm_compute in l in change l with l'
    end.
    repeat (apply Forall_cons_2; [by vm_compute|]). apply Forall_nil_2. }
  split; [exact Hd|]. split; [by vm_compute|].
  rewrite (X1_wav_bytes sevenSamples Hd).
  vm_compute. reflexivity.
Defined.

End Wav64Bytes.

(** ** Header fields, trimming range and quantization *)

Section EncoderMore.
Import Js DataView Encoder Wav.




End EncoderMore.

Section EncoderTrim.
Import Js DataView Encoder Wav.







(** Truncation towards zero stays between integer bounds on either side of
    zero. *)
Lemma trunc_bounds (x : Q) (lo hi : Z) :
  lo <= 0 <= hi → (inject_Z lo <= x)%Q → (x <= inject_Z hi)%Q →
  lo <= trunc x <= hi.
Proof.
  destruct x as [p d]. unfold trunc, Qle. cbn [Qnum Qden inject_Z].
  intros Hz Hlo Hhi. rewrite !Z.mul_1_r in *.
  destruct (Z_lt_le_dec p 0) as [Hneg|Hpos].
  - replace p with (- (- p)) by lia. rewrite Z.quot_opp_l by lia.
    rewrite Z.quot_div_nonneg by lia.
    assert (0 <= - p / Z.pos d) by (apply Z.div_pos; lia).
    assert (- p / Z.pos d <= - lo).
    { apply Z.div_le_upper_bound; lia. }
    lia.
  - rewrite Z.quot_div_nonneg by lia.
    assert (0 <= p / Z.pos d) by (apply Z.div_pos; lia).
    assert (p / Z.pos d <= hi).
    { apply Z.div_le_upper_bound; lia. }
    lia.
Qed.

Lemma quantize_range (x : Q) :
  (inject_Z (-32768) <= quantize x)%Q ∧ (quantize x <= inject_Z 32767)%Q.
Proof.
  unfold quantize, Math_max, Math_min, Js.lt.
  set (m := if Qlt_le_dec x 1 then x else 1%Q).
  assert (Hm : (m <= 1)%Q).
  { unfold m. destruct (Qlt_le_dec x 1); [by apply Qlt_le_weak|apply Qle_refl]. }
  set (smp := if Qlt_le_dec (-1) m then m else (-1)%Q).
  assert (Hs : (-1 <= smp)%Q ∧ (smp <= 1)%Q).
  { unfold smp. destruct (Qlt_le_dec (-1) m).
    - split; [by apply Qlt_le_weak|done].
    - split; [apply Qle_refl|done]. }
  destruct Hs as [Hs1 Hs2].
  destruct (Qle_bool 0 smp) eqn:Hb; cbn [negb].
  - apply Qle_bool_iff in Hb. split.
    + apply Qle_trans with 0%Q; [done|]. by apply Qmult_le_0_compat.
    + setoid_replace (inject_Z 32767) with (1 * 32767)%Q using relation Qeq
        by reflexivity.
      by apply Qmult_le_compat_r.
  - assert (Hneg : (smp < 0)%Q).
    { apply Qnot_le_lt. intros H. apply Qle_bool_iff in H. congruence. }
    split.
    + setoid_replace (inject_Z (-32768)) with (-1 * 32768)%Q using relation Qeq
        by reflexivity.
      by apply Qmult_le_compat_r.
    + apply Qle_trans with 0%Q; [|done].
      setoid_replace 0%Q with (0 * 32768)%Q using relation Qeq by reflexivity.
      apply Qmult_le_compat_r; [by apply Qlt_le_weak|done].
Qed.

Lemma getInt16_le16 (v : Z) (rest : list Z) :
  -32768 <= v <= 32767 → getInt16 0 (le16 v ++ rest) = v.
Proof.
  intros Hv. unfold getInt16, getUint16.
  change (byte_at (le16 v ++ rest) 0) with (v `mod` 256).
  change (byte_at (le16 v ++ rest) (0 + 1)) with ((v / 256) `mod` 256).
  rewrite le16_value.
  destruct (Z_lt_le_dec v 0).
  - replace (v `mod` 65536) with (v + 65536).
    + rewrite decide_False by lia. lia.
    + apply Z.mod_unique_pos with (q := -1); lia.
  - rewrite Z.mod_small by lia. rewrite decide_True by lia. done.
Qed.

(** X4.  Quantization never leaves the signed 16-bit range, so [setInt16]
    never wraps: the word stored for an output index reads back as the
    quantized sample.  Samples at or beyond the clip bounds saturate at
    32767 and -32768. *)
Theorem X4_quantize_int16 (b : AudioBuffer) (i : Z) :
  -32768 <= trunc (quantize (sourceSample b i)) <= 32767
  ∧ getInt16 0 (sampleBytes b i) = trunc (quantize (sourceSample b i))
  ∧ (∀ x, -32768 <= trunc (quantize x) <= 32767)
  ∧ (∀ x, (1 <= x)%Q → trunc (quantize x) = 32767)
  ∧ (∀ x, (x <= -1)%Q → trunc (quantize x) = -32768).
Proof.
  assert (Hall : ∀ x, -32768 <= trunc (quantize x) <= 32767).
  { intros x. destruct (quantize_range x). by apply trunc_bounds. }
  split; [apply Hall|]. split.
  { unfold sampleBytes. rewrite <- (app_nil_r (le16 _)).
    apply getInt16_le16, Hall. }
  split; [exact Hall|]. split.
  - intros x Hx. unfold quantize, Math_max, Math_min.
    destruct (Qlt_le_dec x 1) as [Hlt|_].
    { exfalso. apply (Qlt_irrefl x). by apply Qlt_le_trans with 1%Q. }
    reflexivity.
  - intros x Hx. unfold quantize, Math_max, Math_min.
    destruct (Qlt_le_dec x 1) as [_|Hge].
    2:{ exfalso. apply (Qlt_irrefl 1).
        apply Qle_lt_trans with x; [done|].
        by apply Qle_lt_trans with (-1)%Q. }
    destruct (Qlt_le_dec (-1) x) as [Hlt|_].
    { exfalso. apply (Qlt_irrefl x). by apply Qle_lt_trans with (-1)%Q. }
    reflexivity.
Qed.

End EncoderTrim.

(** ** The two encoders *)

Section TwoEncoders.
Import Js DataView Encoder Wav Double Encoder64 Wav64.

Lemma pcm64_app (b : AudioBuffer) (n m : nat) :
  ∀ i, pcm b (n + m) i = pcm b n i ++ pcm b m (i + Z.of_nat n).
Proof.
  induction n as [|n IH]; intros i.
  - cbn [pcm Nat.add app]. f_equal. lia.
  - cbn [pcm Nat.add]. rewrite IH, <- (assoc_L (++)). do 3 f_equal. lia.
Qed.

(** A run of samples inside a longer run. *)
Lemma pcm64_slice (b : AudioBuffer) (s r n : nat) :
  (s + r <= n)%nat →
  take (2 * r) (drop (2 * s) (pcm b n 0)) = pcm b r (Z.of_nat s).
Proof.
  intros H. replace n with (s + (r + (n - s - r)))%nat by lia.
  rewrite !pcm64_app.
  rewrite drop_app_length' by (by rewrite length_pcm64).
  rewrite take_app_length' by (by rewrite length_pcm64).
  f_equal.
Qed.

(** X7.  The encoder of the speech interface and the encoder of the full
    translator page (which does not trim) return containers of the same
    length with the same header; the first one's data are the second one's
    samples [start .. end], moved to the front and followed by zero bytes.
    The two containers are equal when nothing is trimmed: when no output
    index is above the threshold, or the first and the last both are.
    Both encoders compute in double precision. *)
Theorem X7_trimming_against_plain (b : AudioBuffer) :
  decoded b →
  ∃ samples,
    PlainEncoder.audioBufferToWav b = Some (headerBytes (newLength b) ++ samples)
    ∧ Z.of_nat (length samples) = 2 * newLength b
    ∧ audioBufferToWav b
      = Some (headerBytes (newLength b)
              ++ take (Z.to_nat (2 * retained b))
                      (drop (Z.to_nat (2 * trimStart b)) samples)
              ++ replicate (Z.to_nat (2 * (newLength b - retained b))) 0)
    ∧ ((∀ k, loud b k = false)
       ∨ (0 < newLength b ∧ loud b 0 = true ∧ loud b (newLength b - 1) = true) →
       audioBufferToWav b = PlainEncoder.audioBufferToWav b).
Proof.
  intros Hd. pose proof (decoded_rate b Hd) as Hr.
  pose proof (newLength64_nonneg b Hr) as Hn.
  pose proof (retained64_bounds b Hn) as Hret.
  pose proof (trimStart64_bounds b Hn) as Hs.
  pose proof (trimEnd64_bounds b) as He.
  assert (Hplain : PlainEncoder.audioBufferToWav b
                   = Some (headerBytes (newLength b)
                           ++ pcm b (Z.to_nat (newLength b)) 0)).
  { unfold PlainEncoder.audioBufferToWav, PlainEncoder.encode.
    rewrite header_then_samples64 by lia.
    cbn [fmap option_fmap option_map fst].
    replace (Z.to_nat (2 * (newLength b - Z.of_nat (Z.to_nat (newLength b)))))
      with 0%nat by lia.
    by rewrite app_nil_r. }
  exists (pcm b (Z.to_nat (newLength b)) 0).
  split; [exact Hplain|]. split; [rewrite length_pcm64; lia|]. split.
  - rewrite (audioBufferToWav64_bytes b Hr). do 3 f_equal.
    replace (Z.to_nat (2 * retained b)) with (2 * Z.to_nat (retained b))%nat by lia.
    replace (Z.to_nat (2 * trimStart b))
      with (2 * Z.to_nat (trimStart b))%nat by lia.
    rewrite pcm64_slice; [f_equal; lia|].
    unfold retained in *. lia.
  - intros Hcase.
    assert (H0 : trimStart b = 0 ∧ trimEnd b = newLength b - 1).
    { unfold trimStart, trimEnd. destruct Hcase as [Hq|(Hpos & Hl0 & Hl1)].
      - by rewrite scanForward64_quiet, scanBackward64_quiet.
      - destruct (Z.to_nat (newLength b)) as [|n] eqn:En; [lia|].
        cbn [scanForward scanBackward]. by rewrite Hl0, Hl1. }
    destruct H0 as [H0 H1].
    assert (H2 : retained b = newLength b) by (unfold retained; lia).
    rewrite (audioBufferToWav64_bytes b Hr), Hplain, H0, H2.
    replace (Z.to_nat (2 * (newLength b - newLength b))) with 0%nat by lia.
    by rewrite app_nil_r.
Qed.

(** The hypothesis of X7 holds of [paddedClick], where the trimmed
    container differs from the plain one. *)
Lemma X7_trimming_against_plain_witness :
  decoded paddedClick
  ∧ PlainEncoder.audioBufferToWav paddedClick
    = Some (headerBytes 3 ++ [0; 0; 255; 63; 0; 0])
  ∧ audioBufferToWav paddedClick
    = Some (headerBytes 3 ++ [255; 63; 0; 0; 0; 0])
  ∧ ∃ samples,
      PlainEncoder.audioBufferToWav paddedClick
      = Some (headerBytes (newLength paddedClick) ++ samples)
      ∧ Z.of_nat (length samples) = 2 * newLength paddedClick.
Proof.
  assert (Hd : decoded paddedClick).
  { split; [by vm_compute|]. split; [by vm_compute|]. split; [by vm_compute|].
    split; [by vm_compute|].
    match goal with
    | |- Forall _ ?l => let l' := eval vm_compute in l in change l with l'
    end.
    repeat (apply Forall_cons_2; [by vm_compute|]). apply Forall_nil_2. }
  split; [exact Hd|]. split; [by vm_compute|]. split; [by vm_compute|].
  destruct (X7_trimming_against_plain paddedClick Hd)
    as (samples & H1 & H2 & _).
  exists samples. split; [exact H1|exact H2].
Defined.

End TwoEncoders.

(** ** Resampling *)

Section Resampling.
Import Js DataView Encoder Wav.

Lemma Math_round_integer (z : Z) : Math_round (inject_Z z) = z.
Proof.
  unfold Math_round, Qfloor, Qplus, inject_Z. cbn [Qnum Qden].
  rewrite Z.mul_1_r. change (Z.pos (1 * 2)) with 2.
  symmetry. apply Z.div_unique with (r := 1); lia.
Qed.

Lemma ratio_integer (b : AudioBuffer) (k : Z) :
  (sampleRate b == inject_Z (16000 * k))%Q → (ratio b == inject_Z k)%Q.
Proof.
  intros H. unfold ratio, targetSampleRate. rewrite H, inject_Z_mult. field.
Qed.

(** X5.  When the native rate is [k] times 16 kHz for a positive integer
    [k] (16, 32, 48, 96 kHz), resampling keeps every [k]-th sample, without
    filtering: output index [i] reads input index [i * k], and the output
    has [round(length / k)] samples. *)
Theorem X5_integer_ratio_decimates (b : AudioBuffer) (k : Z) :
  0 < k →
  (sampleRate b == inject_Z (16000 * k))%Q →
  newLength b = (2 * buffer_length b + k) / (2 * k)
  ∧ ∀ i, 0 <= i →
         sourceSample b i = default 0%Q (channelData b !! Z.to_nat (i * k)).
Proof.
  intros Hk Hrate. pose proof (ratio_integer b k Hrate) as Hratio.
  assert (Hk0 : ¬ (inject_Z k == 0)%Q).
  { change 0%Q with (inject_Z 0). rewrite inject_Z_injective. lia. }
  split.
  - unfold newLength, Math_round.
    assert (E : (inject_Z (buffer_length b) / ratio b + (1 # 2)
                 == inject_Z (2 * buffer_length b + k) / inject_Z (2 * k))%Q).
    { rewrite Hratio, inject_Z_plus, !inject_Z_mult. field. done. }
    rewrite E. symmetry. apply Zdiv_Qdiv.
  - intros i Hi. unfold sourceSample.
    assert (E : Math_round (inject_Z i * ratio b) = i * k).
    { unfold Math_round.
      assert (E' : (inject_Z i * ratio b + (1 # 2)
                    == inject_Z (i * k) + (1 # 2))%Q).
      { by rewrite Hratio, inject_Z_mult. }
      rewrite E'. apply Math_round_integer. }
    rewrite E. rewrite decide_True by lia. done.
Qed.

(** The hypotheses of X5 hold of [silence] with [k = 3]. *)
Lemma X5_integer_ratio_decimates_witness :
  0 < 3
  ∧ (sampleRate silence == inject_Z (16000 * 3))%Q
  ∧ newLength silence = (2 * buffer_length silence + 3) / (2 * 3).
Proof.
  split; [lia|]. split; [reflexivity|].
  apply (X5_integer_ratio_decimates silence 3); [lia|reflexivity].
Defined.



End Resampling.

(** ** The dispatcher under arbitrary interleavings *)

Section DispatcherMore.
Import Dispatcher.

(** X8.  Whatever the interleaving of calls and settlements, the limiter's
    counter is the number of provider calls in flight and is at most 3, a
    request waits in the queue only while all three slots are busy, and no
    call is pending in two places at once. *)
Theorem X8_limiter_invariant (evs : list event) (s : state) :
  runEvents evs init = Some s →
  active s = length (fetching s)
  ∧ (active s <= 3)%nat
  ∧ (queue s ≠ [] → active s = 3%nat)
  ∧ NoDup ((queue s).*1 ++ (fetching s).*1 ++ (reading s).*1).
Proof.
  intros Hrun. assert (HI : Inv s) by (apply reachable_Inv; by exists evs).
  destruct HI as [Ha Hl Hq Hn _ _ _]. unfold limit, pending in *. done.
Qed.

(** The hypothesis of X8 holds of a run that interleaves calls and
    settlements. *)
Lemma X8_limiter_invariant_witness :
  ∃ s, runEvents [Call (phrase 1); Call (phrase 2);
                  FetchSettles 0 (FetchResponse true); Call (phrase 3);
                  Call (phrase 4); Call (phrase 5);
                  BodySettles 0 (Body "ID3"); Call (phrase 1)] init = Some s
    ∧ active s = length (fetching s) ∧ (active s <= 3)%nat.
Proof.
  eexists. split; [vm_compute; reflexivity|].
  match goal with |- active ?s = _ ∧ _ => set (final := s) end.
  destruct (X8_limiter_invariant
              [Call (phrase 1); Call (phrase 2);
               FetchSettles 0 (FetchResponse true); Call (phrase 3);
               Call (phrase 4); Call (phrase 5);
               BodySettles 0 (Body "ID3"); Call (phrase 1)] final)
    as (H1 & H2 & _); [vm_compute; reflexivity|].
  split; [exact H1|exact H2].
Defined.

Lemma release_cache (s : state) : audioCache (release s) = audioCache s.
Proof. apply release_frame. Qed.

(** One event changes the cache only when a body has been read. *)
Lemma step_cache (e : event) (s s' : state) :
  step e s = Some s' →
  audioCache s' = audioCache s
  ∨ ∃ id r bytes, e = BodySettles id (Body bytes)
      ∧ (id, (r, true)) ∈ reading s
      ∧ audioCache s' = <[key r := bytes]> (audioCache s).
Proof.
  destruct e as [r|id res|id res]; cbn [step].
  - intros [= <-]. left. unfold tts. cbn.
    destruct (audioCache s !! key r); [done|].
    unfold runLimited. by case_decide.
  - unfold fetchSettles.
    destruct (take id (fetching s)) as [[r rest]|]; cbn; [|done].
    intros [= <-]. left. destruct res; cbn; by rewrite release_cache.
  - unfold bodySettles.
    destruct (take id (reading s)) as [[[r ok] rest]|] eqn:Ht; cbn; [|done].
    intros [= <-]. destruct res as [e|bytes]; [by left|].
    destruct ok; [|by left]. right. exists id, r, bytes.
    split; [done|]. split; [|done].
    apply take_perm in Ht. rewrite Ht. set_solver.
Qed.

(** X9.  The cache never evicts and never forgets: a key that is cached
    stays cached through every later event; and a run in which no response
    body is read (calls, fetch settlements, failed reads) leaves the cache
    exactly as it was. *)
Theorem X9_cache_never_evicts (evs : list event) (s s' : state) (k : string) :
  runEvents evs s = Some s' →
  (is_Some (audioCache s !! k) → is_Some (audioCache s' !! k))
  ∧ (Forall (λ e, ∀ id bytes, e ≠ BodySettles id (Body bytes)) evs →
     audioCache s' = audioCache s).
Proof.
  revert s. induction evs as [|e evs IH]; intros s; cbn [runEvents].
  - by intros [= <-].
  - destruct (step e s) as [s1|] eqn:E; cbn; [|done].
    intros Hrun. destruct (IH s1 Hrun) as [IH1 IH2]. split.
    + intros Hk. apply IH1.
      destruct (step_cache e s s1 E) as [->|(id & r & bytes & _ & _ & ->)]; [done|].
      destruct (decide (key r = k)) as [->|Hne].
      * rewrite lookup_insert_eq. eauto.
      * by rewrite lookup_insert_ne.
    + intros Hev. apply Forall_cons in Hev as [He Hev]. rewrite (IH2 Hev).
      destruct (step_cache e s s1 E) as [->|(id & r & bytes & -> & _)]; [done|].
      by destruct (He id bytes).
Qed.

(** The hypothesis of X9 holds of a state with a cached phrase, followed by
    a failing call for another phrase. *)
Lemma X9_cache_never_evicts_witness :
  ∃ s s', runEvents [Call goodWork; FetchSettles 0 (FetchResponse true);
                     BodySettles 0 (Body "ID3")] init = Some s
    ∧ runEvents [Call (phrase 1); FetchSettles 1 (FetchError "Failed to fetch")]
                s = Some s'
    ∧ is_Some (audioCache s !! key goodWork)
    ∧ is_Some (audioCache s' !! key goodWork)
    ∧ audioCache s' = audioCache s.
Proof.
  eexists _, _. split; [vm_compute; reflexivity|].
  match goal with |- runEvents _ ?s = _ ∧ _ => set (mid := s) end.
  assert (Hrun : runEvents [Call (phrase 1);
                            FetchSettles 1 (FetchError "Failed to fetch")] mid
                 = Some (default init (runEvents [Call (phrase 1);
                            FetchSettles 1 (FetchError "Failed to fetch")] mid)))
    by (vm_compute; reflexivity).
  split; [exact Hrun|].
  assert (H : is_Some (audioCache mid !! key goodWork))
    by (vm_compute; eauto).
  split; [exact H|].
  destruct (X9_cache_never_evicts _ _ _ (key goodWork) Hrun) as [H1 H2].
  split; [exact (H1 H)|]. apply H2. repeat constructor; discriminate.
Defined.

(** One event leaves the settled promises as they are. *)
Lemma step_settled (e : event) (s s' : state) (id : nat) (o : outcome) :
  Inv s → step e s = Some s' →
  settled s !! id = Some o → settled s' !! id = Some o.
Proof.
  intros HI Hstep Hid.
  assert (Hlt : (id < nextId s)%nat) by (apply (inv_settled _ HI); eauto).
  assert (Hpend : ∀ j, j ∈ pending s → j ≠ id).
  { intros j Hj ->. apply (inv_pending _ HI) in Hj as [_ Hnone]. congruence. }
  destruct e as [r|j res|j res]; cbn [step] in Hstep.
  - injection Hstep as <-. unfold tts. cbn.
    destruct (audioCache s !! key r).
    + cbn. rewrite lookup_insert_ne by lia. done.
    + unfold runLimited. by case_decide.
  - unfold fetchSettles in Hstep.
    destruct (take j (fetching s)) as [[r rest]|] eqn:Ht; cbn in Hstep; [|done].
    injection Hstep as <-.
    assert (Hj : j ≠ id).
    { apply Hpend. unfold pending. rewrite (take_ids _ _ _ _ Ht). set_solver. }
    destruct (release_frame (State (audioCache s) (active s) (queue s) rest
                (reading s) (settled s) (fetchLog s) (nextId s)))
      as (_ & _ & Hset & _).
    destruct res; cbn; rewrite Hset; cbn; [|done].
    by rewrite lookup_insert_ne.
  - unfold bodySettles in Hstep.
    destruct (take j (reading s)) as [[[r ok] rest]|] eqn:Ht; cbn in Hstep; [|done].
    injection Hstep as <-.
    assert (Hj : j ≠ id).
    { apply Hpend. unfold pending. rewrite (take_ids _ _ _ _ Ht). set_solver. }
    destruct res as [e|bytes]; [|destruct ok]; cbn; by rewrite lookup_insert_ne.
Qed.

(** X10.  A promise settles once: the outcome a call of [tts] has received
    is never replaced by a later event. *)
Theorem X10_promise_settles_once (evs : list event) (s s' : state)
    (id : nat) (o : outcome) :
  reachable s →
  runEvents evs s = Some s' →
  settled s !! id = Some o →
  settled s' !! id = Some o.
Proof.
  intros Hreach. pose proof (reachable_Inv s Hreach) as HI. clear Hreach.
  revert s HI. induction evs as [|e evs IH]; intros s HI; cbn [runEvents].
  - by intros [= <-].
  - destruct (step e s) as [s1|] eqn:E; cbn; [|done].
    intros Hrun Hid. apply (IH s1 (Inv_step _ _ _ HI E) Hrun).
    by apply (step_settled e s).
Qed.

(** The hypotheses of X10 hold of a rejected call followed by a successful
    one. *)
Lemma X10_promise_settles_once_witness :
  ∃ s s', runEvents [Call goodWork; FetchSettles 0 (FetchError "Failed to fetch")]
                    init = Some s
    ∧ reachable s
    ∧ runEvents [Call goodWork; FetchSettles 1 (FetchResponse true);
                 BodySettles 1 (Body "ID3")] s = Some s'
    ∧ settled s !! 0%nat = Some (Rejected "Failed to fetch")
    ∧ settled s' !! 0%nat = Some (Rejected "Failed to fetch").
Proof.
  eexists _, _. split; [vm_compute; reflexivity|].
  match goal with |- reachable ?s ∧ _ => set (mid := s) end.
  assert (Hr : reachable mid).
  { exists [Call goodWork; FetchSettles 0 (FetchError "Failed to fetch")].
    vm_compute. reflexivity. }
  split; [exact Hr|]. split; [vm_compute; reflexivity|].
  assert (H0 : settled mid !! 0%nat = Some (Rejected "Failed to fetch"))
    by (vm_compute; reflexivity).
  split; [exact H0|].
  refine (X10_promise_settles_once
            [Call goodWork; FetchSettles 1 (FetchResponse true);
             BodySettles 1 (Body "ID3")] mid _ 0%nat _ Hr _ H0).
  vm_compute. reflexivity.
Defined.

Lemma take_middle {A : Type} (id : nat) (l l2 : list (nat * A)) (a : A) :
  id ∉ l.*1 → take id (l ++ (id, a) :: l2) = Some (a, l ++ l2).
Proof.
  induction l as [|[i x] l IH]; intros Hn; cbn [take app].
  - by rewrite decide_True.
  - rewrite decide_False by set_solver.
    rewrite IH by set_solver. done.
Qed.

(** A call that misses the cache while a slot is free is issued at once. *)
Lemma tts_miss_free (r : request) (s : state) :
  audioCache s !! key r = None →
  (active s < limit)%nat →
  tts r s = State (audioCache s) (S (active s)) (queue s)
              (fetching s ++ [(nextId s, r)]) (reading s) (settled s)
              (fetchLog s ++ [(nextId s, r)]) (S (nextId s)).
Proof.
  intros Hmiss Hfree. unfold tts. cbn [audioCache]. rewrite Hmiss.
  unfold runLimited. cbn [active]. rewrite decide_True by done. reflexivity.
Qed.

(** X11.  No single-flight: when the same arguments are passed to [tts]
    twice before the first call completes, both calls reach the provider.
    Each caller is resolved with the bytes of its own response, which need
    not be the same, and the cache keeps those read last. *)
Theorem X11_racing_duplicates (s : state) (r : request) (b1 b2 : Blob) :
  reachable s →
  audioCache s !! key r = None →
  (active s + 2 <= limit)%nat →
  ∃ s', runEvents [Call r; Call r;
                   FetchSettles (nextId s) (FetchResponse true);
                   BodySettles (nextId s) (Body b1);
                   FetchSettles (S (nextId s)) (FetchResponse true);
                   BodySettles (S (nextId s)) (Body b2)] s = Some s'
    ∧ fetchLog s' = fetchLog s ++ [(nextId s, r); (S (nextId s), r)]
    ∧ settled s' !! nextId s = Some (Resolved b1)
    ∧ settled s' !! S (nextId s) = Some (Resolved b2)
    ∧ audioCache s' !! key r = Some b2.
Proof.
  intros Hreach Hmiss Hfree. pose proof (reachable_Inv s Hreach) as HI.
  assert (Hq0 : queue s = []).
  { destruct (queue s) eqn:E; [done|].
    rewrite (inv_queue _ HI) in Hfree by (rewrite E; done). lia. }
  assert (H' : ∀ j, j ∈ pending s → (j < nextId s)%nat).
  { intros j Hj. by apply (inv_pending _ HI) in Hj as [? _]. }
  assert (Hf : (nextId s ∉ (fetching s).*1) ∧ (S (nextId s) ∉ (fetching s).*1)
               ∧ (nextId s ∉ (reading s).*1) ∧ (S (nextId s) ∉ (reading s).*1)).
  { split; [|split; [|split]]; intros H.
    - apply (Nat.lt_irrefl (nextId s)), H'. unfold pending. set_solver.
    - apply (Nat.nlt_succ_diag_l (nextId s)), H'. unfold pending. set_solver.
    - apply (Nat.lt_irrefl (nextId s)), H'. unfold pending. set_solver.
    - apply (Nat.nlt_succ_diag_l (nextId s)), H'. unfold pending. set_solver. }
  destruct Hf as (Hf1 & Hf2 & Hr1 & Hr2).
  clear Hreach HI H'.
  destruct s as [c a q f rd st lg n]. cbn in Hmiss, Hfree, Hq0, Hf1, Hf2, Hr1, Hr2.
  subst q. cbn [runEvents step nextId mbind option_bind].
  rewrite (tts_miss_free r (State c a [] f rd st lg n))
    by (cbn; first [done | unfold limit in *; lia]).
  cbn [audioCache active queue fetching reading settled fetchLog nextId].
  rewrite tts_miss_free by (cbn; first [done | unfold limit in *; lia]).
  cbn [audioCache active queue fetching reading settled fetchLog nextId].
  unfold fetchSettles, bodySettles, release, exec, settle.
  cbn [audioCache active queue fetching reading settled fetchLog nextId].
  rewrite <- (assoc_L (++) f). cbn [app].
  rewrite (take_middle n f [(S n, r)] r) by done.
  cbn [mbind option_bind audioCache active queue fetching reading settled
       fetchLog nextId fst snd].
  rewrite take_app_fresh by done.
  cbn [mbind option_bind audioCache active queue fetching reading settled
       fetchLog nextId fst snd].
  rewrite take_app_fresh by done.
  cbn [mbind option_bind audioCache active queue fetching reading settled
       fetchLog nextId fst snd].
  rewrite take_app_fresh by done.
  cbn [mbind option_bind audioCache active queue fetching reading settled
       fetchLog nextId fst snd].
  eexists. split; [reflexivity|].
  cbn [audioCache active queue fetching reading settled fetchLog nextId].
  split; [by rewrite <- (assoc_L (++))|].
  rewrite lookup_insert_ne by lia. rewrite !lookup_insert_eq. done.
Qed.

(** The hypotheses of X11 hold of the initial state. *)
Lemma X11_racing_duplicates_witness :
  reachable init
  ∧ audioCache init !! key goodWork = None
  ∧ (active init + 2 <= limit)%nat
  ∧ ∃ s', runEvents [Call goodWork; Call goodWork;
                     FetchSettles 0 (FetchResponse true);
                     BodySettles 0 (Body "ID3a");
                     FetchSettles 1 (FetchResponse true);
                     BodySettles 1 (Body "ID3b")] init = Some s'
      ∧ fetchLog s' = [(0%nat, goodWork); (1%nat, goodWork)]
      ∧ audioCache s' !! key goodWork = Some "ID3b".
Proof.
  assert (Hr : reachable init) by (exists []; reflexivity).
  split; [exact Hr|]. split; [reflexivity|]. split; [unfold limit; cbn; lia|].
  destruct (X11_racing_duplicates init goodWork "ID3a" "ID3b" Hr)
    as (s' & H1 & H2 & _ & _ & H5); [reflexivity|unfold limit; cbn; lia|].
  exists s'. split; [exact H1|]. split; [exact H2|exact H5].
Defined.

(** A call that hits the cache issues nothing and queues nothing. *)
Lemma tts_hit_order (r : request) (s : state) (blob : Blob) :
  audioCache s !! key r = Some blob →
  fetchLog (tts r s) = fetchLog s ∧ queue (tts r s) = queue s
  ∧ nextId (tts r s) = S (nextId s).
Proof. intros H. unfold tts. cbn. by rewrite H. Qed.

(** The ranks of the issued and the queued provider calls increase. *)
Lemma order_step (e : event) (s s' : state) :
  Inv s → step e s = Some s' →
  StronglySorted lt ((fetchLog s ++ queue s).*1)
  ∧ Forall (λ i, (i < nextId s)%nat) ((fetchLog s ++ queue s).*1) →
  StronglySorted lt ((fetchLog s' ++ queue s').*1)
  ∧ Forall (λ i, (i < nextId s')%nat) ((fetchLog s' ++ queue s').*1).
Proof.
  intros HI Hstep [Hs Hb].
  destruct (isCall e) eqn:Hc.
  - destruct e as [r| |]; [|done..]. cbn [step] in Hstep. injection Hstep as <-.
    destruct (audioCache s !! key r) as [blob|] eqn:Hk.
    + destruct (tts_hit_order r s blob Hk) as (-> & -> & ->).
      split; [done|]. eapply Forall_impl; [exact Hb|]. cbn. lia.
    + destruct (tts_miss_order r s HI Hk) as (-> & _ & _ & ->).
      rewrite fmap_app. cbn [fmap list_fmap fst]. split.
      * apply StronglySorted_app. split; [|split; [done|repeat constructor]].
        intros x1 x2 H1 H2. assert (x2 = nextId s) as -> by set_solver.
        by apply (proj1 (Forall_forall _ _) Hb).
      * apply Forall_app. split; [|repeat constructor].
        eapply Forall_impl; [exact Hb|]. cbn. lia.
  - destruct (settle_step_order e s s' HI Hc Hstep) as (-> & _ & ->). done.
Qed.

(** X12.  Provider calls start in call order under every interleaving of
    calls and settlements: the ranks of the calls issued so far, followed
    by those waiting in the queue, are strictly increasing, so a call is
    never issued before an earlier call that also missed the cache. *)
Theorem X12_calls_start_in_order (evs : list event) (s : state) :
  runEvents evs init = Some s →
  StronglySorted lt ((fetchLog s ++ queue s).*1)
  ∧ Forall (λ i, (i < nextId s)%nat) ((fetchLog s ++ queue s).*1).
Proof.
  assert (Hgen : ∀ evs s0 s1, Inv s0 → runEvents evs s0 = Some s1 →
            StronglySorted lt ((fetchLog s0 ++ queue s0).*1)
            ∧ Forall (λ i, (i < nextId s0)%nat) ((fetchLog s0 ++ queue s0).*1) →
            StronglySorted lt ((fetchLog s1 ++ queue s1).*1)
            ∧ Forall (λ i, (i < nextId s1)%nat) ((fetchLog s1 ++ queue s1).*1)).
  { clear. induction evs as [|e evs IH]; intros s0 s1 HI; cbn [runEvents].
    - by intros [= <-].
    - destruct (step e s0) as [s2|] eqn:E; cbn; [|done].
      intros Hrun H0. apply (IH s2 s1 (Inv_step _ _ _ HI E) Hrun).
      by apply (order_step e s0). }
  intros Hrun. apply (Hgen evs init s Inv_init Hrun).
  cbn. split; constructor.
Qed.

(** The hypothesis of X12 holds of five calls and some settlements. *)
Lemma X12_calls_start_in_order_witness :
  ∃ s, runEvents ((Call <$> fiveRequests) ++ someSettlements) init = Some s
    ∧ StronglySorted lt ((fetchLog s ++ queue s).*1).
Proof.
  eexists. split; [vm_compute; reflexivity|].
  match goal with |- StronglySorted _ ((fetchLog ?s ++ _).*1) => set (final := s) end.
  apply (X12_calls_start_in_order ((Call <$> fiveRequests) ++ someSettlements) final).
  vm_compute. reflexivity.
Defined.

(** Calls that miss the cache while slots are free are issued at once. *)
Lemma calls_below_limit (rs : list request) :
  ∀ s, queue s = [] →
    (active s + length rs <= limit)%nat →
    (∀ r, r ∈ rs → audioCache s !! key r = None) →
    ∃ s', runEvents (Call <$> rs) s = Some s'
      ∧ queue s' = []
      ∧ fetchLog s' = fetchLog s ++ tasksFrom (nextId s) rs
      ∧ fetching s' = fetching s ++ tasksFrom (nextId s) rs
      ∧ active s' = (active s + length rs)%nat
      ∧ settled s' = settled s.
Proof.
  induction rs as [|r rs IH]; intros s Hq Hroom Hmiss;
    cbn [fmap list_fmap runEvents tasksFrom step mbind option_bind length]
    in *.
  - exists s. rewrite !app_nil_r.
    split; [done|]. split; [done|]. split; [done|]. split; [done|].
    split; [lia|done].
  - assert (Hr : audioCache s !! key r = None) by (apply Hmiss; set_solver).
    rewrite tts_miss_free by (done || lia).
    destruct (IH (State (audioCache s) (S (active s)) (queue s)
              (fetching s ++ [(nextId s, r)]) (reading s) (settled s)
              (fetchLog s ++ [(nextId s, r)]) (S (nextId s))))
      as (s' & Hrun & H1 & H2 & H3 & H4 & H5); cbn; [done|lia| |].
    { intros r' Hr'. apply Hmiss. set_solver. }
    cbn in H2, H3, H4, H5.
    exists s'. split; [exact Hrun|]. split; [done|].
    rewrite H2, H3, <- !(assoc_L (++)).
    split; [done|]. split; [done|]. split; [lia|done].
Qed.

(** X13.  Below the limit nothing waits: up to three requests submitted
    back to back to an idle dispatcher are all issued at once, in
    submission order, the queue stays empty and no promise is settled
    before a provider call returns. *)
Theorem X13_below_limit_nothing_queues (rs : list request) :
  (length rs <= limit)%nat →
  ∃ s, runEvents (Call <$> rs) init = Some s
    ∧ queue s = []
    ∧ fetchLog s = tasksFrom 0 rs
    ∧ fetching s = tasksFrom 0 rs
    ∧ active s = length rs
    ∧ settled s = ∅.
Proof.
  intros Hlen.
  destruct (calls_below_limit rs init) as (s & Hrun & H1 & H2 & H3 & H4 & H5);
    [done|cbn; lia|intros r _; apply lookup_empty|].
  exists s. cbn in H2, H3, H4, H5. done.
Qed.

(** The hypothesis of X13 holds of three phrases. *)
Lemma X13_below_limit_nothing_queues_witness :
  ∃ s, runEvents (Call <$> [phrase 0; phrase 1; phrase 2]) init = Some s
    ∧ queue s = []
    ∧ fetchLog s = tasksFrom 0 [phrase 0; phrase 1; phrase 2].
Proof.
  destruct (X13_below_limit_nothing_queues [phrase 0; phrase 1; phrase 2])
    as (s & H1 & H2 & H3 & _); [unfold limit; cbn; lia|].
  exists s. split; [exact H1|]. split; [exact H2|exact H3].
Defined.

End DispatcherMore.

(** ** The /api/stt route *)

Section SttMore.
Import JsString Stt.

Lemma numOr_nonzero (a : option Q) (b : Q) : ¬ (b == 0)%Q → ¬ (numOr a b == 0)%Q.
Proof.
  intros Hb. unfold numOr. destruct a as [x|]; [|done].
  destruct (Qeq_bool x 0) eqn:E; [done|].
  by apply Qeq_bool_neq.
Qed.

(** X14.  What a recognized response guarantees.  Whenever the route
    answers with a transcript, the recognizer answered ok with status
    Success (or success), the transcript is its display text (or that of
    the first alternative), it is not blank, the language echoed is the
    requested one (auto when none was given), and the confidence is never
    zero: a missing or zero confidence of the recognizer is reported
    as that of the first alternative, and as 1.0 when that is missing or
    zero as well. *)
Theorem X14_recognized_response (speechKey audioData language : option string)
    (stt : stt_reply) (detect : string → detect_reply)
    (calls : list provider_call) (text lang : string) (conf : Q)
    (det : option string) :
  handle speechKey audioData language stt detect
    = (calls, Recognized text lang conf det) →
  (∃ data, stt = SttOk data
     ∧ (RecognitionStatus data = "Success" ∨ RecognitionStatus data = "success")
     ∧ text = or_ (DisplayText data) (or_ (NBest0Display data) "")
     ∧ conf = numOr (Confidence data) (numOr (NBest0Confidence data) 1))
  ∧ trim text ≠ ""
  ∧ lang = or_ language "auto"
  ∧ ¬ (conf == 0)%Q
  ∧ head calls = Some (Recognize (if decide (language = Some "auto")
                                  then Some "en-US" else language)).
Proof.
  unfold handle.
  destruct (truthy audioData); [|done].
  destruct (truthy speechKey); [|done].
  destruct (undecodable _); [done|].
  destruct stt as [m|st e|data]; [done..|].
  destruct (bool_decide (RecognitionStatus data = "Success" ∨ _)) eqn:Es;
    cbn [andb]; [|done].
  destruct (bool_decide (or_ _ _ ≠ "")) eqn:Et; cbn [andb]; [|done].
  destruct (bool_decide (trim _ ≠ "")) eqn:Eb; [|done].
  apply bool_decide_eq_true in Es, Eb.
  destruct (decide (language = Some "auto")) as [Hl|Hl];
    intros [= <- <- <- <- <-].
  - split; [by exists data|]. split; [done|]. split; [done|].
    split; [|done]. by do 2 apply numOr_nonzero.
  - split; [by exists data|]. split; [done|]. split; [done|].
    split; [|done]. by do 2 apply numOr_nonzero.
Qed.

(** The hypothesis of X14 holds of a French request answered with a
    transcript whose confidence is reported as zero. *)
Lemma X14_recognized_response_witness :
  handle (Some "key") (Some "UklGRg==") (Some "fr-FR")
    (SttOk {| RecognitionStatus := "Success"; DisplayText := Some "bonjour";
              NBest0Display := None; Confidence := Some 0%Q;
              NBest0Confidence := None |})
    (λ _, DetectThrows)
  = ([Recognize (Some "fr-FR")], Recognized "bonjour" "fr-FR" 1 (Some "fr-FR"))
  ∧ trim "bonjour" ≠ "".
Proof.
  assert (H : handle (Some "key") (Some "UklGRg==") (Some "fr-FR")
    (SttOk {| RecognitionStatus := "Success"; DisplayText := Some "bonjour";
              NBest0Display := None; Confidence := Some 0%Q;
              NBest0Confidence := None |})
    (λ _, DetectThrows)
  = ([Recognize (Some "fr-FR")], Recognized "bonjour" "fr-FR" 1 (Some "fr-FR")))
    by (vm_compute; reflexivity).
  split; [exact H|].
  exact (proj1 (proj2 (X14_recognized_response _ _ _ _ _ _ _ _ _ _ H))).
Defined.

(** X15.  The discipline of outbound provider calls.  No provider is
    called exactly when the audio is missing, the speech credential is
    missing, or a data URL has no comma; otherwise the recognizer is
    called once, first, and with the requested tag as it is (en-US for the
    sentinel auto).  The language-identification provider is called at
    most once, only for the sentinel auto, only after a recognized
    transcript and with that transcript; a request with a concrete tag
    gets this tag back as the detected language. *)
Theorem X15_provider_calls (speechKey audioData language : option string)
    (stt : stt_reply) (detect : string → detect_reply) :
  let r := handle speechKey audioData language stt detect in
  let finalLanguage :=
    if decide (language = Some "auto") then Some "en-US" else language in
  (r.1 = [] ↔ truthy audioData = None ∨ truthy speechKey = None
              ∨ undecodable (default "" audioData) = true)
  ∧ (r.1 = [] ∨ r.1 = [Recognize finalLanguage]
     ∨ ∃ text lang conf det,
         language = Some "auto"
         ∧ r = ([Recognize finalLanguage; Detect text],
                Recognized text lang conf det))
  ∧ (language ≠ Some "auto" →
       (∀ text, Detect text ∉ r.1)
       ∧ ∀ text lang conf det,
           r.2 = Recognized text lang conf det → det = language).
Proof.
  cbn zeta. unfold handle.
  destruct (truthy audioData) as [a|]; [|cbn; split; [naive_solver|]; split;
    [by left|]; intros _; split; [set_solver|done]].
  destruct (truthy speechKey) as [k|]; [|cbn; split; [naive_solver|]; split;
    [by left|]; intros _; split; [set_solver|done]].
  destruct (undecodable _); [cbn; split; [naive_solver|]; split;
    [by left|]; intros _; split; [set_solver|done]|].
  destruct stt as [m|st e|data].
  - cbn. split; [naive_solver|]. split; [by right; left|].
    intros _. split; [set_solver|done].
  - cbn. split; [naive_solver|]. split; [by right; left|].
    intros _. split; [set_solver|done].
  - destruct (_ && _ && _).
    + destruct (decide (language = Some "auto")) as [Hl|Hl]; cbn.
      * split; [naive_solver|]. split; [right; right; eauto 10|]. done.
      * split; [naive_solver|]. split; [by right; left|].
        intros _. split; [set_solver|]. by intros ???? [= _ _ _ <-].
    + cbn. split; [naive_solver|]. split; [by right; left|].
      intros _. split; [set_solver|done].
Qed.

End SttMore.

(** ** The recorder and the /api/stt route together *)

Section RecorderAndRoute.
Import JsString Stt Recorder.

Lemma includes_app_r (sub p s : string) :
  includes sub s = true → includes sub (p +:+ s) = true.
Proof.
  intros H. induction p as [|a p IH]; [done|].
  change (String a p +:+ s) with (String a (p +:+ s)).
  cbn [includes]. rewrite IH. apply orb_true_r.
Qed.

Lemma includes_prefix (sub s : string) : includes sub (sub +:+ s) = true.
Proof.
  destruct (sub +:+ s) eqn:E; cbn [includes]; rewrite <- E, prefix_append; done.
Qed.

(** A recording's data URL is never taken for undecodable. *)
Lemma audioData_decodable (base64Audio : string) :
  truthy (Some (audioData base64Audio)) = Some (audioData base64Audio)
  ∧ undecodable (audioData base64Audio) = false.
Proof.
  split; [done|]. unfold undecodable.
  replace (includes "," (audioData base64Audio)) with true; [by rewrite andb_false_r|].
  symmetry. apply (includes_app_r "," "data:audio/wav;base64" ("," +:+ base64Audio)).
  apply includes_prefix.
Qed.

(** The route on a request of the recorder. *)
Lemma handle_recording (speechKey : option string) (base64Audio : string)
    (stt : stt_reply) (detect : string → detect_reply) :
  truthy speechKey ≠ None →
  handle speechKey (Some (audioData base64Audio)) (Some requestedLanguage)
         stt detect
  = match stt with
    | SttThrows message => ([Recognize (Some "en-US")], ServerError message)
    | SttNotOk status errorText =>
        ([Recognize (Some "en-US")],
         RecognitionFailed status (substring 100 errorText))
    | SttOk data =>
        let displayText :=
          or_ (DisplayText data) (or_ (NBest0Display data) "") in
        if bool_decide (RecognitionStatus data = "Success"
                        ∨ RecognitionStatus data = "success")
           && bool_decide (displayText ≠ "")
           && bool_decide (trim displayText ≠ "")
        then ([Recognize (Some "en-US"); Detect displayText],
              Recognized displayText "auto"
                (numOr (Confidence data) (numOr (NBest0Confidence data) 1))
                (Some (autoDetected (detect displayText))))
        else ([Recognize (Some "en-US")], NoSpeech "auto")
    end.
Proof.
  intros Hk. destruct (audioData_decodable base64Audio) as [Ht Hd].
  unfold handle, requestedLanguage. rewrite Ht.
  destruct (truthy speechKey); [|done].
  cbn [default from_option id]. rewrite Hd.
  destruct (decide (Some "auto" = Some "auto")) as [_|?]; [|done].
  destruct stt as [m|st e|data]; [done..|].
  cbn zeta. destruct (_ && _ && _); [|done].
  unfold autoDetected.
  destruct (detect _) as [| |lang]; [done..|]. by destruct (truthy lang).
Qed.

(** X16.  Recorder and route agree.  With a speech credential
    configured, every request the recorder posts (a data URL of the
    encoded recording, language auto) passes the route's checks and
    reaches the recognizer, with the bootstrap tag en-US; and the recorder
    goes on to request a translation exactly when the route answers with a
    recognized transcript, of that transcript: its own test of the text
    never rejects what the route recognized.  The codes the language
    identification yields are ASCII strings other than the names every
    object inherits (for those [langMap[code]] is no language tag, and
    the recorder sends no [from] or fails on the answer). *)
Theorem X16_recorder_reaches_recognizer (speechKey : option string)
    (base64Audio : string) (stt : stt_reply) (detect : string → detect_reply) :
  truthy speechKey ≠ None →
  (∀ text code, detect text = DetectOk (Some code) →
     (code ∉ inherited) ∧ isAscii code = true) →
  let r := handle speechKey (Some (audioData base64Audio))
                  (Some requestedLanguage) stt detect in
  head r.1 = Some (Recognize (Some "en-US"))
  ∧ ∀ text from,
      afterStt r.2 = TranslateRequest text from
      ↔ ∃ lang conf det, r.2 = Recognized text lang conf det
                         ∧ from = splitHead <$> det.
Proof.
  intros Hk _ r. subst r. rewrite handle_recording by done.
  destruct stt as [m|st e|data].
  - cbn. split; [done|]. intros text from. split; [done|].
    by intros (? & ? & ? & ? & _).
  - cbn. split; [done|]. intros text from. split; [done|].
    by intros (? & ? & ? & ? & _).
  - cbn zeta.
    destruct (bool_decide (RecognitionStatus data = "Success" ∨ _));
      cbn [andb].
    2:{ cbn. split; [done|]. intros text from. split; [done|].
        by intros (? & ? & ? & ? & _). }
    destruct (bool_decide (or_ _ _ ≠ "")) eqn:Et; cbn [andb].
    2:{ cbn. split; [done|]. intros text from. split; [done|].
        by intros (? & ? & ? & ? & _). }
    destruct (bool_decide (trim _ ≠ "")) eqn:Eb.
    2:{ cbn. split; [done|]. intros text from. split; [done|].
        by intros (? & ? & ? & ? & _). }
    cbn [fst snd head afterStt]. split; [done|].
    rewrite Et, Eb. cbn [andb]. intros text from. split.
    + intros [= <- <-]. eauto.
    + intros (lang & conf & det & [= <- _ _ <-] & ->). done.
Qed.

(** The hypothesis of X16 holds of a configured route; a recording
    recognized as hola is passed on to the translation. *)
Lemma X16_recorder_reaches_recognizer_witness :
  truthy (Some "key") ≠ None
  ∧ (∀ (text code : string),
       (λ _ : string, DetectOk (Some "es")) text = DetectOk (Some code) →
       (code ∉ inherited) ∧ isAscii code = true)
  ∧ afterStt (handle (Some "key") (Some (audioData "UklGRg=="))
                (Some requestedLanguage) (SttOk hola)
                (λ _, DetectOk (Some "es"))).2
    = TranslateRequest "hola" (Some "es").
Proof.
  assert (Hcode : ∀ (text code : string),
            (λ _ : string, DetectOk (Some "es")) text = DetectOk (Some code) →
            (code ∉ inherited) ∧ isAscii code = true).
  { intros _ code [= <-]. split; [|reflexivity].
    unfold inherited. intros Hin. set_unfold in Hin.
    repeat (destruct Hin as [Hin|Hin]; [discriminate|]). done. }
  split; [discriminate|]. split; [exact Hcode|].
  destruct (X16_recorder_reaches_recognizer (Some "key") "UklGRg==" (SttOk hola)
              (λ _, DetectOk (Some "es"))) as [_ H]; [discriminate|exact Hcode|].
  apply H. eexists _, _, _. split; vm_compute; reflexivity.
Defined.

Lemma splitHead_hyphen (s t : string) :
  splitHead (s +:+ "-" +:+ t) = splitHead s.
Proof.
  induction s as [|a s IH]; [done|].
  change (String a s +:+ "-" +:+ t) with (String a (s +:+ "-" +:+ t)).
  cbn [splitHead]. destruct (decide (a = "-"%char)); [done|]. by rewrite IH.
Qed.

(** What the client cuts off the expansion of a code is what it cuts off
    the code. *)
Lemma splitHead_expand (code : string) :
  splitHead (expand code) = splitHead code.
Proof.
  unfold expand.
  destruct (decide (code ∈ langMap.*1)) as [Hin|Hout].
  - cbn in Hin. set_unfold in Hin.
    repeat (destruct Hin as [->|Hin]; [vm_compute; reflexivity|]). done.
  - replace ((list_to_map langMap : gmap string string) !! code) with (@None string).
    + apply splitHead_hyphen.
    + symmetry. by apply not_elem_of_list_to_map_1.
Qed.

(** X17.  The code identified for the speech comes back to the
    translation request: when the language-identification call yields a
    code (one that names no inherited property), the recorder's
    translation request carries as its source language that code up to its
    first hyphen, whichever locale tag the route expanded it to; a code
    without a hyphen arrives unchanged, a code with a script or region
    suffix loses the suffix. *)
Theorem X17_identified_code_round_trip (speechKey : option string)
    (base64Audio code : string) (data : SttData)
    (detect : string → detect_reply) (text : string) (from : option string) :
  truthy speechKey ≠ None →
  code ≠ "" →
  code ∉ inherited →
  afterStt (handle speechKey (Some (audioData base64Audio))
              (Some requestedLanguage) (SttOk data) detect).2
    = TranslateRequest text from →
  detect text = DetectOk (Some code) →
  from = Some (splitHead code)
  ∧ (includes "-" code = false → from = Some code).
Proof.
  intros Hk Hne _ Hafter Hdet.
  assert (Hfrom : from = Some (splitHead code)).
  { rewrite handle_recording in Hafter by done. cbn zeta in Hafter.
    destruct (_ && _ && _) eqn:E in Hafter; [|done].
    apply andb_prop in E as [E _]. apply andb_prop in E as [_ E].
    cbn [snd afterStt] in Hafter. rewrite E in Hafter.
    destruct (bool_decide (trim _ ≠ "")); [|done].
    cbn [andb] in Hafter. injection Hafter as <- <-.
    rewrite Hdet. unfold autoDetected.
    destruct code; [done|]. cbn [truthy].
    cbn [fmap option_fmap option_map]. by rewrite splitHead_expand. }
  split; [done|]. intros Hno. rewrite Hfrom. f_equal.
  clear -Hno. induction code as [|a s IH]; [done|].
  cbn [includes] in Hno. apply orb_false_iff in Hno as [Hp Hno].
  cbn [splitHead]. destruct (decide (a = "-"%char)) as [->|_].
  - cbn in Hp. by destruct s.
  - by rewrite IH.
Qed.

(** The hypotheses of X17 hold of a recording identified as zh-Hans: the
    translation is requested from zh. *)
Lemma X17_identified_code_round_trip_witness :
  truthy (Some "key") ≠ None
  ∧ "zh-Hans" ≠ ""
  ∧ ("zh-Hans" ∉ inherited)
  ∧ afterStt (handle (Some "key") (Some (audioData "UklGRg=="))
                (Some requestedLanguage) (SttOk hola)
                (λ _, DetectOk (Some "zh-Hans"))).2
    = TranslateRequest "hola" (Some "zh")
  ∧ Some "zh" = Some (splitHead "zh-Hans").
Proof.
  assert (Hin : "zh-Hans" ∉ inherited).
  { unfold inherited. intros Hin. set_unfold in Hin.
    repeat (destruct Hin as [Hin|Hin]; [discriminate|]). done. }
  assert (Hk : truthy (Some "key") ≠ None) by discriminate.
  assert (Hne : "zh-Hans" ≠ "") by discriminate.
  split; [exact Hk|]. split; [exact Hne|]. split; [exact Hin|].
  assert (H : afterStt (handle (Some "key") (Some (audioData "UklGRg=="))
                (Some requestedLanguage) (SttOk hola)
                (λ _, DetectOk (Some "zh-Hans"))).2
              = TranslateRequest "hola" (Some "zh")) by (vm_compute; reflexivity).
  split; [exact H|].
  exact (proj1 (X17_identified_code_round_trip (Some "key") "UklGRg==" "zh-Hans"
                  hola (λ _, DetectOk (Some "zh-Hans")) "hola" (Some "zh")
                  Hk Hne Hin H eq_refl)).
Defined.

End RecorderAndRoute.

(** ** The synthesis routes *)

Section SynthesisRoutes.
Import JsString Ssml Synthesis.

(** A given code is none of the inherited names. *)
Local Ltac not_inherited :=
  unfold Recorder.inherited; cbn [code];
  let Hin := fresh "Hin" in
  intros Hin; set_unfold in Hin;
  repeat (destruct Hin as [Hin|Hin]; [discriminate|]); done.

Lemma includes_replaceAll (c : ascii) (s : string) :
  includes (String c "") (replaceAll c "" s) = false.
Proof.
  induction s as [|a s IH]; [done|]. cbn [replaceAll].
  destruct (decide (a = c)) as [->|Hne]; [done|].
  cbn [includes String.prefix]. rewrite IH.
  destruct (ascii_dec c a) as [->|_]; [done|]. done.
Qed.

(** The region of the endpoint is never empty and holds no hyphen. *)
Lemma speechRegion_host (speechRegionRaw : option string) :
  speechRegion speechRegionRaw ≠ ""
  ∧ includes "-" (speechRegion speechRegionRaw) = false.
Proof.
  unfold speechRegion. destruct speechRegionRaw as [raw|]; [|done]. cbn.
  pose proof (includes_replaceAll "-" raw) as H.
  destruct (replaceAll "-" "" raw); [done|]. done.
Qed.

(** X18.  /api/tts-single and the region.  The host region, the
    configured one without its hyphens and uaenorth when that leaves
    nothing, is never empty and holds no hyphen, so the test for a missing
    region never fires: the provider is called, once, exactly when text,
    voice, locale and the speech credential are all present, at the
    endpoint of that region and with the document of the three; and the
    empty test audio is sent exactly when only the credential is missing,
    whatever the region. *)
Theorem X18_single_route_calls (speechKey speechRegionRaw text voice locale :
    option string) (reply : post → tts_reply) :
  let r := ttsSingle speechKey speechRegionRaw text voice locale reply in
  speechRegion speechRegionRaw ≠ ""
  ∧ includes "-" (speechRegion speechRegionRaw) = false
  ∧ (r.1 = [] ↔ truthy text = None ∨ truthy voice = None
                 ∨ truthy locale = None ∨ truthy speechKey = None)
  ∧ (r.2 = EmptyMp3 ↔ truthy text ≠ None ∧ truthy voice ≠ None
                       ∧ truthy locale ≠ None ∧ truthy speechKey = None)
  ∧ (r.2 = Required ↔ truthy text = None ∨ truthy voice = None
                       ∨ truthy locale = None)
  ∧ ∀ p, p ∈ r.1 →
      r.1 = [p]
      ∧ url p = endpoint (speechRegion speechRegionRaw)
      ∧ ∃ t v l, truthy text = Some t ∧ truthy voice = Some v
                 ∧ truthy locale = Some l ∧ body p = ssmlSingle t v l.
Proof.
  cbn zeta. destruct (speechRegion_host speechRegionRaw) as [Hne Hno].
  split; [done|]. split; [done|]. unfold ttsSingle.
  destruct (truthy text) as [t|]; [|cbn; split; [naive_solver|];
    split; [naive_solver|]; split; [naive_solver|]; set_solver].
  destruct (truthy voice) as [v|]; [|cbn; split; [naive_solver|];
    split; [naive_solver|]; split; [naive_solver|]; set_solver].
  destruct (truthy locale) as [l|]; [|cbn; split; [naive_solver|];
    split; [naive_solver|]; split; [naive_solver|]; set_solver].
  assert (Hr : truthy (Some (speechRegion speechRegionRaw))
               = Some (speechRegion speechRegionRaw)).
  { destruct (speechRegion speechRegionRaw); done. }
  rewrite Hr.
  destruct (truthy speechKey) as [k|]; [|cbn; split; [naive_solver|];
    split; [naive_solver|]; split; [naive_solver|]; set_solver].
  cbn [fst snd]. split; [naive_solver|].
  split; [destruct (reply _); naive_solver|].
  split; [destruct (reply _); naive_solver|].
  intros p Hp. apply list_elem_of_singleton in Hp as ->.
  split; [done|]. split; [done|]. eauto 10.
Qed.

(** X19.  Failures are isolated in the batch route.  With the speech
    credential configured, /api/tts answers every array of items with one
    entry per item, in the order of the items and carrying the item, after
    one provider call per item; an entry has audio exactly when the
    provider answered that item's own call with audio; and an entry does
    not depend on how the calls of the other items end.  The items' codes
    are other than the names every object inherits (for those
    [voiceMap[code]] is no voice name). *)
Theorem X19_batch_isolation (speechKey speechRegionRaw : option string)
    (items : list item) (reply : nat → post → tts_reply) :
  truthy speechKey ≠ None →
  Forall (λ it, code it ∉ Recorder.inherited) items →
  let region := speechRegion speechRegionRaw in
  ∃ results,
    ttsBatch speechKey speechRegionRaw (Some items) reply
      = (batchPost region <$> items, Items results)
    ∧ entryItem <$> results = items
    ∧ (∀ i e, results !! i = Some e →
         (hasAudio e = true
          ↔ ∃ audio, reply i (batchPost region (entryItem e)) = TtsOk audio))
    ∧ ∀ reply' i,
        (∀ p, reply' i p = reply i p) →
        ∃ results',
          (ttsBatch speechKey speechRegionRaw (Some items) reply').2
            = Items results'
          ∧ results' !! i = results !! i.
Proof.
  intros Hk _ region.
  assert (Hr : truthy (Some region) = Some region).
  { destruct (speechRegion_host speechRegionRaw) as [Hne _].
    subst region. destruct (speechRegion speechRegionRaw); done. }
  assert (Hshape : ∀ rep, ttsBatch speechKey speechRegionRaw (Some items) rep
            = (batchPost region <$> items,
               Items (imap (batchEntry region rep) items))).
  { intros rep. unfold ttsBatch. fold region. rewrite Hr.
    destruct (truthy speechKey); done. }
  exists (imap (batchEntry region reply) items).
  split; [apply Hshape|]. split; [|split].
  - apply list_eq. intros i. rewrite list_lookup_fmap, list_lookup_imap.
    destruct (items !! i) as [it|]; [|done]. cbn.
    unfold batchEntry. by destruct (reply _ _).
  - intros i e. rewrite list_lookup_imap.
    destruct (items !! i) as [it|]; [|done]. cbn. intros [= <-].
    unfold batchEntry. destruct (reply i (batchPost region it)) eqn:E; cbn;
      rewrite E; naive_solver.
  - intros reply' i Heq. exists (imap (batchEntry region reply') items).
    rewrite Hshape. split; [done|]. rewrite !list_lookup_imap.
    destruct (items !! i) as [it|]; [|done]. cbn.
    unfold batchEntry. by rewrite Heq.
Qed.

(** The hypothesis of X19 holds of a configured route; of two items, the
    first of which the provider refuses, the second gets its audio. *)
Lemma X19_batch_isolation_witness :
  truthy (Some "key") ≠ None
  ∧ Forall (λ it, code it ∉ Recorder.inherited)
      [Item "fr" "bonjour"; Item "es" "hola"]
  ∧ ∃ results,
      (ttsBatch (Some "key") (Some "uae-north")
         (Some [Item "fr" "bonjour"; Item "es" "hola"])
         (λ i _, if decide (i = 0%nat) then TtsNotOk 429 "busy"
                 else TtsOk "ID3")).2 = Items results
      ∧ entryItem <$> results = [Item "fr" "bonjour"; Item "es" "hola"].
Proof.
  assert (Hk : truthy (Some "key") ≠ None) by discriminate.
  assert (Hcodes : Forall (λ it, code it ∉ Recorder.inherited)
                     [Item "fr" "bonjour"; Item "es" "hola"]).
  { repeat (apply Forall_cons_2; [not_inherited|]). apply Forall_nil_2. }
  split; [exact Hk|]. split; [exact Hcodes|].
  destruct (X19_batch_isolation (Some "key") (Some "uae-north")
              [Item "fr" "bonjour"; Item "es" "hola"]
              (λ i _, if decide (i = 0%nat) then TtsNotOk 429 "busy"
                      else TtsOk "ID3") Hk Hcodes) as (results & H1 & H2 & _).
  exists results. rewrite H1. split; [reflexivity|exact H2].
Defined.

Lemma replaceAll_id (c : ascii) (s : string) :
  replaceAll c "" s = s ↔ includes (String c "") s = false.
Proof.
  induction s as [|a s IH]; [done|]. cbn [replaceAll includes String.prefix].
  destruct (decide (a = c)) as [->|Hne].
  - destruct (ascii_dec c c) as [_|?]; [|done].
    replace (String.prefix "" s) with true by (by destruct s).
    split; [|done]. change ("" +:+ replaceAll c "" s) with (replaceAll c "" s).
    intros Heq. pose proof (includes_replaceAll c s) as Hno.
    rewrite Heq in Hno. cbn [includes String.prefix] in Hno.
    destruct (ascii_dec c c); [|done]. by destruct s.
  - destruct (ascii_dec c a) as [->|_]; [done|]. cbn [orb].
    rewrite <- IH. split; [by intros [= ->]|by intros ->].
Qed.

(** X28.  The region of the recognizer and of the synthesizer.  The
    synthesis routes address the provider at the configured region without
    its hyphens (uaenorth when none is configured), the recognition route
    at the configured region as it is (uae-north when none is
    configured).  So the two routes address the same region exactly when a
    region is configured and holds no hyphen; with none configured, or with
    a hyphen in it, the hosts differ, the synthesizer's region being the
    recognizer's without its hyphens. *)
Theorem X28_recognizer_and_synthesizer_region (speechRegionRaw : option string) :
  (sttRegion speechRegionRaw = speechRegion speechRegionRaw
   ↔ ∃ raw, speechRegionRaw = Some raw ∧ raw ≠ ""
            ∧ includes "-" raw = false)
  ∧ (replaceAll "-" "" (sttRegion speechRegionRaw) ≠ "" →
     speechRegion speechRegionRaw
     = replaceAll "-" "" (sttRegion speechRegionRaw)).
Proof.
  unfold sttRegion, speechRegion.
  destruct speechRegionRaw as [raw|]; cbn [fmap option_fmap option_map].
  2:{ split; [|done]. split; [done|]. by intros (raw & [=] & _). }
  destruct raw as [|a raw].
  { split; [|done]. split; [done|]. by intros (raw & [= <-] & ? & _). }
  cbn [or_ truthy default from_option id]. split.
  - split.
    + intros Heq. exists (String a raw). split; [done|]. split; [done|].
      apply replaceAll_id. destruct (replaceAll "-" "" (String a raw)) eqn:E.
      * cbn in Heq. rewrite Heq in E. vm_compute in E. discriminate.
      * cbn in Heq. done.
    + intros (r & [= <-] & _ & Hno). apply replaceAll_id in Hno.
      rewrite Hno. done.
  - intros Hne. by destruct (replaceAll "-" "" (String a raw)).
Qed.

End SynthesisRoutes.

(** ** The stand-alone server *)

Section ServerProperties.
Import JsString Ssml Synthesis Server.

(** A given code is none of the inherited names. *)
Local Ltac not_inherited :=
  unfold Recorder.inherited; cbn [code];
  let Hin := fresh "Hin" in
  intros Hin; set_unfold in Hin;
  repeat (destruct Hin as [Hin|Hin]; [discriminate|]); done.

(** The loop when every reply is audio. *)
Lemma synthesize_all_ok (region : option string)
    (reply : nat → post → tts_reply) (items : list item) :
  ∀ i out calls,
    (∀ j it, items !! j = Some it →
       ∃ audio, reply (i + j)%nat (serverPost region it) = TtsOk audio) →
    ∃ outs, synthesize region reply i items out calls
            = (calls ++ (serverPost region <$> items), Out (out ++ outs))
            ∧ outs.*1 = items.
Proof.
  induction items as [|it items IH]; intros i out calls Hok; cbn [synthesize].
  - exists []. by rewrite !app_nil_r.
  - destruct (Hok 0%nat it eq_refl) as [audio Ha].
    rewrite Nat.add_0_r in Ha. rewrite Ha.
    destruct (IH (S i) (out ++ [(it, audio)]) (calls ++ [serverPost region it]))
      as (outs & -> & Houts).
    { intros j it' Hj. destruct (Hok (S j) it' Hj) as [a Ha'].
      exists a. by replace (S i + j)%nat with (i + S j)%nat by lia. }
    exists ((it, audio) :: outs). rewrite <- !(assoc_L (++)).
    split; [done|]. cbn. by rewrite Houts.
Qed.

(** The loop when a reply is not audio: it ends at the first such reply. *)
Lemma synthesize_first_failure (region : option string)
    (reply : nat → post → tts_reply) (items : list item) :
  ∀ i out calls k it,
    items !! k = Some it →
    (∀ audio, reply (i + k)%nat (serverPost region it) ≠ TtsOk audio) →
    (∀ j it', (j < k)%nat → items !! j = Some it' →
       ∃ audio, reply (i + j)%nat (serverPost region it') = TtsOk audio) →
    (synthesize region reply i items out calls).1
      = calls ++ (serverPost region <$> take (S k) items)
    ∧ ∀ o, (synthesize region reply i items out calls).2 ≠ Out o.
Proof.
  induction items as [|it0 items IH]; intros i out calls k it Hk Hbad Hbefore;
    [done|].
  cbn [synthesize]. destruct k as [|k].
  - injection Hk as ->. rewrite Nat.add_0_r in Hbad.
    destruct (reply i (serverPost region it)) as [d|st e|audio] eqn:E;
      [done|done|]. by destruct (Hbad audio).
  - destruct (Hbefore 0%nat it0 ltac:(lia) eq_refl) as [audio Ha].
    rewrite Nat.add_0_r in Ha. rewrite Ha.
    destruct (IH (S i) (out ++ [(it0, audio)])
                (calls ++ [serverPost region it0]) k it Hk) as [H1 H2].
    + intros a. replace (S i + k)%nat with (i + S k)%nat by lia. apply Hbad.
    + intros j it' Hj Hit'. replace (S i + j)%nat with (i + S j)%nat by lia.
      apply Hbefore; [lia|done].
    + rewrite H1. split; [|done]. by rewrite <- (assoc_L (++)).
Qed.

(** The first position whose reply is not audio, when there is one. *)
Lemma first_failure (region : option string) (reply : nat → post → tts_reply)
    (items : list item) :
  (∀ j it, items !! j = Some it →
     ∃ audio, reply j (serverPost region it) = TtsOk audio)
  ∨ ∃ k it, items !! k = Some it
      ∧ (∀ audio, reply k (serverPost region it) ≠ TtsOk audio)
      ∧ ∀ j it', (j < k)%nat → items !! j = Some it' →
          ∃ audio, reply j (serverPost region it') = TtsOk audio.
Proof.
  induction items as [|it items IH] using rev_ind; [left; by intros j it' H|].
  destruct IH as [Hall|(k & it0 & Hk & Hbad & Hbefore)].
  - destruct (reply (length items) (serverPost region it)) as [d|st e|audio] eqn:E.
    + right. exists (length items), it. split; [by apply list_lookup_middle|].
      split; [congruence|]. intros j it' Hj Hit'.
      rewrite lookup_app_l in Hit' by done. by apply Hall.
    + right. exists (length items), it. split; [by apply list_lookup_middle|].
      split; [congruence|]. intros j it' Hj Hit'.
      rewrite lookup_app_l in Hit' by done. by apply Hall.
    + left. intros j it' Hit'.
      destruct (decide (j < length items)%nat) as [Hj|Hj].
      * rewrite lookup_app_l in Hit' by done. by apply Hall.
      * apply lookup_app_Some in Hit' as [Hit'|[_ Hit']];
          [by apply lookup_lt_Some in Hit'|].
        apply list_lookup_singleton_Some in Hit' as [Hj' <-].
        replace j with (length items) by lia. eauto.
  - right. exists k, it0. pose proof (lookup_lt_Some _ _ _ Hk) as Hlt.
    split; [by rewrite lookup_app_l|]. split; [done|].
    intros j it' Hj Hit'. rewrite lookup_app_l in Hit' by lia. by apply Hbefore.
Qed.

(** X20.  All or nothing in the sequential server.  The stand-alone
    server's /api/tts synthesizes the items one after the other: it answers
    with items exactly when every provider call is answered with audio,
    and then with all the items in their order, one call each; at the first
    call that is not it stops, so that the items behind it are never sent
    to the provider and the audio obtained before it is not returned.  The
    items' codes are other than the names every object inherits (for
    those the lookups of [langToBcp47] and [pickVoiceForLang] yield no
    tag and no voice name). *)
Theorem X20_sequential_all_or_nothing (region : option string)
    (items : list item) (reply : nat → post → tts_reply) :
  items ≠ [] →
  Forall (λ it, code it ∉ Recorder.inherited) items →
  let r := tts region (Some items) reply in
  ((∃ out, r.2 = Out out)
   ↔ ∀ j it, items !! j = Some it →
       ∃ audio, reply j (serverPost region it) = TtsOk audio)
  ∧ (∀ out, r.2 = Out out →
       out.*1 = items ∧ r.1 = serverPost region <$> items)
  ∧ ∀ k it, items !! k = Some it →
      (∀ audio, reply k (serverPost region it) ≠ TtsOk audio) →
      (∀ j it', (j < k)%nat → items !! j = Some it' →
         ∃ audio, reply j (serverPost region it') = TtsOk audio) →
      r.1 = serverPost region <$> take (S k) items
      ∧ r.2 ≠ BadInput ∧ ∀ out, r.2 ≠ Out out.
Proof.
  intros Hne _ r.
  assert (Hr : r = synthesize region reply 0 items [] []).
  { subst r. unfold tts. destruct items; done. }
  clearbody r. subst r.
  assert (Hok : (∀ j it, items !! j = Some it →
             ∃ audio, reply j (serverPost region it) = TtsOk audio) →
           ∃ outs, synthesize region reply 0 items [] []
                   = (serverPost region <$> items, Out outs)
                   ∧ outs.*1 = items).
  { intros Hall. by apply (synthesize_all_ok region reply items 0%nat [] []). }
  assert (Hbad : ∀ k it, items !! k = Some it →
      (∀ audio, reply k (serverPost region it) ≠ TtsOk audio) →
      (∀ j it', (j < k)%nat → items !! j = Some it' →
         ∃ audio, reply j (serverPost region it') = TtsOk audio) →
      (synthesize region reply 0 items [] []).1
        = serverPost region <$> take (S k) items
      ∧ ∀ o, (synthesize region reply 0 items [] []).2 ≠ Out o).
  { intros k it Hk Hb Hbefore.
    by apply (synthesize_first_failure region reply items 0%nat [] [] k it). }
  split; [split|split].
  - intros [out Hout].
    destruct (first_failure region reply items)
      as [Hall|(k & it & Hk & Hb & Hbefore)]; [done|].
    destruct (Hbad k it Hk Hb Hbefore) as [_ Hno]. by destruct (Hno out).
  - intros Hall. destruct (Hok Hall) as (outs & -> & _). eauto.
  - intros out Hout.
    destruct (first_failure region reply items)
      as [Hall|(k & it & Hk & Hb & Hbefore)].
    + destruct (Hok Hall) as (outs & Heq & Houts). rewrite Heq in Hout |- *.
      injection Hout as <-. done.
    + destruct (Hbad k it Hk Hb Hbefore) as [_ Hno]. by destruct (Hno out).
  - intros k it Hk Hb Hbefore. destruct (Hbad k it Hk Hb Hbefore) as [H1 H2].
    split; [done|]. split; [|done].
    clear. generalize (@nil (item * string)) (@nil post) 0%nat.
    induction items as [|x l IH]; intros out calls i; cbn [synthesize];
      [done|]. destruct (reply i _); [done|done|apply IH].
Qed.

(** The hypothesis of X20 holds of three items the second of which the
    provider refuses: two calls are made and no item is returned. *)
Lemma X20_sequential_all_or_nothing_witness :
  [Item "fr" "bonjour"; Item "es" "hola"; Item "it" "ciao"] ≠ []
  ∧ Forall (λ it, code it ∉ Recorder.inherited)
      [Item "fr" "bonjour"; Item "es" "hola"; Item "it" "ciao"]
  ∧ (tts (Some "westeurope")
       (Some [Item "fr" "bonjour"; Item "es" "hola"; Item "it" "ciao"])
       (λ i _, if decide (i = 1%nat) then TtsNotOk 429 "busy" else TtsOk "ID3")).1
    = serverPost (Some "westeurope")
        <$> [Item "fr" "bonjour"; Item "es" "hola"].
Proof.
  assert (Hne : [Item "fr" "bonjour"; Item "es" "hola"; Item "it" "ciao"] ≠ [])
    by discriminate.
  assert (Hcodes : Forall (λ it, code it ∉ Recorder.inherited)
                     [Item "fr" "bonjour"; Item "es" "hola"; Item "it" "ciao"]).
  { repeat (apply Forall_cons_2; [not_inherited|]). apply Forall_nil_2. }
  split; [exact Hne|]. split; [exact Hcodes|].
  destruct (X20_sequential_all_or_nothing (Some "westeurope")
              [Item "fr" "bonjour"; Item "es" "hola"; Item "it" "ciao"]
              (λ i _, if decide (i = 1%nat) then TtsNotOk 429 "busy"
                      else TtsOk "ID3") Hne Hcodes) as (_ & _ & H).
  destruct (H 1%nat (Item "es" "hola") eq_refl) as [H1 _].
  - intros audio. discriminate.
  - intros j it' Hj Hit'. assert (j = 0%nat) as -> by lia.
    exists "ID3". reflexivity.
  - exact H1.
Defined.

Lemma server_escapeXml_cons (a : ascii) (s : string) :
  escapeXml (String a s) = escapeChar a +:+ escapeXml s.
Proof.
  unfold escapeXml, escapeChar. cbn [replaceAll].
  destruct (decide (a = "&"%char)) as [->|Hamp].
  { rewrite !replaceAll_app. reflexivity. }
  cbn [replaceAll].
  destruct (decide (a = "<"%char)) as [->|Hlt].
  { rewrite !replaceAll_app. reflexivity. }
  cbn [replaceAll].
  destruct (decide (a = ">"%char)) as [->|Hgt].
  { rewrite !replaceAll_app. reflexivity. }
  cbn [replaceAll].
  destruct (decide (a = quot)) as [->|Hquot].
  { rewrite !replaceAll_app. reflexivity. }
  cbn [replaceAll].
  destruct (decide (a = "'"%char)) as [->|Hapos]; reflexivity.
Qed.


(** X21.  Escaping loses nothing and leaves no markup: both versions of
    [escapeXml], of the routes file and of the stand-alone server, are
    injective, two different texts are never sent to the provider as the
    same character data; and the text escaped by the server's version,
    which also replaces the two quotes, holds no angle bracket and no
    quote. *)
Theorem X21_escapeXml_injective :
  (∀ s t, Ssml.escapeXml s = Ssml.escapeXml t → s = t)
  ∧ (∀ s t, escapeXml s = escapeXml t → s = t)
  ∧ ∀ s, markupFree (escapeXml s) = true.
Proof.
  split; [|split].
  - induction s as [|a s IH]; intros [|b t]; rewrite ?escapeXml_cons.
    + done.
    + change (Ssml.escapeXml "") with "". unfold Ssml.escapeChar.
      intros Heq; repeat case_decide; cbn in Heq; discriminate.
    + change (Ssml.escapeXml "") with "". unfold Ssml.escapeChar.
      intros Heq; repeat case_decide; cbn in Heq; discriminate.
    + unfold Ssml.escapeChar. intros Heq.
      repeat case_decide; subst; cbn [append String.append] in Heq;
        simplify_eq; try (f_equal; by apply IH); congruence.
  - induction s as [|a s IH]; intros [|b t]; rewrite ?server_escapeXml_cons.
    + done.
    + change (escapeXml "") with "". unfold escapeChar.
      intros Heq; repeat case_decide; cbn in Heq; discriminate.
    + change (escapeXml "") with "". unfold escapeChar.
      intros Heq; repeat case_decide; cbn in Heq; discriminate.
    + unfold escapeChar. intros Heq.
      repeat case_decide; subst; cbn [append String.append] in Heq;
        simplify_eq; try (f_equal; by apply IH); congruence.
  - induction s as [|a s IH]; [done|]. rewrite server_escapeXml_cons.
    unfold escapeChar. repeat case_decide; subst; cbn [append String.append markupFree];
      rewrite ?IH; try done.
    change (String a "" +:+ escapeXml s) with (String a (escapeXml s)).
    cbn [markupFree]. rewrite IH, bool_decide_eq_false_2; [done|]. naive_solver.
Qed.

(** X22.  Language tag and voice agree in the stand-alone server: for
    every item code (one that names no inherited property) the voice of
    the document is a voice of the locale the document declares, the
    voice's name beginning with the tag of [langToBcp47]; an unknown code
    gets en-US with an en-US voice. *)
Theorem X22_voice_matches_language (code : string) :
  code ∉ Recorder.inherited →
  String.prefix (langToBcp47 code +:+ "-") (pickVoiceForLang code) = true
  ∧ (code ∉ voices.*1 →
     langToBcp47 code = "en-US" ∧ pickVoiceForLang code = "en-US-JennyNeural").
Proof.
  intros _. unfold langToBcp47, pickVoiceForLang, lookup.
  destruct (decide (code ∈ voices.*1)) as [Hin|Hout].
  - split; [|done]. cbn in Hin. set_unfold in Hin.
    repeat (destruct Hin as [->|Hin]; [vm_compute; reflexivity|]). done.
  - assert (H1 : (list_to_map voices : gmap string string) !! code = None)
      by by apply not_elem_of_list_to_map_1.
    assert (H2 : (list_to_map bcp47 : gmap string string) !! code = None).
    { apply not_elem_of_list_to_map_1. intros Hin. apply Hout.
      cbn in Hin |- *. set_unfold in Hin. set_unfold. naive_solver. }
    rewrite H1, H2. done.
Qed.

(** The hypothesis of X22 holds of the code of simplified Chinese. *)
Lemma X22_voice_matches_language_witness :
  ("zh-Hans" ∉ Recorder.inherited)
  ∧ String.prefix (langToBcp47 "zh-Hans" +:+ "-") (pickVoiceForLang "zh-Hans")
    = true.
Proof.
  assert (Hin : "zh-Hans" ∉ Recorder.inherited).
  { unfold Recorder.inherited. intros Hin. set_unfold in Hin.
    repeat (destruct Hin as [Hin|Hin]; [discriminate|]). done. }
  split; [exact Hin|].
  exact (proj1 (X22_voice_matches_language "zh-Hans" Hin)).
Defined.

End ServerProperties.

(** ** The strict JSON helpers *)

Section ApiProperties.
Import JsString Api.
Variable toText : json → string.

Lemma length_substring (n : nat) (s : string) :
  (String.length (String.substring 0 n s) <= n)%nat.
Proof.
  revert s. induction n as [|n IH]; intros [|a s]; cbn; try lia.
  specialize (IH s). lia.
Qed.

Lemma length_append (s t : string) :
  String.length (s +:+ t) = (String.length s + String.length t)%nat.
Proof.
  induction s as [|a s IH]; [done|].
  change (String a s +:+ t) with (String a (s +:+ t)).
  cbn [String.length]. by rewrite IH.
Qed.

(** What [throw new Error(errorMessage)] throws is no [TypeError]. *)
Lemma failure_plain (response : Response) :
  isTypeError (failure toText response) = true →
  ∃ e, textBody response = Throws e ∧ failure toText response = e.
Proof.
  unfold failure. destruct (applicationJson _).
  - destruct (jsonBody response) as [e|[]]; destruct (textBody response);
      repeat case_match; cbn; by eauto.
  - destruct (textBody response); cbn; by eauto.
Qed.

(** X23.  The helpers are strict.  [postJsonStrict] and [getJsonStrict]
    return a value exactly when the request was sent and answered, the
    answer is ok, its content type is present and mentions
    application/json, and its body parses; the value is the parsed body.
    In every other case they throw. *)
Theorem X23_strict_returns (stringify : option JsError)
    (fetched : result Response) (value : json) :
  (postJsonStrict toText stringify fetched = Returns value
   ↔ stringify = None
     ∧ ∃ response, fetched = Returns response
         ∧ ok response = true
         ∧ applicationJson (contentType response) = true
         ∧ jsonBody response = Returns value)
  ∧ (getJsonStrict toText fetched = Returns value
     ↔ ∃ response, fetched = Returns response
         ∧ ok response = true
         ∧ applicationJson (contentType response) = true
         ∧ jsonBody response = Returns value).
Proof.
  assert (Hnet : ∀ r, networkError r = Returns value ↔ r = Returns value).
  { intros [e|v]; cbn; [|done]. destruct (_ && _); done. }
  assert (Hstrict : strict toText fetched = Returns value
            ↔ ∃ response, fetched = Returns response
                ∧ ok response = true
                ∧ applicationJson (contentType response) = true
                ∧ jsonBody response = Returns value).
  { unfold strict. destruct fetched as [e|response].
    { split; [done|]. by intros (r0 & [=] & _). }
    destruct (ok response) eqn:Hok; cbn [negb].
    2:{ split; [done|]. intros (r0 & [= <-] & Hok' & _). congruence. }
    destruct (applicationJson (contentType response)) eqn:Hct; cbn [negb].
    - split; [by eauto|]. by intros (r0 & [= <-] & _ & _ & Hj).
    - split.
      + by destruct (textBody response).
      + intros (r0 & [= <-] & _ & Hct' & _). congruence. }
  split.
  - unfold postJsonStrict. rewrite Hnet.
    destruct stringify as [e|].
    + split; [done|]. by intros [[=] _].
    + rewrite Hstrict. split; [done|]. by intros [_ H].
  - unfold getJsonStrict. by rewrite Hnet, Hstrict.
Qed.

(** X24.  What the helpers throw.  No [TypeError] whose message mentions
    fetch leaves [postJsonStrict]: when the request cannot be sent with
    such an error, the error thrown is the fixed network error.  An answer
    that is not ok and carries a JSON object with a non-empty error string
    is thrown with exactly that string as its message, so a route's own
    error text reaches the caller.  And an answer without a JSON content
    type, whose text can be read, is thrown with a message of at most 149
    characters, of which at most 120 are the answer's. *)
Theorem X24_strict_throws (stringify : option JsError)
    (fetched : result Response) :
  let r := postJsonStrict toText stringify fetched in
  (∀ e, r = Throws e → isTypeError e && includes "fetch" (message e) = false)
  ∧ (∀ e, fetched = Throws e → stringify = None →
       isTypeError e = true → includes "fetch" (message e) = true →
       r = Throws (Error "Network error: Unable to connect to the server"))
  ∧ (∀ response members s,
       stringify = None → fetched = Returns response →
       ok response = false →
       applicationJson (contentType response) = true →
       jsonBody response = Returns (JObject members) →
       member "error" (JObject members) = Some (JString s) → s ≠ "" →
       r = Throws (Error s))
  ∧ (∀ response text,
       stringify = None → fetched = Returns response →
       applicationJson (contentType response) = false →
       textBody response = Returns text →
       ∃ e, r = Throws e ∧ isTypeError e = false
            ∧ (String.length (message e) <= 149)%nat
            ∧ (message e = "Non-JSON response: " +:+ String.substring 0 120 text
               ∨ message e = "Expected JSON response, got: "
                             +:+ String.substring 0 120 text)).
Proof.
  cbn zeta. split; [|split; [|split]].
  - intros e. unfold postJsonStrict, networkError.
    destruct (match stringify with Some _ => _ | None => _ end) as [e0|v];
      [|done].
    destruct (isTypeError e0 && includes "fetch" (message e0)) eqn:E;
      intros [= <-]; done.
  - intros e -> -> Ht Hf. unfold postJsonStrict, strict, networkError.
    by rewrite Ht, Hf.
  - intros response members s -> -> Hok Hct Hjson Hmem Hs.
    unfold postJsonStrict, strict. rewrite Hok. cbn [negb].
    unfold failure. rewrite Hct, Hjson, Hmem. cbn [truthyValue].
    rewrite bool_decide_eq_true_2 by done. done.
  - intros response text -> -> Hct Htext.
    unfold postJsonStrict, strict, failure. rewrite Hct, Htext. cbn [negb].
    pose proof (length_substring 120 text) as Hlen.
    destruct (ok response); cbn [negb networkError Error isTypeError andb];
      eexists; (split; [reflexivity|]); unfold Error; cbn [isTypeError message];
      (split; [done|]); rewrite length_append; cbn [String.length];
      (split; [lia|]); eauto.
Qed.

End ApiProperties.

(** ** The translator page *)

Section TranslatorProperties.
Import Translator.

Lemma existsb_code (lang : SelectedLang) (prev : list SelectedLang) :
  existsb (λ p, bool_decide (code p = code lang)) prev = true
  ↔ code lang ∈ code <$> prev.
Proof.
  rewrite existsb_exists, list_elem_of_fmap. split.
  - intros (p & Hp & Heq). apply bool_decide_eq_true in Heq.
    exists p. split; [done|]. by apply list_elem_of_In.
  - intros (p & Heq & Hp). exists p. split; [by apply list_elem_of_In|].
    by apply bool_decide_eq_true.
Qed.

(** One toggle keeps the selection free of duplicates and within the
    maximum. *)
Lemma toggleLanguage_invariant (lang : SelectedLang) (prev : list SelectedLang) :
  NoDup (code <$> prev) → (length prev <= maxLanguages)%nat →
  NoDup (code <$> toggleLanguage lang prev)
  ∧ (length (toggleLanguage lang prev) <= maxLanguages)%nat.
Proof.
  intros Hnd Hlen. unfold toggleLanguage.
  destruct (existsb _ prev) eqn:E.
  - split.
    + clear -Hnd. induction prev as [|p prev IH]; [done|].
      cbn in Hnd. apply NoDup_cons in Hnd as [Hp Hnd].
      rewrite filter_cons. case_decide; [|by apply IH].
      cbn. apply NoDup_cons. split; [|by apply IH].
      intros Hin. apply Hp. apply list_elem_of_fmap in Hin as (q & -> & Hq).
      apply list_elem_of_fmap. exists q. split; [done|].
      by apply list_elem_of_filter in Hq as [_ Hq].
    + etrans; [apply length_filter|done].
  - case_decide; [done|]. split.
    + rewrite fmap_app. apply NoDup_app. split; [done|]. split.
      * intros c Hc Hin. cbn in Hin. apply list_elem_of_singleton in Hin as ->.
        apply existsb_code in Hc. congruence.
      * cbn. apply NoDup_singleton.
    + rewrite length_app. cbn. unfold maxLanguages in *. lia.
Qed.

(** X25.  The selection of target languages.  Whatever the sequence of
    toggles, the selection never holds two entries of one code and never
    more than twelve entries.  Toggling a selected language takes it out,
    and nothing else, whatever the number selected; toggling another one
    appends it when fewer than twelve are selected, and a second toggle
    restores the selection; with twelve selected it changes nothing. *)
Theorem X25_selection (toggles : list SelectedLang) (lang : SelectedLang) :
  let selected := foldl (λ prev l, toggleLanguage l prev) [] toggles in
  NoDup (code <$> selected)
  ∧ (length selected <= 12)%nat
  ∧ (code lang ∈ code <$> selected →
       toggleLanguage lang selected = filter (λ p, code p ≠ code lang) selected
       ∧ (code lang ∉ code <$> toggleLanguage lang selected)
       ∧ length (toggleLanguage lang selected) = pred (length selected))
  ∧ (code lang ∉ code <$> selected → (length selected < 12)%nat →
       toggleLanguage lang selected = selected ++ [lang]
       ∧ toggleLanguage lang (toggleLanguage lang selected) = selected)
  ∧ (code lang ∉ code <$> selected → length selected = 12%nat →
       toggleLanguage lang selected = selected).
Proof.
  cbn zeta.
  assert (Hinv : NoDup (code <$> foldl (λ prev l, toggleLanguage l prev) [] toggles)
                 ∧ (length (foldl (λ prev l, toggleLanguage l prev) [] toggles)
                    <= maxLanguages)%nat).
  { induction toggles as [|l toggles IH] using rev_ind.
    - cbn. split; [apply NoDup_nil_2|lia].
    - rewrite foldl_app. cbn. destruct IH as [H1 H2].
      by apply toggleLanguage_invariant. }
  destruct Hinv as [Hnd Hlen].
  generalize dependent (foldl (λ prev l, toggleLanguage l prev) [] toggles).
  intros selected Hnd Hlen.
  assert (Hfilter : ∀ sel : list SelectedLang, code lang ∉ code <$> sel →
            filter (λ p, code p ≠ code lang) sel = sel).
  { intros sel Hout. induction sel as [|p sel IH]; [done|].
    rewrite filter_cons. cbn in Hout. apply not_elem_of_cons in Hout as [Hp Hout].
    rewrite decide_True by done. by rewrite IH. }
  split; [done|]. split; [done|]. split; [|split].
  - intros Hin. pose proof Hin as Hex. apply existsb_code in Hex.
    unfold toggleLanguage. rewrite Hex. split; [done|]. split.
    + intros Hc. apply list_elem_of_fmap in Hc as (q & Heq & Hq).
      apply list_elem_of_filter in Hq as [Hq _]. by destruct Hq.
    + clear -Hnd Hin Hfilter.
      induction selected as [|p sel IH]; [by apply elem_of_nil in Hin|].
      cbn in Hnd, Hin. apply NoDup_cons in Hnd as [Hp Hnd].
      rewrite filter_cons. case_decide as Hc.
      * apply elem_of_cons in Hin as [Hin|Hin]; [congruence|].
        cbn [length]. rewrite IH by done.
        destruct sel; [by apply elem_of_nil in Hin|done].
      * rewrite Hfilter; [done|]. by rewrite <- Hc.
  - intros Hout Hlt.
    assert (Hex : existsb (λ p, bool_decide (code p = code lang)) selected = false).
    { apply not_true_is_false. by rewrite existsb_code. }
    assert (H1 : toggleLanguage lang selected = selected ++ [lang]).
    { unfold toggleLanguage. rewrite Hex.
      by rewrite decide_False by (unfold maxLanguages; lia). }
    split; [done|]. rewrite H1. unfold toggleLanguage.
    replace (existsb _ (selected ++ [lang])) with true.
    + rewrite filter_app, Hfilter by done.
      rewrite filter_cons, decide_False by (intros H; by apply H).
      by rewrite filter_nil, app_nil_r.
    + symmetry. apply existsb_code. rewrite fmap_app. set_solver.
  - intros Hout Hfull.
    assert (Hex : existsb (λ p, bool_decide (code p = code lang)) selected = false).
    { apply not_true_is_false. by rewrite existsb_code. }
    unfold toggleLanguage. rewrite Hex.
    by rewrite decide_True by (unfold maxLanguages; lia).
Qed.

(** [await tts(...)] on an idle dispatcher: the call settles, the
    dispatcher is idle again, what was cached stays cached, and a resolved
    call leaves its bytes in the cache under its key. *)
Lemma awaitTts_idle
    (provider : nat → Dispatcher.fetch_result * Dispatcher.body_result)
    (r : Dispatcher.request) (c : gmap string Dispatcher.Blob)
    (st : gmap nat Dispatcher.outcome) (lg : list Dispatcher.task) (n : nat) :
  st !! n = None →
  ∃ o c' lg',
    awaitTts provider r (Dispatcher.State c 0 [] [] [] st lg n)
      = Some (o, Dispatcher.State c' 0 [] [] [] (<[n := o]> st) lg' (S n))
    ∧ (∀ k b, c !! k = Some b → c' !! k = Some b)
    ∧ (∀ b, o = Dispatcher.Resolved b → c' !! Dispatcher.key r = Some b)
    ∧ (lg' = lg ∨ lg' = lg ++ [(n, r)])
    ∧ (is_Some (c !! Dispatcher.key r) → lg' = lg).
Proof.
  intros Hn. unfold awaitTts.
  cbn [Dispatcher.nextId].
  destruct (c !! Dispatcher.key r) as [blob|] eqn:Hc.
  - unfold Dispatcher.tts. cbn [Dispatcher.audioCache]. rewrite Hc.
    unfold Dispatcher.settle. cbn. rewrite lookup_insert_eq.
    eexists _, c, lg. split; [reflexivity|]. split; [done|].
    split; [by intros b [= <-]|]. split; [by left|done].
  - rewrite tts_miss_free by (done || (cbn; unfold Dispatcher.limit; lia)).
    cbn [Dispatcher.audioCache Dispatcher.active Dispatcher.queue
         Dispatcher.fetching Dispatcher.reading Dispatcher.settled
         Dispatcher.fetchLog Dispatcher.nextId app].
    rewrite Hn. unfold Dispatcher.fetchSettles.
    cbn [Dispatcher.fetching Dispatcher.take]. rewrite decide_True by done.
    cbn [mbind option_bind]. unfold Dispatcher.release.
    cbn [Dispatcher.audioCache Dispatcher.active Dispatcher.queue
         Dispatcher.fetching Dispatcher.reading Dispatcher.settled
         Dispatcher.fetchLog Dispatcher.nextId pred].
    destruct (provider n) as [[e|ok] body]; cbn [fst snd].
    + unfold Dispatcher.settle. cbn. rewrite lookup_insert_eq. cbn.
      eexists _, c, _. split; [reflexivity|]. split; [done|].
      split; [done|]. split; [by right|]. by intros [? ?].
    + cbn [mbind option_bind]. unfold Dispatcher.bodySettles.
      cbn [Dispatcher.reading Dispatcher.take app]. rewrite decide_True by done.
      cbn [mbind option_bind].
      destruct body as [e|bytes]; [|destruct ok]; unfold Dispatcher.settle; cbn;
        rewrite lookup_insert_eq; cbn.
      * eexists _, c, _. split; [reflexivity|]. split; [done|].
        split; [done|]. split; [by right|]. by intros [? ?].
      * eexists _, _, _. split; [reflexivity|]. split.
        { intros k b Hk. rewrite lookup_insert_ne; [done|]. congruence. }
        split; [intros b [= <-]; by rewrite lookup_insert_eq|].
        split; [by right|]. by intros [? ?].
      * eexists _, c, _. split; [reflexivity|]. split; [done|].
        split; [done|]. split; [by right|]. by intros [? ?].
Qed.

Lemma find_code (selected : list SelectedLang) (c : string) :
  match find (λ l, bool_decide (code l = c)) selected with
  | Some l => l ∈ selected ∧ code l = c ∧ c ∈ code <$> selected
  | None => c ∉ code <$> selected
  end.
Proof.
  induction selected as [|l selected IH]; cbn [find]; [set_solver|].
  case_bool_decide as E.
  - split; [set_solver|]. split; [done|]. cbn. set_solver.
  - destruct (find _ selected).
    + destruct IH as (? & ? & ?). cbn. set_solver.
    + cbn. set_solver.
Qed.

Lemma generate_idle
    (provider : nat → Dispatcher.fetch_result * Dispatcher.body_result)
    (selected : list SelectedLang) (translations : list Translation) :
  ∀ c st lg n items done,
    (∀ id, (n <= id)%nat → st !! id = None) →
    (∀ it, it ∈ items →
       c !! Dispatcher.key (itemRequest it) = Some (audioBlob it)) →
    ∃ c' st' lg' n' items',
      generate provider selected translations
        (Dispatcher.State c 0 [] [] [] st lg n) items done
      = Some (Dispatcher.State c' 0 [] [] [] st' lg' n', items ++ items',
              (done + length (filter (λ t, to t ∈ code <$> selected)
                                     translations))%nat)
      ∧ (∀ id, (n' <= id)%nat → st' !! id = None)
      ∧ (∀ it, it ∈ items ++ items' →
           c' !! Dispatcher.key (itemRequest it) = Some (audioBlob it))
      ∧ (∀ it, it ∈ items' → lang it ∈ selected)
      ∧ (length items' <= length (filter (λ t, to t ∈ code <$> selected)
                                         translations))%nat
      ∧ translatedText <$> items' `sublist_of` text <$> translations
      ∧ lg `prefix_of` lg'
      ∧ (length lg' <= length lg
                       + length (filter (λ t, to t ∈ code <$> selected)
                                        translations))%nat.
Proof.
  induction translations as [|t translations IH];
    intros c st lg n items done Hst Hitems; cbn [generate].
  - exists c, st, lg, n, []. rewrite app_nil_r, Nat.add_0_r. cbn.
    split; [done|]. split; [done|]. split; [done|]. split; [set_solver|].
    split; [lia|]. split; [done|]. split; [done|lia].
  - rewrite filter_cons. pose proof (find_code selected (to t)) as Hfind.
    destruct (find _ selected) as [l|].
    + destruct Hfind as (Hl & Hcode & Hin). rewrite decide_True by done.
      destruct (awaitTts_idle provider (ttsRequest t l) c st lg n)
        as (o & c1 & lg1 & -> & Hkeep & Hres & Hlog & _); [by apply Hst|].
      cbn [mbind option_bind].
      assert (Hst1 : ∀ id, (S n <= id)%nat → (<[n:=o]> st) !! id = None).
      { intros id Hid. rewrite lookup_insert_ne by lia. apply Hst. lia. }
      assert (Hlg1 : lg `prefix_of` lg1 ∧ (length lg1 <= S (length lg))%nat).
      { destruct Hlog as [->| ->]; [split; [done|lia]|].
        split; [by apply prefix_app_r|]. rewrite length_app. cbn. lia. }
      destruct Hlg1 as [Hpre1 Hlen1].
      destruct o as [blob|err].
      * destruct (IH c1 (<[n:=Dispatcher.Resolved blob]> st) lg1 (S n)
                    (items ++ [Build_GeneratedItem l (text t) blob]) (S done))
          as (c' & st' & lg' & n' & items' & -> & H1 & H2 & H3 & H4 & H5 & H6 & H7);
          [done| |].
        { intros it Hit. apply elem_of_app in Hit as [Hit|Hit].
          - apply Hkeep. by apply Hitems.
          - apply list_elem_of_singleton in Hit as ->. by apply Hres. }
        exists c', st', lg', n', (Build_GeneratedItem l (text t) blob :: items').
        cbn [length]. split.
        { rewrite <- (assoc_L (++)). cbn [app]. do 2 f_equal. lia. }
        split; [done|]. split.
        { intros it Hit. apply H2. rewrite <- (assoc_L (++)). done. }
        split.
        { intros it Hit. apply elem_of_cons in Hit as [->|Hit]; [done|by apply H3]. }
        split; [lia|]. split; [cbn; by constructor|].
        split; [by etrans|lia].
      * destruct (IH c1 (<[n:=Dispatcher.Rejected err]> st) lg1 (S n) items (S done))
          as (c' & st' & lg' & n' & items' & -> & H1 & H2 & H3 & H4 & H5 & H6 & H7);
          [done| |].
        { intros it Hit. apply Hkeep. by apply Hitems. }
        exists c', st', lg', n', items'. cbn [length]. split.
        { do 2 f_equal. lia. }
        split; [done|]. split; [done|]. split; [done|].
        split; [lia|]. split; [cbn; by constructor|].
        split; [by etrans|lia].
    + rewrite decide_False by done.
      destruct (IH c st lg n items done)
        as (c' & st' & lg' & n' & items' & -> & H1 & H2 & H3 & H4 & H5 & H6 & H7);
        [done..|].
      exists c', st', lg', n', items'. split; [done|].
      split; [done|]. split; [done|]. split; [done|].
      split; [lia|]. split; [cbn; by constructor|]. done.
Qed.

(** X26.  Generating all translations on an idle dispatcher.  The loop of
    [handleGenerateAll] awaits every synthesis before it starts the next
    one; run while no other call is pending, it ends, with the dispatcher
    idle again.  The progress counter ends at the number of translations
    whose language is selected, failed ones included, so it stays below
    the total when the translator returns a language that is not
    selected.  The items generated are in the order of the translations,
    each of a selected language, and the audio of each is what the cache
    holds under its key when the loop ends.  At most one provider call is
    made per counted translation, and the calls recorded before are not
    changed. *)
Theorem X26_generate_all
    (provider : nat → Dispatcher.fetch_result * Dispatcher.body_result)
    (selected : list SelectedLang) (translations : list Translation)
    (s : Dispatcher.state) :
  Dispatcher.reachable s →
  Dispatcher.active s = 0%nat →
  Dispatcher.reading s = [] →
  ∃ s' items,
    generate provider selected translations s [] 0
      = Some (s', items,
              length (filter (λ t, to t ∈ code <$> selected) translations))
    ∧ Dispatcher.active s' = 0%nat
    ∧ Dispatcher.queue s' = []
    ∧ Dispatcher.fetching s' = []
    ∧ Dispatcher.reading s' = []
    ∧ (length items <= length (filter (λ t, to t ∈ code <$> selected)
                                      translations)
                    <= length translations)%nat
    ∧ translatedText <$> items `sublist_of` text <$> translations
    ∧ (∀ it, it ∈ items →
         lang it ∈ selected
         ∧ Dispatcher.audioCache s' !! Dispatcher.key (itemRequest it)
           = Some (audioBlob it))
    ∧ Dispatcher.fetchLog s `prefix_of` Dispatcher.fetchLog s'
    ∧ (length (Dispatcher.fetchLog s')
       <= length (Dispatcher.fetchLog s)
          + length (filter (λ t, to t ∈ code <$> selected) translations))%nat.
Proof.
  intros Hreach Hactive Hreading.
  pose proof (reachable_Inv s Hreach) as HI.
  assert (Hq : Dispatcher.queue s = []).
  { destruct (Dispatcher.queue s) eqn:E; [done|].
    pose proof (Dispatcher.inv_queue _ HI) as H. rewrite E in H.
    rewrite H in Hactive by done. done. }
  assert (Hf : Dispatcher.fetching s = []).
  { pose proof (Dispatcher.inv_active _ HI) as H. rewrite Hactive in H.
    by destruct (Dispatcher.fetching s). }
  assert (Hst : ∀ id, (Dispatcher.nextId s <= id)%nat
                      → Dispatcher.settled s !! id = None).
  { intros id Hid. destruct (Dispatcher.settled s !! id) eqn:E; [|done].
    pose proof (Dispatcher.inv_settled _ HI id (mk_is_Some _ _ E)). lia. }
  destruct s as [c a q f rd st lg n]. cbn in *. subst a q f rd.
  destruct (generate_idle provider selected translations c st lg n [] 0%nat)
    as (c' & st' & lg' & n' & items' & Hgen & H1 & H2 & H3 & H4 & H5 & H6 & H7);
    [done|set_solver|].
  cbn in Hgen. eexists _, items'. split; [exact Hgen|]. cbn.
  split; [done|]. split; [done|]. split; [done|]. split; [done|].
  split; [split; [done|apply length_filter]|].
  split; [done|]. split; [|done].
  intros it Hit. split; [by apply H3|]. by apply H2.
Qed.

(** The hypotheses of X26 hold of the initial dispatcher; of the
    translations for two selected languages and one that is not, two are
    counted and, the second synthesis failing, one is generated. *)
Lemma X26_generate_all_witness :
  Dispatcher.reachable Dispatcher.init
  ∧ Dispatcher.active Dispatcher.init = 0%nat
  ∧ Dispatcher.reading Dispatcher.init = []
  ∧ ∃ s' items,
      generate
        (λ id, if decide (id = 0%nat)
               then (Dispatcher.FetchResponse true, Dispatcher.Body "ID3")
               else (Dispatcher.FetchError "Failed to fetch",
                     Dispatcher.BodyError ""))
        [Build_SelectedLang "fr" "fr-FR" "fr-FR-DeniseNeural" "Francais" "French";
         Build_SelectedLang "es" "es-ES" "es-ES-ElviraNeural" "Espanol" "Spanish"]
        [Build_Translation "fr" "bonjour"; Build_Translation "de" "hallo";
         Build_Translation "es" "hola"]
        Dispatcher.init [] 0
      = Some (s', items, 2%nat)
      ∧ translatedText <$> items `sublist_of` ["bonjour"; "hallo"; "hola"].
Proof.
  assert (Hr : Dispatcher.reachable Dispatcher.init) by (exists []; reflexivity).
  split; [exact Hr|]. split; [reflexivity|]. split; [reflexivity|].
  destruct (X26_generate_all
    (λ id, if decide (id = 0%nat)
           then (Dispatcher.FetchResponse true, Dispatcher.Body "ID3")
           else (Dispatcher.FetchError "Failed to fetch", Dispatcher.BodyError ""))
    [Build_SelectedLang "fr" "fr-FR" "fr-FR-DeniseNeural" "Francais" "French";
     Build_SelectedLang "es" "es-ES" "es-ES-ElviraNeural" "Espanol" "Spanish"]
    [Build_Translation "fr" "bonjour"; Build_Translation "de" "hallo";
     Build_Translation "es" "hola"]
    Dispatcher.init Hr eq_refl eq_refl)
    as (s' & items & Hgen & _ & _ & _ & _ & _ & Hsub & _).
  exists s', items. split; [exact Hgen|exact Hsub].
Defined.

End TranslatorProperties.

(** ** The audio player *)

Section AudioPlayerProperties.
Import Js Double AudioPlayer.

(** Minutes and seconds of a time that is not negative. *)
Lemma minutes_seconds (seconds : Q) :
  (0 <= seconds)%Q →
  let mins := Qfloor (seconds / 60) in
  let secs := Qfloor (remainder seconds 60) in
  0 <= mins ∧ 0 <= secs <= 59 ∧ Qfloor seconds = 60 * mins + secs.
Proof.
  intros Hpos mins secs.
  assert (Hq : (0 <= seconds / 60)%Q).
  { apply Qle_shift_div_l; [done|]. by rewrite Qmult_0_l. }
  assert (Htrunc : trunc (seconds / 60) = mins).
  { subst mins. unfold trunc, Qfloor. destruct (seconds / 60)%Q as [p d].
    cbn [Qnum Qden]. unfold Qle in Hq. cbn in Hq.
    apply Z.quot_div_nonneg; lia. }
  pose proof (Qfloor_le (seconds / 60)) as H1.
  pose proof (Qlt_floor (seconds / 60)) as H2. fold mins in H1, H2.
  assert (Hlo : (60 * inject_Z mins <= seconds)%Q).
  { apply (Qmult_le_l _ _ (1 # 60)); [done|].
    setoid_replace ((1 # 60) * (60 * inject_Z mins))%Q with (inject_Z mins)
      using relation Qeq by ring.
    setoid_replace ((1 # 60) * seconds)%Q with (seconds / 60)%Q
      using relation Qeq by (field). done. }
  assert (Hhi : (seconds < 60 * inject_Z (mins + 1))%Q).
  { apply (Qmult_lt_l _ _ (1 # 60)); [done|].
    setoid_replace ((1 # 60) * (60 * inject_Z (mins + 1)))%Q
      with (inject_Z (mins + 1)) using relation Qeq by ring.
    setoid_replace ((1 # 60) * seconds)%Q with (seconds / 60)%Q
      using relation Qeq by (field). done. }
  rewrite inject_Z_plus in Hhi.
  assert (Hm : 0 <= mins).
  { subst mins. change 0 with (Qfloor 0). by apply Qfloor_resp_le. }
  pose proof (Qfloor_le (remainder seconds 60)) as H3.
  pose proof (Qlt_floor (remainder seconds 60)) as H4. fold secs in H3, H4.
  unfold remainder in H3, H4. rewrite Htrunc in H3, H4.
  rewrite inject_Z_plus in H4.
  assert (Hs0 : -1 < secs).
  { rewrite Zlt_Qlt. change (inject_Z (-1)) with (-1)%Q.
    change (inject_Z 1) with 1%Q in *. lra. }
  assert (Hs1 : secs < 60).
  { rewrite Zlt_Qlt. change (inject_Z 60) with 60%Q.
    change (inject_Z 1) with 1%Q in *. lra. }
  split; [done|]. split; [lia|].
  apply Qfloor_unique.
  - rewrite inject_Z_plus, inject_Z_mult. change (inject_Z 60) with 60%Q. lra.
  - rewrite !inject_Z_plus, inject_Z_mult. change (inject_Z 60) with 60%Q.
    change (inject_Z 1) with 1%Q in *. lra.
Qed.

Lemma pretty_digit (d : Z) :
  0 <= d <= 9 → pretty d = String (pretty_N_char (Z.to_N d)) "".
Proof.
  intros Hd.
  assert (d = 0 ∨ d = 1 ∨ d = 2 ∨ d = 3 ∨ d = 4 ∨ d = 5 ∨ d = 6 ∨ d = 7
          ∨ d = 8 ∨ d = 9) as Hcases by lia.
  repeat (destruct Hcases as [->|Hcases]; [vm_compute; reflexivity|]).
  subst. vm_compute. reflexivity.
Qed.

(** The seconds are printed with two digits. *)
Lemma padStart2_seconds (secs : Z) :
  0 <= secs <= 59 →
  padStart2 (pretty secs)
  = String (pretty_N_char (Z.to_N (secs / 10)))
      (String (pretty_N_char (Z.to_N (secs mod 10))) "").
Proof.
  intros Hs. assert (∃ n : nat, (n < 60)%nat ∧ secs = Z.of_nat n) as (n & Hn & ->).
  { exists (Z.to_nat secs). lia. }
  clear Hs. do 60 (destruct n as [|n]; [vm_compute; reflexivity|]). lia.
Qed.

(** A printed number holds no colon. *)
Lemma pretty_N_go_colon (x : N) (s : string) :
  ":"%char ∉ list_ascii_of_string s →
  ":"%char ∉ list_ascii_of_string (pretty_N_go x s).
Proof.
  revert s. induction (N.lt_wf_0 x) as [x _ IH]; intros s Hs.
  assert (x = 0 ∨ 0 < x)%N as [->|Hx] by lia; [by rewrite pretty_N_go_0|].
  rewrite pretty_N_go_step by done. apply IH; [by apply N.div_lt|].
  cbn [list_ascii_of_string]. apply not_elem_of_cons. split; [|done].
  unfold pretty_N_char. by repeat case_match.
Qed.

Lemma pretty_colon (m : Z) :
  0 <= m → ":"%char ∉ list_ascii_of_string (pretty m).
Proof.
  intros Hm. destruct m as [|p|p]; [|..|lia].
  - cbn. set_solver.
  - unfold pretty, pretty_Z, pretty, pretty_positive, pretty, pretty_N.
    case_decide; [done|]. apply pretty_N_go_colon. cbn. set_solver.
Qed.

Lemma split_at_colon (a b x y : string) :
  ":"%char ∉ list_ascii_of_string a →
  ":"%char ∉ list_ascii_of_string b →
  a +:+ ":" +:+ x = b +:+ ":" +:+ y → a = b ∧ x = y.
Proof.
  revert b. induction a as [|c a IH]; intros [|d b] Ha Hb Heq.
  - by injection Heq.
  - cbn in Heq, Hb. injection Heq as <- _. set_solver.
  - cbn in Heq, Ha. injection Heq as -> _. set_solver.
  - change (String c (a +:+ ":" +:+ x) = String d (b +:+ ":" +:+ y)) in Heq.
    injection Heq as -> Heq. cbn in Ha, Hb.
    apply not_elem_of_cons in Ha as [_ Ha], Hb as [_ Hb].
    destruct (IH b Ha Hb Heq) as [-> ->]. done.
Qed.

(** X27.  The time shown by the player.  For a time that is not negative
    and below 2^53 seconds (a double) [formatTime] shows the whole
    minutes, a colon, and the remaining whole seconds, always with two
    digits and between 00 and 59; 60 times the minutes plus the seconds is
    the time rounded down: the rounding of the quotient [seconds / 60]
    never reaches the next minute.  Two such times are shown alike exactly
    when they have the same whole seconds. *)
Theorem X27_formatTime (seconds : Q) :
  shownTime seconds →
  (∃ mins secs : Z,
     0 <= mins ∧ 0 <= secs <= 59
     ∧ Qfloor seconds = 60 * mins + secs
     ∧ formatTime seconds
       = pretty mins +:+ ":" +:+ pretty (secs / 10) +:+ pretty (secs mod 10))
  ∧ ∀ other, shownTime other →
      (formatTime seconds = formatTime other ↔ Qfloor seconds = Qfloor other).
Proof.
  intros Hpos.
  assert (Hshape : ∀ t, shownTime t →
    ∃ mins secs : Z,
      0 <= mins ∧ 0 <= secs <= 59 ∧ Qfloor t = 60 * mins + secs
      ∧ formatTime t
        = pretty mins +:+ ":"
          +:+ String (pretty_N_char (Z.to_N (secs / 10)))
                (String (pretty_N_char (Z.to_N (secs mod 10))) "")).
  { intros t (Hd & Ht & Hlt).
    destruct (minutes_seconds t Ht) as (Hm & Hs & Hfloor).
    eexists _, _. split; [exact Hm|]. split; [exact Hs|].
    split; [exact Hfloor|]. unfold formatTime.
    rewrite (floor_div64_60 t Hd Ht Hlt). by rewrite padStart2_seconds. }
  split.
  - destruct (Hshape seconds Hpos) as (mins & secs & Hm & Hs & Hfloor & Hfmt).
    exists mins, secs. split; [done|]. split; [done|]. split; [done|].
    rewrite Hfmt.
    rewrite (pretty_digit (secs / 10)), (pretty_digit (secs mod 10)); [done|..].
    + pose proof (Z.mod_pos_bound secs 10). lia.
    + assert (secs / 10 < 10) by (apply Z.div_lt_upper_bound; lia).
      assert (0 <= secs / 10) by (apply Z.div_pos; lia). lia.
  - intros other Hother.
    destruct (Hshape seconds Hpos) as (m1 & s1 & Hm1 & Hs1 & Hf1 & Hfmt1).
    destruct (Hshape other Hother) as (m2 & s2 & Hm2 & Hs2 & Hf2 & Hfmt2).
    rewrite Hfmt1, Hfmt2, Hf1, Hf2. split.
    + intros Heq. apply split_at_colon in Heq as [Hm Hd];
        [|by apply pretty_colon..].
      apply (inj pretty) in Hm as ->. injection Hd as Hd1 Hd2.
      apply pretty_N_char_inj in Hd1, Hd2.
      * assert (s1 / 10 = s2 / 10).
        { apply Z2N.inj in Hd1; [done|apply Z.div_pos; lia..]. }
        assert (s1 mod 10 = s2 mod 10).
        { apply Z2N.inj in Hd2; [done|apply Z.mod_pos_bound; lia..]. }
        rewrite (Z.div_mod s1 10), (Z.div_mod s2 10) by lia. lia.
      * pose proof (Z.mod_pos_bound s1 10). lia.
      * pose proof (Z.mod_pos_bound s2 10). lia.
      * assert (s1 / 10 < 10) by (apply Z.div_lt_upper_bound; lia).
        assert (0 <= s1 / 10) by (apply Z.div_pos; lia). lia.
      * assert (s2 / 10 < 10) by (apply Z.div_lt_upper_bound; lia).
        assert (0 <= s2 / 10) by (apply Z.div_pos; lia). lia.
    + intros Heq. assert (m1 = m2 ∧ s1 = s2) as [-> ->]; [lia|done].
Qed.

(** The hypothesis of X27 holds of 83.5 seconds, shown as 1:23. *)
Lemma X27_formatTime_witness :
  shownTime (167 # 2) ∧ formatTime (167 # 2) = "1:23"
  ∧ ∃ mins secs : Z, Qfloor (167 # 2) = 60 * mins + secs ∧ 0 <= secs <= 59.
Proof.
  assert (H : shownTime (167 # 2)).
  { split; [by vm_compute|]. split; by vm_compute. }
  split; [exact H|]. split; [vm_compute; reflexivity|].
  destruct (X27_formatTime (167 # 2) H) as [(mins & secs & _ & Hs & Hf & _) _].
  exists mins, secs. split; [exact Hf|exact Hs].
Defined.

End AudioPlayerProperties.
